(** * EEG monitor: ring buffer, message handler and strip-chart redraw

    A shallow embedding of the [EegMonitorCanvas] component
    (src/unnamed/part_000) and the properties its specification states.

    Conventions.
    - A JS [number] is an IEEE-754 binary64 value: Rocq's primitive [float],
      with the kernel's own [+], [-], [*], [/], [<?] and [<=?].
    - A JS array is a [list (option A)]: [None] is a hole, which reads as
      [undefined].  Array lengths, indices and the ring buffer's pointer are
      natural numbers, except that [x % 0] is [NaN]; see [index].
    - Code that can throw returns a [completion]. *)

From Stdlib Require Import ZArith Lia Floats Uint63 QArith Lqa Sorted Permutation.
From stdpp Require Import base list strings.

Set Default Proof Using "Type".

(** ** Numbers, samples and constants *)

Definition number : Set := float.
Bind Scope float_scope with number.

(** The specification-level view of a number ([Prim2SF]): what sign a nonzero
    number has, and positive zero. *)
Definition signed_nonzero (s : bool) (f : spec_float) : Prop :=
  match f with
  | S754_finite s' _ _ | S754_infinity s' => s' = s
  | _ => False
  end.

Definition SFzero : spec_float := S754_zero false.

(** [interface Sample] *)
Record Sample : Set := mkSample { timestamp : number; value : number }.

(** [interface EegBatchData] *)
Record EegBatchData : Set := mkBatch {
  channels : list (list number);
  batch_timestamp : number   (* the [timestamp] field of the batch *)
}.

Definition SAMPLE_RATE : number := 250%float.
Definition WINDOW_DURATION : number := 2000%float.
Definition GRAPH_HEIGHT : number := 100%float.
Definition GRAPH_WIDTH : number := 400%float.

(** [Math.ceil((SAMPLE_RATE * WINDOW_DURATION) / 1000)]: the quotient is the
    integer 500 (see [WINDOW_SIZE_exact]), which [Math.ceil] leaves alone. *)
Definition WINDOW_SIZE_quotient : number :=
  (SAMPLE_RATE * WINDOW_DURATION / 1000)%float.
Definition WINDOW_SIZE : nat := 500.

(** The number of channels: [Array(4)] in [dataRef]. *)
Definition CHANNEL_COUNT : nat := 4.

(** The JS number of an array index (exact below 2^53, and array lengths stay
    below 2^32). *)
Definition number_of_nat (i : nat) : number :=
  PrimFloat.of_uint63 (Uint63.of_Z (Z.of_nat i)).

(** ** JS arrays *)

(** A number used as an index: a natural number, or NaN. *)
Inductive index : Set :=
  | At (n : nat)
  | NotANumber.

(** [(p + 1) % capacity] on such numbers: [NaN + 1] and [x % 0] are NaN. *)
Definition succ_mod (p : index) (capacity : nat) : index :=
  match p, capacity with
  | At n, S _ => At ((n + 1) mod capacity)
  | _, _ => NotANumber
  end.

Module JsArray.
Section Ops.
Context {A : Type}.

(** [new Array(n)]: [n] holes. *)
Definition new (n : nat) : list (option A) := replicate n None.

(** [a.fill(v)]: every index below the length is set to [v]. *)
Definition fill (v : A) (a : list (option A)) : list (option A) :=
  (fun _ => Some v) <$> a.

(** [a[i] = x].  In range the slot is replaced; at or past the length the
    array grows to [i + 1], the skipped indices being holes; [a[NaN] = x]
    sets the property named "NaN" and touches no element. *)
Definition set (a : list (option A)) (i : index) (x : A) : list (option A) :=
  match i with
  | At n =>
      if decide (n < length a) then <[n := Some x]> a
      else a ++ replicate (n - length a) None ++ [Some x]
  | NotANumber => a
  end.

(** An index argument of [slice]: NaN counts as 0. *)
Definition to_integer (i : index) : nat :=
  match i with At n => n | NotANumber => 0 end.

(** [a.slice(i)] *)
Definition slice_from (a : list (option A)) (i : index) : list (option A) :=
  drop (to_integer i) a.

(** [a.slice(0, i)] *)
Definition slice_to (a : list (option A)) (i : index) : list (option A) :=
  take (to_integer i) a.
End Ops.
End JsArray.

(** ** class RingBuffer *)

Record RingBuffer : Set := mkRingBuffer {
  buffer : list (option Sample);
  pointer : index;
  capacity : nat
}.

Definition zero_sample : Sample := mkSample 0%float 0%float.

(** [constructor(capacity)].  [capacity] ranges over array lengths: for any
    other number [new Array] throws and no ring buffer exists.  Every slot
    starts as the sample [{timestamp: 0, value: 0}] (one shared object, never
    mutated). *)
Definition RingBuffer_new (capacity : nat) : RingBuffer :=
  {| buffer := JsArray.fill zero_sample (JsArray.new capacity);
     pointer := At 0;
     capacity := capacity |}.

Definition push (sample : Sample) (rb : RingBuffer) : RingBuffer :=
  {| buffer := JsArray.set (buffer rb) (pointer rb) sample;
     pointer := succ_mod (pointer rb) (capacity rb);
     capacity := capacity rb |}.

(** [[...buffer.slice(pointer), ...buffer.slice(0, pointer)]] *)
Definition getArray (rb : RingBuffer) : list (option Sample) :=
  JsArray.slice_from (buffer rb) (pointer rb) ++
  JsArray.slice_to (buffer rb) (pointer rb).

(** A run of [push] calls, first sample first. *)
Definition pushes (samples : list Sample) (rb : RingBuffer) : RingBuffer :=
  foldl (fun rb s => push s rb) rb samples.

(** The invariant of a ring buffer of positive capacity. *)
Definition pointer_in_range (rb : RingBuffer) : Prop :=
  exists p, pointer rb = At p /\ p < capacity rb.

Record wf (rb : RingBuffer) : Prop := {
  wf_length : length (buffer rb) = capacity rb;
  wf_pointer : pointer_in_range rb
}.

(** ** Completions and the component's mutable state *)

Inductive error : Set :=
  | SyntaxError   (* [JSON.parse] on text that is not JSON *)
  | TypeError.    (* a property read or a call on [undefined] *)

Inductive completion (A : Type) : Type :=
  | Normal (a : A)
  | Throw (e : error).
Arguments Normal {A} a.
Arguments Throw {A} e.

(** The refs the callbacks share, and what [console.error] has printed
    (latest first). *)
Record state : Set := mkState {
  dataRef : list RingBuffer;
  lastTimestampRef : number;
  console : list error
}.

(** [useRef(Array(4).fill(null).map(() => new RingBuffer(WINDOW_SIZE)))];
    [now] is the [Date.now()] of the first render. *)
Definition initial_state (now : number) : state :=
  {| dataRef := replicate CHANNEL_COUNT (RingBuffer_new WINDOW_SIZE);
     lastTimestampRef := now;
     console := [] |}.

(** Statements: they update the state and complete normally or throw; what
    was written before a throw stays written. *)
Definition M (A : Type) : Type := state -> completion A * state.

Definition ret {A} (a : A) : M A := fun st => (Normal a, st).

Definition throw {A} (e : error) : M A := fun st => (Throw e, st).

Definition bind {A B} (c : M A) (k : A -> M B) : M B :=
  fun st =>
    match c st with
    | (Normal a, st') => k a st'
    | (Throw e, st') => (Throw e, st')
    end.

Notation "x <- c ;; k" := (bind c (fun x => k))
  (at level 100, c at next level, right associativity).
Notation "c ;;; k" := (bind c (fun _ => k))
  (at level 100, right associativity).

(** [try { body } catch (error) { handler(error) }] *)
Definition try_catch {A} (body : M A) (handler : error -> M A) : M A :=
  fun st =>
    match body st with
    | (Normal a, st') => (Normal a, st')
    | (Throw e, st') => handler e st'
    end.

(** [a.forEach((x, i) => f x i)] on an array without holes, from index
    [start] on. *)
Fixpoint forEach_from {A} (f : A -> nat -> M unit) (start : nat) (a : list A)
  : M unit :=
  match a with
  | [] => ret tt
  | x :: a' => f x start ;;; forEach_from f (S start) a'
  end.

Definition forEach {A} (f : A -> nat -> M unit) (a : list A) : M unit :=
  forEach_from f 0 a.

(** ** The message handler *)

(** A message, by what [JSON.parse(event.data)] makes of its payload.  The
    handler takes whatever value the parser returns as an [EegBatchData],
    unchecked.
    - [Malformed]: the text is not JSON, and the parser throws a SyntaxError.
    - [Batch data]: the value is of the declared type.
    - [Misshapen channels timestamp]: any other value, by what the handler
      reads of it.  [channels] is [None] when [data.channels.forEach] cannot
      be called: [data] is [null], a number, a string, a boolean or an array,
      or an object whose [channels] is missing or is not an array.  Otherwise
      it is that array, an entry being [Some] array of readings or, for a
      value that is not an array, [None].  [timestamp] is the number that the
      sum [data.timestamp + ...] works with: the field itself, NaN when the
      field is missing, 0 for [null].
    A reading that is not a number, or a timestamp that is a string, an array
    or an object, is not covered: the handler would store the reading as it
    is and a string for the timestamp, and a [Sample] holds numbers. *)
Inductive MessageEvent : Set :=
  | Malformed
  | Batch (data : EegBatchData)
  | Misshapen (channels : option (list (option (list number))))
              (timestamp : number).

(** What the handler reads of the parsed value [data]: [data.channels] and
    [data.timestamp]. *)
Record Parsed : Set := mkParsed {
  parsed_channels : option (list (option (list number)));
  parsed_timestamp : number
}.

Definition JSON_parse (event : MessageEvent) : M Parsed :=
  match event with
  | Malformed => throw SyntaxError
  | Batch data =>
      ret {| parsed_channels := Some (Some <$> channels data);
             parsed_timestamp := batch_timestamp data |}
  | Misshapen channels timestamp =>
      ret {| parsed_channels := channels; parsed_timestamp := timestamp |}
  end.

(** [lastTimestampRef.current = Date.now()] *)
Definition set_lastTimestamp (now : number) : M unit :=
  fun st =>
    (Normal tt,
     {| dataRef := dataRef st; lastTimestampRef := now; console := console st |}).

(** [dataRef.current[channelIndex].push(sample)]: a TypeError when there is
    no such buffer. *)
Definition dataRef_push (channelIndex : nat) (sample : Sample) : M unit :=
  fun st =>
    match dataRef st !! channelIndex with
    | Some rb =>
        (Normal tt,
         {| dataRef := <[channelIndex := push sample rb]> (dataRef st);
            lastTimestampRef := lastTimestampRef st;
            console := console st |})
    | None => (Throw TypeError, st)
    end.

(** [console.error('WebSocket error:', error)] *)
Definition console_error (e : error) : M unit :=
  fun st =>
    (Normal tt,
     {| dataRef := dataRef st;
        lastTimestampRef := lastTimestampRef st;
        console := e :: console st |}).

Definition sampleInterval : number := (1000 / SAMPLE_RATE)%float.

(** The sample built for reading [i] of a channel. *)
Definition make_sample (data_timestamp : number) (value : number) (i : nat)
  : Sample :=
  let timestamp := (data_timestamp + number_of_nat i * sampleInterval)%float in
  {| timestamp := timestamp; value := value |}.

(** The callback of [data.channels.forEach]: the inner loop over one channel
    array. *)
Definition store_channel (data_timestamp : number) (channel : list number)
  (channelIndex : nat) : M unit :=
  forEach (fun value i =>
             dataRef_push channelIndex (make_sample data_timestamp value i))
          channel.

(** The same callback on an entry of whatever kind: [channel.forEach] on a
    value that is not an array is a TypeError. *)
Definition store_entry (data_timestamp : number) (entry : option (list number))
  (channelIndex : nat) : M unit :=
  match entry with
  | Some channel => store_channel data_timestamp channel channelIndex
  | None => throw TypeError
  end.

(** The [try] block of [handleMessage]; [now] is what [Date.now()] returns.
    [data.channels.forEach] is a TypeError when there is no such array. *)
Definition handleMessage_try (now : number) (event : MessageEvent) : M unit :=
  data <- JSON_parse event ;;
  set_lastTimestamp now ;;;
  match parsed_channels data with
  | Some entries => forEach (store_entry (parsed_timestamp data)) entries
  | None => throw TypeError
  end.

(** The state after a write to [dataRef.current]. *)
Definition with_dataRef (l : list RingBuffer) (st : state) : state :=
  {| dataRef := l; lastTimestampRef := lastTimestampRef st;
     console := console st |}.

(** The function handed to [throttle]. *)
Definition handleMessage (now : number) (event : MessageEvent) : M unit :=
  try_catch (handleMessage_try now event) console_error.

(** The samples one channel array contributes, in push order. *)
Definition channel_samples (data_timestamp : number) (channel : list number)
  : list Sample :=
  imap (fun i value => make_sample data_timestamp value i) channel.

(** The entries of [data.channels] before the first one that is not an
    array. *)
Fixpoint leading_arrays (entries : list (option (list number)))
  : list (list number) :=
  match entries with
  | Some channel :: rest => channel :: leading_arrays rest
  | _ => []
  end.

(** ** The throttle around the handler

    [throttle(handleMessage, 32)] comes from the npm package lodash.throttle
    (4.1.1), which is not part of this repository.  What follows transcribes
    its [debounce] with the options [throttle] passes to it: [leading] and
    [trailing] both true and [maxWait = wait].  Clock readings ([Date.now()])
    are whole milliseconds.  [timerId] is the variable of that name, set by
    every [setTimeout] and cleared by [trailingEdge] only; [timers] are the
    timeouts that were set and have not fired yet, each by the time it is
    due.  No timeout is ever cleared: a call that invokes while a timeout is
    pending sets another one, and both fire.  Each function returns the new
    state and, when it calls the wrapped function, the arguments of that
    call. *)

Module Throttle.
Section Throttle.
Context {A : Type}.
Variable wait : Z.

Record t : Type := mk {
  lastArgs : option A;
  lastCallTime : option Z;
  lastInvokeTime : Z;
  timerId : option Z;
  timers : list Z
}.

Definition init : t :=
  {| lastArgs := None; lastCallTime := None; lastInvokeTime := 0;
     timerId := None; timers := [] |}.

(** [timerId = setTimeout(timerExpired, delay)] at the clock reading [time];
    a negative delay counts as 0. *)
Definition setTimeout (th : t) (time delay : Z) : t :=
  let due := (time + Z.max 0 delay)%Z in
  {| lastArgs := lastArgs th; lastCallTime := lastCallTime th;
     lastInvokeTime := lastInvokeTime th;
     timerId := Some due; timers := timers th ++ [due] |}.

Definition invokeFunc (th : t) (time : Z) : t * option A :=
  ({| lastArgs := None; lastCallTime := lastCallTime th;
      lastInvokeTime := time; timerId := timerId th; timers := timers th |},
   lastArgs th).

Definition leadingEdge (th : t) (time : Z) : t * option A :=
  invokeFunc
    (setTimeout
       {| lastArgs := lastArgs th; lastCallTime := lastCallTime th;
          lastInvokeTime := time; timerId := timerId th;
          timers := timers th |}
       time wait)
    time.

(** Only evaluated after a call, when [lastCallTime] is set. *)
Definition remainingWait (th : t) (time : Z) : Z :=
  match lastCallTime th with
  | Some called =>
      Z.min (wait - (time - called)) (wait - (time - lastInvokeTime th))
  | None => 0%Z
  end.

Definition shouldInvoke (th : t) (time : Z) : bool :=
  match lastCallTime th with
  | None => true
  | Some called =>
      (wait <=? time - called)%Z || (time - called <? 0)%Z ||
      (wait <=? time - lastInvokeTime th)%Z
  end.

Definition trailingEdge (th : t) (time : Z) : t * option A :=
  match lastArgs th with
  | Some _ =>
      invokeFunc
        {| lastArgs := lastArgs th; lastCallTime := lastCallTime th;
           lastInvokeTime := lastInvokeTime th; timerId := None;
           timers := timers th |}
        time
  | None =>
      ({| lastArgs := None; lastCallTime := lastCallTime th;
          lastInvokeTime := lastInvokeTime th; timerId := None;
          timers := timers th |},
       None)
  end.

(** The callback of every timeout. *)
Definition timerExpired (th : t) (time : Z) : t * option A :=
  if shouldInvoke th time then trailingEdge th time
  else (setTimeout th time (remainingWait th time), None).

(** The throttled function itself, called with [args] at [time]. *)
Definition debounced (th : t) (time : Z) (args : A) : t * option A :=
  let isInvoking := shouldInvoke th time in
  let called :=
    {| lastArgs := Some args; lastCallTime := Some time;
       lastInvokeTime := lastInvokeTime th; timerId := timerId th;
       timers := timers th |} in
  match isInvoking, timerId th with
  | true, None => leadingEdge called time
  | true, Some _ => invokeFunc (setTimeout called time wait) time
  | false, None => (setTimeout called time wait, None)
  | false, Some _ => (called, None)
  end.

(** The browser's side of the timeouts.  The one that fires next is the one
    due first, and of those due at the same time the one set first. *)
Fixpoint earliest (pending : list Z) : option Z :=
  match pending with
  | [] => None
  | due :: rest =>
      match earliest rest with
      | Some due' => Some (if (due' <? due)%Z then due' else due)
      | None => Some due
      end
  end.

Fixpoint without (due : Z) (pending : list Z) : list Z :=
  match pending with
  | [] => []
  | due' :: rest => if (due' =? due)%Z then rest else due' :: without due rest
  end.

(** The timeout due at [due] fires: it is pending no more when its callback
    starts. *)
Definition fired (due : Z) (th : t) : t :=
  {| lastArgs := lastArgs th; lastCallTime := lastCallTime th;
     lastInvokeTime := lastInvokeTime th; timerId := timerId th;
     timers := without due (timers th) |}.
End Throttle.
End Throttle.

Arguments Throttle.t A : clear implicits.

(** ** The socket listener: messages and timer expiries in arrival order *)

Definition THROTTLE_WAIT : Z := 32.

(** A [Date.now()] reading as a JS number: a whole number of milliseconds of
    magnitude at most 8.64e15, which is below 2^53, where the conversion is
    exact. *)
Definition number_of_Z (time : Z) : number :=
  if (time <? 0)%Z then (- PrimFloat.of_uint63 (Uint63.of_Z (- time)))%float
  else PrimFloat.of_uint63 (Uint63.of_Z time).

Record component : Type := mkComponent {
  refs : state;
  throttled : Throttle.t MessageEvent
}.

Definition mount (now : Z) : component :=
  {| refs := initial_state (number_of_Z now); throttled := Throttle.init |}.

Inductive event : Set :=
  | Message (time : Z) (ev : MessageEvent)   (* [ws.onmessage] fires *)
  | TimerFired (time : Z).                   (* a timeout of the throttle fires *)

(** The throttle calling [handleMessage], or not.  The clock reading of the
    callback serves both lodash and the handler. *)
Definition invoke (time : Z) (args : option MessageEvent) (st : state) : state :=
  match args with
  | Some ev => snd (handleMessage (number_of_Z time) ev st)
  | None => st
  end.

(** One callback.  [TimerFired time] is the callback of the pending timeout
    that fires next, at the clock reading [time]; a timeout only fires when
    it is due, and there is no callback when none is. *)
Definition step (c : component) (e : event) : component :=
  match e with
  | Message time ev =>
      let '(th, args) := Throttle.debounced THROTTLE_WAIT (throttled c) time ev in
      {| refs := invoke time args (refs c); throttled := th |}
  | TimerFired time =>
      match Throttle.earliest (Throttle.timers (throttled c)) with
      | Some due =>
          if (due <=? time)%Z then
            let '(th, args) :=
              Throttle.timerExpired THROTTLE_WAIT
                (Throttle.fired due (throttled c)) time in
            {| refs := invoke time args (refs c); throttled := th |}
          else c
      | None => c
      end
  end.

Definition run (events : list event) (c : component) : component :=
  foldl step c events.

(** ** Redraw *)

Definition CHANNEL_COLORS : list string :=
  ["#2196f3"; "#4caf50"; "#f44336"; "#9c27b0"]%string.

Definition VOLTAGE_TICKS : list number :=
  [-1.5; -0.75; 0; 0.75; 1.5]%float.

Definition yScale (value : number) : number :=
  let min := (-1.5)%float in
  let max := 1.5%float in
  (GRAPH_HEIGHT - ((value - min) / (max - min) * GRAPH_HEIGHT))%float.

(** The x coordinate [draw] gives a sample. *)
Definition xScale (now : number) (sample : Sample) : number :=
  (GRAPH_WIDTH - ((now - timestamp sample) * GRAPH_WIDTH / WINDOW_DURATION))%float.

(** [s.timestamp >= startTime && s.timestamp <= now] *)
Definition in_window (startTime now : number) (s : Sample) : bool :=
  (startTime <=? timestamp s)%float && (timestamp s <=? now)%float.

(** [.filter(s => ...)] over what [getArray] returned: reading [s.timestamp]
    on [undefined] is a TypeError. *)
Fixpoint filter_window (startTime now : number) (a : list (option Sample))
  : completion (list Sample) :=
  match a with
  | [] => Normal []
  | None :: _ => Throw TypeError
  | Some s :: a' =>
      match filter_window startTime now a' with
      | Normal rest => Normal (if in_window startTime now s then s :: rest else rest)
      | Throw e => Throw e
      end
  end.

(** [(a, b) => a.timestamp - b.timestamp] *)
Definition by_timestamp (a b : Sample) : number :=
  (timestamp a - timestamp b)%float.

(** [Array.prototype.sort(comparefn)].  The sort is stable, and [a] goes after
    [b] when [comparefn(a, b) > 0] (a NaN result counts as 0).  The language
    leaves the algorithm open; with a consistent comparator, as
    [by_timestamp] is on filtered samples, every stable sort returns the list
    this insertion sort returns. *)
Section Sort.
Context {A : Type}.
Variable comparefn : A -> A -> number.

Fixpoint insert_sorted (x : A) (l : list A) : list A :=
  match l with
  | [] => [x]
  | y :: l' =>
      if (0 <? comparefn x y)%float then y :: insert_sorted x l' else x :: l
  end.

Definition sort (l : list A) : list A := foldr insert_sorted [] l.
End Sort.

(** [const samples = buffer.getArray().filter(...).sort(...)] *)
Definition select_samples (now : number) (buffer : RingBuffer)
  : completion (list Sample) :=
  let startTime := (now - WINDOW_DURATION)%float in
  match filter_window startTime now (getArray buffer) with
  | Normal l => Normal (sort by_timestamp l)
  | Throw e => Throw e
  end.

(** Calls on a channel's 2d context. *)
Inductive command : Set :=
  | drawImage_background
  | beginPath
  | set_strokeStyle (color : option string)
  | set_lineWidth (width : number)
  | moveTo (x y : number)
  | lineTo (x y : number)
  | stroke.

(** [samples.forEach((sample, i) => ...)]: one vertex per sample. *)
Definition plot (now : number) (samples : list Sample) : list command :=
  imap (fun i sample =>
          let x := xScale now sample in
          let y := yScale (value sample) in
          match i with 0 => moveTo x y | _ => lineTo x y end)
       samples.

(** The body of [draw]'s loop for a channel whose canvas has a context. *)
Definition draw_channel (now : number) (buffer : RingBuffer) (channelIndex : nat)
  : completion (list command) :=
  match select_samples now buffer with
  | Normal samples =>
      Normal
        (drawImage_background ::
         if decide (2 <= length samples) then
           [beginPath; set_strokeStyle (CHANNEL_COLORS !! channelIndex);
            set_lineWidth 2%float] ++ plot now samples ++ [stroke]
         else [])
  | Throw e => Throw e
  end.

(** [dataRef.current.forEach(...)] in [draw]: the calls made on each channel's
    context, none where [canvasRefs.current[channelIndex]] has no context
    (the callback returns early).  [requestAnimationFrame(draw)] then books
    the next redraw, unless a callback threw. *)
Fixpoint draw_from (now : number) (has_ctx : nat -> bool) (channelIndex : nat)
  (buffers : list RingBuffer) : completion (list (list command)) :=
  match buffers with
  | [] => Normal []
  | buffer :: rest =>
      let here :=
        if has_ctx channelIndex then draw_channel now buffer channelIndex
        else Normal [] in
      match here with
      | Normal cmds =>
          match draw_from now has_ctx (S channelIndex) rest with
          | Normal l => Normal (cmds :: l)
          | Throw e => Throw e
          end
      | Throw e => Throw e
      end
  end.

Definition draw (now : number) (has_ctx : nat -> bool) (st : state)
  : completion (list (list command)) :=
  draw_from now has_ctx 0 (dataRef st).

(** The vertices among a context's calls. *)
Definition vertex_of (c : command) : option (number * number) :=
  match c with
  | moveTo x y | lineTo x y => Some (x, y)
  | _ => None
  end.

Definition vertices (cmds : list command) : list (number * number) :=
  omap vertex_of cmds.

(** The vertex [draw] plots for a sample. *)
Definition vertex (now : number) (sample : Sample) : number * number :=
  (xScale now sample, yScale (value sample)).

(** Nondecreasing timestamps. *)
Definition timestamp_le (a b : Sample) : Prop :=
  (timestamp a <=? timestamp b)%float = true.

(** A ring buffer without holes whose pointer is no further than the end of
    the array: what the constructor establishes and [push] keeps, at any
    capacity. *)
Definition dense (rb : RingBuffer) : Prop :=
  Forall is_Some (buffer rb) /\
  match pointer rb with
  | At p => p <= length (buffer rb)
  | NotANumber => True
  end.

(** ** The vertical scale in exact arithmetic

    The formula of [yScale] read over the rationals, to set against the
    double-precision function. *)
Definition yScale_exact (value : Q) : Q :=
  let min := (- (3 # 2))%Q in
  let max := (3 # 2)%Q in
  (100 - ((value - min) / (max - min) * 100))%Q.

(** ** Sample data for the examples *)

Definition sample1 : Sample := mkSample 4%float 0.5%float.
Definition sample2 : Sample := mkSample 8%float 0.25%float.
Definition sample3 : Sample := mkSample 12%float (-0.5)%float.

Definition batch_example : EegBatchData :=
  {| channels := [[0.5; 0.25]; [1; -1]]%float; batch_timestamp := 1000%float |}.



(** A batch with a fifth channel array. *)
Definition five_channels : EegBatchData :=
  {| channels := [[1]; [1]; [1]; [1]; [7]]%float; batch_timestamp := 1000%float |}.

(** Whether a slot holds a sample of value [v]. *)
Definition has_value (v : number) (slot : option Sample) : bool :=
  match slot with
  | Some s => (value s =? v)%float
  | None => false
  end.

(** ** Definitions for the further properties

    Predicates and small functions that the last part of the file uses. *)

(** Whether a batch holds a reading that has no ring buffer to go to: a
    channel array that is not empty at index [n] or beyond, [n] being the
    number of buffers. *)
Definition unbuffered_readings (n : nat) (data : EegBatchData) : bool :=
  existsb (fun channel => negb (length channel =? 0)) (drop n (channels data)).

(** The clock reading of a callback. *)
Definition event_time (e : event) : Z :=
  match e with Message time _ | TimerFired time => time end.

(** What the throttle keeps between callbacks: while a call is held back
    [timerId] is set, and the timeout it names is pending. *)
Definition throttle_inv {A} (th : Throttle.t A) : Prop :=
  (Throttle.lastArgs th <> None -> Throttle.timerId th <> None) /\
  (forall due, Throttle.timerId th = Some due -> due ∈ Throttle.timers th).

(** Refs whose four buffers are fresh buffers of [WINDOW_SIZE] slots that
    were pushed to. *)
Definition pushed_buffers (st : state) : Prop :=
  length (dataRef st) = CHANNEL_COUNT /\
  Forall (fun rb => exists ps, rb = pushes ps (RingBuffer_new WINDOW_SIZE))
    (dataRef st).

(** The calls [draw] makes to join the selected [samples] with one line: a
    single [moveTo], at the first of them, then a [lineTo] for each of the
    others. *)
Definition polyline (now : number) (samples : list Sample) : list command :=
  match samples with
  | [] => []
  | s :: rest =>
      moveTo (xScale now s) (yScale (value s)) ::
      ((fun s' => lineTo (xScale now s') (yScale (value s'))) <$> rest)
  end.

(** A number that is neither NaN nor infinite. *)
Definition is_finite_SF (f : spec_float) : bool :=
  match f with
  | S754_zero _ | S754_finite _ _ _ => true
  | _ => false
  end.

(** The module's array [TIME_TICKS], as declared. *)
Definition TIME_TICKS : list number := [0; 0.5; 1; 1.5; 2]%float.

(** [TIME_TICKS.reverse().map(time => <div key={time}>{time}s</div>)] in the
    component's JSX.  [reverse] reverses the array in place and returns it, so
    a render leaves the module's array reversed; the labels, left to right,
    are its entries then.  Returns the labels and the array after the
    render. *)
Definition render_time_labels (ticks : list number)
  : list number * list number :=
  let reversed := reverse ticks in
  (reversed, reversed).

(** The labels of render number [n] (from 1) and the array after it, the
    array being [ticks] before the first render. *)
Fixpoint nth_render (n : nat) (ticks : list number)
  : list number * list number :=
  match n with
  | 0 => ([], ticks)
  | 1 => render_time_labels ticks
  | S n' => nth_render n' (snd (render_time_labels ticks))
  end.

(** Where the background effect draws the grid line of a tick:
    [GRAPH_WIDTH - (time * GRAPH_WIDTH / (WINDOW_DURATION / 1000))]. *)
Definition tick_x (time : number) : number :=
  (GRAPH_WIDTH - (time * GRAPH_WIDTH / (WINDOW_DURATION / 1000)))%float.

(** The message a callback hands to [handleMessage], if it hands one. *)
Definition handed (c : component) (e : event) : option MessageEvent :=
  match e with
  | Message time ev =>
      snd (Throttle.debounced THROTTLE_WAIT (throttled c) time ev)
  | TimerFired time =>
      match Throttle.earliest (Throttle.timers (throttled c)) with
      | Some due =>
          if (due <=? time)%Z
          then snd (Throttle.timerExpired THROTTLE_WAIT
                      (Throttle.fired due (throttled c)) time)
          else None
      | None => None
      end
  end.

(** The calls of [handleMessage] that a run of callbacks makes, in order,
    each with the clock reading of its callback. *)
Fixpoint handled (events : list event) (c : component)
  : list (Z * MessageEvent) :=
  match events with
  | [] => []
  | e :: rest =>
      match handed c e with
      | Some ev => (event_time e, ev) :: handled rest (step c e)
      | None => handled rest (step c e)
      end
  end.

(** The messages among the callbacks, in arrival order. *)
Definition received (events : list event) : list MessageEvent :=
  omap (fun e => match e with Message _ ev => Some ev | TimerFired _ => None end)
    events.

(** [handleMessage] run on each of [calls] in turn. *)
Definition handle_all (calls : list (Z * MessageEvent)) (st : state) : state :=
  foldl (fun st call => snd (handleMessage (number_of_Z call.1) call.2 st))
    st calls.

(** ** Double-precision values

    To compare rounded results, doubles are measured in units of the smallest
    subnormal, 2^-1074: on that scale every finite double is an integer. *)

Module Rounding.

Local Open Scope Z_scope.

(** The record of a right shift: the quotient [N / D] with a round bit and a
    sticky bit that place the remainder against [D / 2]. *)
Definition frac_record (N D : Z) : shr_record :=
  {| shr_m := N / D;
     shr_r := D <=? 2 * (N mod D);
     shr_s := negb (N mod D =? 0) && negb (2 * (N mod D) =? D) |}.

(** Round to nearest even, on a quotient and its two bits. *)
Definition rne (mrs : shr_record) : Z :=
  round_nearest_even (shr_m mrs) (loc_of_shr_record mrs).

(** The position of the remainder: 0 none, 1 below half, 2 half, 3 above. *)
Definition code (mrs : shr_record) : Z :=
  (if shr_r mrs then 2 else 0) + (if shr_s mrs then 1 else 0).

(** An input to rounding is aligned when its exponent is at most the
    exponent of its format. *)
Definition aligned (m e : Z) : Prop := e <= fexp prec emax (Zdigits2 m + e).

(** What rounding returns, from the rounded mantissa at the format's
    exponent. *)
Definition finish (s : bool) (rnd E : Z) : spec_float :=
  if rnd =? 0 then S754_zero s
  else if rnd =? 2 ^ 53 then
    if E + 1 <=? 971 then S754_finite s (Z.to_pos (2 ^ 52)) (E + 1)
    else S754_infinity s
  else if E <=? 971 then S754_finite s (Z.to_pos rnd) E
  else S754_infinity s.

(** Above every finite double, on the scale where the smallest subnormal
    is 1. *)
Definition INF : Z := 2 ^ 2100.

(** The magnitude [finish] returns, on that scale. *)
Definition overflows (rnd E : Z) : bool :=
  negb (rnd =? 0) && (if rnd =? 2 ^ 53 then 971 <? E + 1 else 971 <? E).

Definition mag (rnd E : Z) : Z :=
  if overflows rnd E then INF else rnd * 2 ^ (E + 1074).

(** The value of a number on that scale; none for NaN. *)
Definition ord (f : spec_float) : option Z :=
  match f with
  | S754_nan => None
  | S754_infinity s => Some (if s then - INF else INF)
  | S754_zero _ => Some 0
  | S754_finite s m e =>
      Some ((if s then -1 else 1) * (Zpos m * 2 ^ (e + 1074)))
  end.

(** [N1/D1 * 2^e1 <= N2/D2 * 2^e2], cleared of fractions at any exponent
    [R] above both. *)
Definition val_le (N1 D1 e1 N2 D2 e2 : Z) : Prop :=
  forall R, e1 <= R -> e2 <= R ->
    N1 * D2 * 2 ^ (R - e2) <= N2 * D1 * 2 ^ (R - e1).

(** [x <= y] on values. *)
Definition ord_le (x y : spec_float) : Prop :=
  match ord x, ord y with
  | Some a, Some b => a <= b
  | _, _ => False
  end.

(** The mantissa and exponent [binary_round] hands to [binary_round_aux]. *)
Definition aligned_pair (m : positive) (e : Z) : positive * Z :=
  shl_align m e (fexp prec emax (Zpos (digits2_pos m) + e)).

(** [r] is the integer [v], on the scale of the smallest subnormal, rounded
    to a double. *)
Definition exact_round (v : Z) (r : spec_float) : Prop :=
  exists d e, -1074 <= e /\ d * 2 ^ (e + 1074) = v /\
              r = binary_normalize prec emax d e false.

(** The sign of a number as a factor. *)
Definition sgn (s : bool) : Z := if s then -1 else 1.

(** The value of a finite number. *)
Definition scaled (s : bool) (m : positive) (e : Z) : Z :=
  sgn s * (Zpos m * 2 ^ (e + 1074)).

(** The exponent division works at. *)
Definition quotient_exponent (m : positive) (e : Z) (mc : positive) (ec : Z) : Z :=
  Z.min (fexp prec emax (Zdigits2 (Zpos m) + e - (Zdigits2 (Zpos mc) + ec)))
        (e - ec).

(** The dividend, shifted to that exponent. *)
Definition dividend (m : positive) (e : Z) (mc : positive) (ec : Z) : Z :=
  Zpos m * 2 ^ (e - ec - quotient_exponent m e mc ec).

End Rounding.

(** ** Double-precision arithmetic

    The sign of a difference and the order of rounded results, from the
    bit-level specification of the primitive operations ([SpecFloat],
    [FloatAxioms]). *)

Module Float64.

Local Open Scope Z_scope.

Lemma digits2_pos_bounds p :
  2 ^ (Zpos (digits2_pos p) - 1) <= Zpos p < 2 ^ Zpos (digits2_pos p).
Proof.
  induction p as [p IH|p IH|]; cbn [digits2_pos].
  - rewrite Pos2Z.inj_succ, Z.pow_succ_r by lia.
    replace (Z.succ (Z.pos (digits2_pos p)) - 1) with (Z.succ (Z.pos (digits2_pos p) - 1)) by lia.
    rewrite Z.pow_succ_r by lia. lia.
  - rewrite Pos2Z.inj_succ, Z.pow_succ_r by lia.
    replace (Z.succ (Z.pos (digits2_pos p)) - 1) with (Z.succ (Z.pos (digits2_pos p) - 1)) by lia.
    rewrite Z.pow_succ_r by lia. lia.
  - cbn. lia.
Qed.

Lemma pow2_xI k : 2 ^ Zpos k~1 = 2 * 2 ^ Zpos k * 2 ^ Zpos k.
Proof.
  assert (H : Zpos k~1 = 1 + Zpos k + Zpos k) by lia.
  rewrite H, !Z.pow_add_r by lia. reflexivity.
Qed.

Lemma pow2_xO k : 2 ^ Zpos k~0 = 2 ^ Zpos k * 2 ^ Zpos k.
Proof.
  assert (H : Zpos k~0 = Zpos k + Zpos k) by lia.
  rewrite H, !Z.pow_add_r by lia. reflexivity.
Qed.

Lemma shr_1_m r : 0 <= shr_m r -> shr_m (shr_1 r) = shr_m r / 2.
Proof.
  destruct r as [m b s]; cbn [shr_m]. intros Hm.
  destruct m as [|[p|p|]|p]; cbn [shr_1 shr_m]; try lia.
  - reflexivity.
  - rewrite Pos2Z.inj_xI. apply Z.div_unique with 1; lia.
  - rewrite Pos2Z.inj_xO. apply Z.div_unique with 0; lia.
  - reflexivity.
Qed.

Lemma iter_shr_1_m k : forall r,
  0 <= shr_m r -> shr_m (SpecFloat.iter_pos shr_1 k r) = shr_m r / 2 ^ Zpos k.
Proof.
  induction k as [k IH|k IH|]; intros r Hr; cbn [SpecFloat.iter_pos].
  - assert (H1 : 0 <= shr_m (shr_1 r)) by (rewrite shr_1_m by assumption; apply Z.div_pos; lia).
    assert (H2 : 0 <= shr_m (SpecFloat.iter_pos shr_1 k (shr_1 r)))
      by (rewrite IH by assumption; apply Z.div_pos; lia).
    rewrite IH, IH, shr_1_m by assumption.
    rewrite !Z.div_div by lia. f_equal. rewrite pow2_xI. lia.
  - assert (H2 : 0 <= shr_m (SpecFloat.iter_pos shr_1 k r))
      by (rewrite IH by assumption; apply Z.div_pos; lia).
    rewrite IH, IH by assumption.
    rewrite !Z.div_div by lia. f_equal. rewrite pow2_xO. lia.
  - rewrite shr_1_m by assumption. reflexivity.
Qed.

Lemma Zdigits2_pos p : Zdigits2 (Zpos p) = Zpos (digits2_pos p).
Proof. reflexivity. Qed.

(** Shifting a positive mantissa to its format exponent keeps it positive. *)
Lemma shr_fexp_positive m e l :
  0 < m -> emin <= e ->
  0 < shr_m (fst (shr_fexp prec emax m e l)) /\
  emin <= snd (shr_fexp prec emax m e l).
Proof.
  intros Hm He. destruct m as [|p|p]; try lia.
  unfold shr_fexp. rewrite Zdigits2_pos.
  pose proof (digits2_pos_bounds p) as Hd.
  set (d := Zpos (digits2_pos p)) in *.
  assert (Hm0 : shr_m (shr_record_of_loc (Zpos p) l) = Zpos p)
    by (destruct l as [|[]]; reflexivity).
  unfold fexp, shr.
  destruct (Z.max (d + e - prec) (SpecFloat.emin prec emax) - e) as [|k|k] eqn:Hn;
    cbn [fst snd]; try (rewrite Hm0; lia).
  rewrite iter_shr_1_m by (rewrite Hm0; lia). rewrite Hm0.
  assert (Hk : Zpos k = d - prec) by (unfold prec in *; lia).
  split; [|lia].
  apply Z.div_str_pos. split; [apply Z.pow_pos_nonneg; lia|].
  transitivity (2 ^ (d - 1)); [|lia].
  apply Z.pow_le_mono_r; unfold prec in *; lia.
Qed.

Lemma round_nearest_even_positive m l : 0 < m -> 0 < round_nearest_even m l.
Proof.
  intros Hm. destruct l as [|[]]; cbn; try lia.
  destruct (Z.even m); lia.
Qed.

Lemma binary_round_aux_sign s m e l :
  0 < m -> emin <= e ->
  signed_nonzero s (binary_round_aux prec emax s m e l).
Proof.
  intros Hm He. unfold binary_round_aux.
  destruct (shr_fexp_positive m e l Hm He) as [H1 H1e].
  destruct (shr_fexp prec emax m e l) as [mrs' e']. cbn [fst snd] in *.
  pose proof (round_nearest_even_positive _ (loc_of_shr_record mrs') H1) as H2.
  destruct (shr_fexp_positive _ e' loc_Exact H2 H1e) as [H3 _].
  destruct (shr_fexp prec emax _ e' loc_Exact) as [mrs'' e'']. cbn [fst snd] in *.
  destruct (shr_m mrs'') as [|q|q]; try lia.
  destruct (e'' <=? emax - prec); reflexivity.
Qed.

Lemma iter_xO_value p d : Zpos (Pos.iter xO p d) = Zpos p * 2 ^ Zpos d.
Proof.
  induction d as [|d IH] using Pos.peano_ind.
  - cbn. lia.
  - rewrite Pos.iter_succ, Pos2Z.inj_xO, IH, Pos2Z.inj_succ, Z.pow_succ_r by lia.
    lia.
Qed.

Lemma shl_align_value mx ex ex' :
  Zpos (fst (shl_align mx ex ex')) = Zpos mx * 2 ^ (ex - snd (shl_align mx ex ex')) /\
  (snd (shl_align mx ex ex') = ex \/ snd (shl_align mx ex ex') = ex').
Proof.
  unfold shl_align. destruct (ex' - ex) as [|d|d] eqn:Hd; cbn [fst snd].
  - rewrite Z.sub_diag. cbn. lia.
  - rewrite Z.sub_diag. cbn. lia.
  - split; [|auto]. replace (ex - ex') with (Zpos d) by lia.
    apply iter_xO_value.
Qed.

Lemma binary_round_sign s m e :
  emin <= e -> signed_nonzero s (binary_round prec emax s m e).
Proof.
  intros He. unfold binary_round.
  pose proof (shl_align_value m e (fexp prec emax (Zpos (digits2_pos m) + e))) as [_ Hs].
  destruct (shl_align m e _) as [mz ez]. cbn [snd] in Hs.
  apply binary_round_aux_sign; [lia|].
  destruct Hs as [-> | ->]; [assumption|]. unfold fexp. lia.
Qed.

Lemma SFltb_zero_signed s f :
  signed_nonzero s f -> SFltb SFzero f = negb s.
Proof. destruct f as [| |  |s' m e]; cbn; try tauto; intros ->; by destruct s. Qed.

Lemma binary_normalize_sign m e :
  emin <= e -> SFltb SFzero (binary_normalize prec emax m e false) = (0 <? m).
Proof.
  intros He. destruct m as [|p|p]; cbn [binary_normalize].
  - reflexivity.
  - rewrite (SFltb_zero_signed false) by (by apply binary_round_sign). reflexivity.
  - rewrite (SFltb_zero_signed true) by (by apply binary_round_sign). reflexivity.
Qed.

Lemma shl_align_le mx ex ex' :
  ex' <= ex -> Zpos (fst (shl_align mx ex ex')) = Zpos mx * 2 ^ (ex - ex').
Proof.
  intros Hle. unfold shl_align.
  destruct (ex' - ex) as [|d|d] eqn:Hd; cbn [fst]; try lia.
  - replace (ex - ex') with 0 by lia. cbn. lia.
  - replace (ex - ex') with (Zpos d) by lia. apply iter_xO_value.
Qed.

(** What validity says of a finite number's mantissa and exponent. *)
Lemma bounded_facts m e :
  bounded prec emax m e = true ->
  emin <= e /\ Zpos m < 2 ^ 53 /\ (emin < e -> 2 ^ 52 <= Zpos m).
Proof.
  unfold bounded, canonical_mantissa, fexp. intros H.
  apply andb_prop in H as [H _]. apply Z.eqb_eq in H.
  pose proof (digits2_pos_bounds m) as Hd.
  set (d := Zpos (digits2_pos m)) in *. unfold prec in *.
  split; [lia|]. split.
  - assert (d <= 53) by lia.
    apply Z.lt_le_trans with (2 ^ d); [lia|].
    apply Z.pow_le_mono_r; lia.
  - intros He. assert (d = 53) as Hd53 by lia. rewrite Hd53 in Hd.
    change (53 - 1) with 52 in Hd. lia.
Qed.

(** Aligned mantissas of valid numbers compare as exponents, then
    mantissas. *)
Lemma aligned_compare mx ex my ey :
  bounded prec emax mx ex = true -> bounded prec emax my ey = true ->
  let ez := Z.min ex ey in
  let X := Zpos (fst (shl_align mx ex ez)) in
  let Y := Zpos (fst (shl_align my ey ez)) in
  emin <= ez /\
  (ex < ey -> X < Y) /\ (ey < ex -> Y < X) /\
  (ex = ey -> X = Zpos mx /\ Y = Zpos my).
Proof.
  intros Hx Hy ez X Y.
  destruct (bounded_facts mx ex Hx) as (Hex & Hmx & Hnx).
  destruct (bounded_facts my ey Hy) as (Hey & Hmy & Hny).
  assert (HX : X = Zpos mx * 2 ^ (ex - ez)) by (apply shl_align_le; lia).
  assert (HY : Y = Zpos my * 2 ^ (ey - ez)) by (apply shl_align_le; lia).
  clearbody X Y.
  assert (Hpow : forall k, 0 < k -> 2 <= 2 ^ k).
  { intros k Hk. change 2 with (2 ^ 1) at 1. apply Z.pow_le_mono_r; lia. }
  split; [lia|]. split; [|split].
  - intros Hlt. assert (ez = ex) as Hz by lia. rewrite Hz in *.
    rewrite Z.sub_diag in HX. cbn in HX.
    specialize (Hny ltac:(lia)). specialize (Hpow (ey - ex) ltac:(lia)). nia.
  - intros Hlt. assert (ez = ey) as Hz by lia. rewrite Hz in *.
    rewrite Z.sub_diag in HY. cbn in HY.
    specialize (Hnx ltac:(lia)). specialize (Hpow (ex - ey) ltac:(lia)). nia.
  - intros Heq. assert (ez = ex) as Hz by lia. rewrite Hz, <- ?Heq in *.
    rewrite Z.sub_diag in HX, HY. cbn in HX, HY. lia.
Qed.

Lemma SFsub_positive x y :
  valid_binary x = true -> valid_binary y = true ->
  SFltb SFzero (SF64sub x y) = SFltb y x.
Proof.
  intros Hx Hy.
  destruct x as [sx|sx| |sx mx ex], y as [sy|sy| |sy my ey];
    try reflexivity; try (by destruct sx); try (by destruct sy);
    try (by destruct sx, sy).
  cbn [valid_binary] in Hx, Hy.
  destruct (aligned_compare mx ex my ey Hx Hy) as (Hez & Hlt & Hgt & Heq).
  cbn zeta in *. unfold SF64sub, SFsub.
  rewrite binary_normalize_sign by exact Hez.
  set (X := Zpos (fst (shl_align mx ex (Z.min ex ey)))) in *.
  set (Y := Zpos (fst (shl_align my ey (Z.min ex ey)))) in *.
  assert (HX : 0 < X) by (unfold X; lia).
  assert (HY : 0 < Y) by (unfold Y; lia).
  clearbody X Y.
  unfold SFltb, SFcompare.
  change (Pos.compare_cont Eq my mx) with (my ?= mx)%positive.
  destruct sx, sy; cbn [cond_Zopp];
    destruct (Z.compare_spec ey ex) as [E|E|E];
    try destruct (Pos.compare_spec my mx) as [F|F|F];
    cbn [CompOpp];
    first [ apply Z.ltb_lt | apply Z.ltb_ge ];
    try specialize (Hlt ltac:(lia)); try specialize (Hgt ltac:(lia));
    try (destruct (Heq ltac:(lia)) as [-> ->]); lia.
Qed.

(** The sign of a difference tells the order: in double arithmetic
    [x - y > 0] exactly when [y < x] (both fail when either is NaN). *)
Lemma sub_positive (x y : float) : (0 <? x - y)%float = (y <? x)%float.
Proof.
  rewrite !FloatAxioms.ltb_spec, FloatAxioms.sub_spec.
  change (Prim2SF 0) with SFzero.
  apply SFsub_positive; apply Prim2SF_valid.
Qed.
(** *** The order on doubles *)

Ltac compare_cases :=
  repeat match goal with
  | H : context [Pos.compare_cont Eq ?a ?b] |- _ =>
      change (Pos.compare_cont Eq a b) with (a ?= b)%positive in H
  | |- context [Pos.compare_cont Eq ?a ?b] =>
      change (Pos.compare_cont Eq a b) with (a ?= b)%positive
  end;
  repeat match goal with
  | H : context [(?a ?= ?b)%Z] |- _ =>
      destruct (Z.compare_spec a b); try lia
  | |- context [(?a ?= ?b)%Z] =>
      destruct (Z.compare_spec a b); try lia
  end;
  repeat match goal with
  | H : context [(?a ?= ?b)%positive] |- _ =>
      destruct (Pos.compare_spec a b); try lia
  | |- context [(?a ?= ?b)%positive] =>
      destruct (Pos.compare_spec a b); try lia
  end;
  cbn in *; try discriminate; try reflexivity; try lia.

Lemma SFleb_trans x y z :
  SFleb x y = true -> SFleb y z = true -> SFleb x z = true.
Proof.
  unfold SFleb, SFcompare.
  destruct x as [sx|sx| |sx mx ex], y as [sy|sy| |sy my ey],
    z as [sz|sz| |sz mz ez];
    try discriminate; try reflexivity;
    repeat match goal with s : bool |- _ => destruct s end;
    try discriminate; try reflexivity;
    intros H1 H2; compare_cases.
Qed.

Lemma SFltb_SFleb x y : SFltb x y = true -> SFleb x y = true.
Proof. unfold SFltb, SFleb. by destruct (SFcompare x y) as [[]|]. Qed.

(** Of two numbers that are not NaN, one is at most the other. *)
Lemma SFleb_total x y :
  SFcompare x x <> None -> SFcompare y y <> None ->
  SFltb y x = false -> SFleb x y = true.
Proof.
  unfold SFleb, SFltb, SFcompare.
  destruct x as [sx|sx| |sx mx ex], y as [sy|sy| |sy my ey];
    try done;
    repeat match goal with s : bool |- _ => destruct s end;
    try done; intros _ _ H; compare_cases.
Qed.

Lemma SFleb_not_nan x y : SFleb x y = true -> SFcompare y y <> None.
Proof.
  unfold SFleb, SFcompare.
  destruct x as [sx|sx| |sx mx ex], y as [sy|sy| |sy my ey]; try done;
   repeat match goal with s : bool |- _ => destruct s end; done.
Qed.

Lemma leb_trans (x y z : float) :
  (x <=? y)%float = true -> (y <=? z)%float = true -> (x <=? z)%float = true.
Proof. rewrite !FloatAxioms.leb_spec. apply SFleb_trans. Qed.

Lemma leb_of_ltb (x y : float) :
  (x <? y)%float = true -> (x <=? y)%float = true.
Proof. rewrite FloatAxioms.ltb_spec, FloatAxioms.leb_spec. apply SFltb_SFleb. Qed.

(** [lo <= x] and [lo' <= y] only say that [x] and [y] are not NaN. *)
Lemma leb_of_not_ltb (lo lo' x y : float) :
  (lo <=? x)%float = true -> (lo' <=? y)%float = true ->
  (y <? x)%float = false -> (x <=? y)%float = true.
Proof.
  rewrite !FloatAxioms.leb_spec, FloatAxioms.ltb_spec. intros Hx Hy.
  apply SFleb_total; eapply SFleb_not_nan; eassumption.
Qed.

(** ** Rounding keeps the order of values

    Every operation rounds an exact quotient [N / D * 2^e] to the nearest
    double, ties to even.  The lemmas below follow that rounding through
    [shr_fexp] and [binary_round_aux] and show that it keeps the order of the
    exact values; subtraction, multiplication and division by a constant
    inherit it. *)

Import Rounding.

Lemma shr_1_spec m r s :
  0 <= m ->
  shr_1 (Build_shr_record m r s) = Build_shr_record (m / 2) (Z.odd m) (r || s).
Proof.
  intros Hm. rewrite <- Z.div2_div.
  destruct m as [|[p|p|]|p]; try lia; reflexivity.
Qed.

Lemma shr_1_frac N D :
  0 <= N -> 0 < D -> shr_1 (frac_record N D) = frac_record N (2 * D).
Proof.
  intros HN HD. unfold frac_record.
  pose proof (Z.div_mod N D ltac:(lia)) as Hdm.
  pose proof (Z.mod_pos_bound N D HD) as Hr.
  set (q := N / D) in *. set (r := N mod D) in *.
  assert (Hq : 0 <= q) by (apply Z.div_pos; lia).
  rewrite shr_1_spec by exact Hq.
  pose proof (Z.div_mod q 2 ltac:(lia)) as Hq2.
  pose proof (Z.mod_pos_bound q 2 ltac:(lia)) as Hb.
  assert (Hdiv : N / (2 * D) = q / 2).
  { symmetry. apply Z.div_unique with (q mod 2 * D + r); nia. }
  assert (Hmod : N mod (2 * D) = q mod 2 * D + r).
  { symmetry. apply Z.mod_unique with (q / 2); nia. }
  rewrite Hdiv, Hmod, Zodd_mod.
  assert (Hcase : q mod 2 = 0 \/ q mod 2 = 1) by lia.
  f_equal.
  - destruct Hcase as [-> | ->]; cbn [Z.eqb Z.mul];
      destruct (2 * D <=? _) eqn:E; try reflexivity; lia.
  - destruct Hcase as [-> | ->]; rewrite ?Z.mul_1_l; cbn [Z.mul Z.add];
      destruct (D <=? 2 * r) eqn:E1, (r =? 0) eqn:E2, (2 * r =? D) eqn:E3;
      cbn [orb andb negb];
      repeat match goal with
      | |- context [?a =? ?b] => destruct (Z.eqb_spec a b)
      end; cbn [orb andb negb]; try reflexivity; lia.
Qed.

Lemma iter_shr_frac k : forall N D,
  0 <= N -> 0 < D ->
  SpecFloat.iter_pos shr_1 k (frac_record N D) = frac_record N (D * 2 ^ Zpos k).
Proof.
  induction k as [k IH|k IH|]; intros N D HN HD; cbn [SpecFloat.iter_pos].
  - assert (H2 : 0 < 2 ^ Zpos k) by (apply Z.pow_pos_nonneg; lia).
    rewrite shr_1_frac, IH, IH by nia. f_equal. rewrite pow2_xI. lia.
  - assert (H2 : 0 < 2 ^ Zpos k) by (apply Z.pow_pos_nonneg; lia).
    rewrite IH, IH by nia. f_equal. rewrite pow2_xO. lia.
  - rewrite shr_1_frac by lia. f_equal. lia.
Qed.

Lemma rne_mono a b :
  shr_m a < shr_m b \/ (shr_m a = shr_m b /\ code a <= code b) ->
  rne a <= rne b.
Proof.
  unfold rne, code. destruct a as [ma [] []], b as [mb [] []]; cbn;
    intros [H|[H1 H2]]; subst; try lia;
    repeat match goal with |- context [Z.even ?x] => destruct (Z.even x) end;
    lia.
Qed.

(** Fractions in order have their quotients and remainder positions in
    order. *)
Lemma frac_record_mono a1 b1 a2 b2 :
  0 <= a1 -> 0 < b1 -> 0 <= a2 -> 0 < b2 ->
  a1 * b2 <= a2 * b1 ->
  shr_m (frac_record a1 b1) < shr_m (frac_record a2 b2) \/
  (shr_m (frac_record a1 b1) = shr_m (frac_record a2 b2) /\
   code (frac_record a1 b1) <= code (frac_record a2 b2)).
Proof.
  intros Ha1 Hb1 Ha2 Hb2 Hle. unfold frac_record, code; cbn [shr_m shr_r shr_s].
  pose proof (Z.div_mod a1 b1 ltac:(lia)) as H1.
  pose proof (Z.mod_pos_bound a1 b1 Hb1) as R1.
  pose proof (Z.div_mod a2 b2 ltac:(lia)) as H2.
  pose proof (Z.mod_pos_bound a2 b2 Hb2) as R2.
  set (q1 := a1 / b1) in *. set (r1 := a1 mod b1) in *.
  set (q2 := a2 / b2) in *. set (r2 := a2 mod b2) in *.
  assert (Hq1 : 0 <= q1) by (apply Z.div_pos; lia).
  assert (Hq2 : 0 <= q2) by (apply Z.div_pos; lia).
  destruct (Z.lt_trichotomy q1 q2) as [Hlt|[Heq|Hgt]]; [by left| |].
  - right. split; [done|].
    assert (Hr : r1 * b2 <= r2 * b1) by nia.
    repeat match goal with
    | |- context [?a <=? ?b] => destruct (Z.leb_spec a b)
    | |- context [?a =? ?b] => destruct (Z.eqb_spec a b)
    end; cbn [negb andb]; try lia; nia.
  - exfalso. nia.
Qed.

Lemma frac_record_exact m : frac_record m 1 = shr_record_of_loc m loc_Exact.
Proof.
  unfold frac_record. rewrite Z.mod_1_r, Z.div_1_r. reflexivity.
Qed.

Lemma Zdigits2_bounds m :
  0 <= m -> (m = 0 /\ Zdigits2 m = 0) \/
            (0 < m /\ 2 ^ (Zdigits2 m - 1) <= m < 2 ^ Zdigits2 m /\ 0 < Zdigits2 m).
Proof.
  intros Hm. destruct m as [|p|p]; try lia; [by left|right].
  split; [lia|]. cbn [Zdigits2]. pose proof (digits2_pos_bounds p). lia.
Qed.

Lemma Zdigits2_le m k : 0 <= m -> 0 <= k -> m < 2 ^ k -> Zdigits2 m <= k.
Proof.
  intros Hm Hk Hlt. destruct (Zdigits2_bounds m Hm) as [[_ ->]|(Hp & [Hlo _] & Hd)]; [lia|].
  destruct (Z.le_gt_cases (Zdigits2 m) k) as [|Hgt]; [done|].
  assert (2 ^ k <= 2 ^ (Zdigits2 m - 1)) by (apply Z.pow_le_mono_r; lia). lia.
Qed.

Lemma Zdigits2_ge m k : 0 <= k -> 2 ^ k <= m -> k + 1 <= Zdigits2 m.
Proof.
  intros Hk Hle.
  assert (Hm : 0 < m) by (pose proof (Z.pow_pos_nonneg 2 k); lia).
  destruct (Zdigits2_bounds m ltac:(lia)) as [[? _]|(_ & [_ Hhi] & Hd)]; [lia|].
  destruct (Z.le_gt_cases (k + 1) (Zdigits2 m)) as [|Hgt]; [done|].
  assert (2 ^ Zdigits2 m <= 2 ^ k) by (apply Z.pow_le_mono_r; lia). lia.
Qed.

Lemma fexp_spec x : fexp prec emax x = Z.max (x - 53) (-1074).
Proof. reflexivity. Qed.

Lemma shr_fexp_frac N D m e l :
  0 <= N -> 0 < D -> shr_record_of_loc m l = frac_record N D -> aligned m e ->
  let E := fexp prec emax (Zdigits2 m + e) in
  shr_fexp prec emax m e l = (frac_record N (D * 2 ^ (E - e)), E).
Proof.
  intros HN HD Hrec Hal E. unfold shr_fexp. fold E. rewrite Hrec.
  unfold aligned in Hal. fold E in Hal. unfold shr.
  destruct (E - e) as [|p|p] eqn:Hn; try lia.
  - rewrite Z.pow_0_r, Z.mul_1_r. f_equal. lia.
  - rewrite iter_shr_frac by lia. f_equal. lia.
Qed.

Lemma frac_record_m N D : shr_m (frac_record N D) = N / D.
Proof. reflexivity. Qed.

Lemma rne_bounds mrs : shr_m mrs <= rne mrs <= shr_m mrs + 1.
Proof.
  unfold rne. destruct mrs as [m [] []]; cbn; try lia.
  destruct (Z.even m); lia.
Qed.

Lemma binary_round_aux_frac s N D m e l :
  0 <= N -> 0 < D -> shr_record_of_loc m l = frac_record N D -> aligned m e ->
  let E := fexp prec emax (Zdigits2 m + e) in
  let rnd := rne (frac_record N (D * 2 ^ (E - e))) in
  0 <= rnd <= 2 ^ 53 /\
  binary_round_aux prec emax s m e l = finish s rnd E.
Proof.
  intros HN HD Hrec Hal E rnd.
  assert (Hm : m = N / D).
  { apply (f_equal shr_m) in Hrec. rewrite frac_record_m in Hrec.
    destruct l as [|[]]; exact Hrec. }
  assert (Hm0 : 0 <= m) by (subst m; apply Z.div_pos; lia).
  assert (HEeq : E = Z.max (Zdigits2 m + e - 53) (-1074)) by apply fexp_spec.
  assert (Hn : 0 <= E - e) by (unfold aligned in Hal; fold E in Hal; lia).
  assert (Hp2 : 0 < 2 ^ (E - e)) by (apply Z.pow_pos_nonneg; lia).
  (* the shifted mantissa is below 2^53 *)
  assert (HM : 0 <= N / (D * 2 ^ (E - e)) < 2 ^ 53).
  { rewrite <- Z.div_div by lia. rewrite <- Hm. split; [apply Z.div_pos; lia|].
    apply Z.div_lt_upper_bound; [lia|].
    destruct (Zdigits2_bounds m Hm0) as [[-> _]|(Hp & [_ Hhi] & Hd)]; [lia|].
    apply Z.lt_le_trans with (2 ^ Zdigits2 m); [done|].
    rewrite <- Z.pow_add_r by lia. apply Z.pow_le_mono_r; lia. }
  pose proof (rne_bounds (frac_record N (D * 2 ^ (E - e)))) as Hrb.
  rewrite frac_record_m in Hrb. fold rnd in Hrb.
  split; [lia|].
  unfold binary_round_aux.
  rewrite (shr_fexp_frac N D m e l HN HD Hrec Hal). fold E.
  change (round_nearest_even (shr_m ?r) (loc_of_shr_record ?r)) with (rne r).
  fold rnd. unfold finish.
  destruct (Z.eqb_spec rnd 0) as [H0|H0].
  - rewrite H0. unfold shr_fexp.
    change (fexp prec emax (Zdigits2 0 + E)) with (fexp prec emax E).
    pose proof (fexp_spec E) as HfE. unfold shr.
    destruct (fexp prec emax E - E) as [|p|p] eqn:Hq; try lia; reflexivity.
  - destruct (Z.eqb_spec rnd (2 ^ 53)) as [H53|H53].
    + rewrite H53. unfold shr_fexp.
      change (Zdigits2 (2 ^ 53)) with 54.
      assert (Hs : fexp prec emax (54 + E) - E = 1) by (rewrite fexp_spec; lia).
      rewrite Hs. reflexivity.
    + assert (Hpos : 0 < rnd < 2 ^ 53) by lia.
      unfold shr_fexp.
      assert (Hd : Zdigits2 rnd <= 53) by (apply Zdigits2_le; lia).
      assert (Hs : fexp prec emax (Zdigits2 rnd + E) - E <= 0)
        by (rewrite fexp_spec; lia).
      unfold shr.
      destruct (fexp prec emax (Zdigits2 rnd + E) - E) as [|p|p]; try lia;
        destruct rnd as [|r|r]; try lia; reflexivity.
Qed.

(** ** Values *)

Lemma pow2_pos k : 0 <= k -> 0 < 2 ^ k.
Proof. intros. apply Z.pow_pos_nonneg; lia. Qed.

Lemma pow2_split a b : 0 <= a -> 0 <= b -> 2 ^ (a + b) = 2 ^ a * 2 ^ b.
Proof. intros. apply Z.pow_add_r; lia. Qed.

Lemma pow2_le a b : 0 <= a <= b -> 2 ^ a <= 2 ^ b.
Proof. intros. apply Z.pow_le_mono_r; lia. Qed.

Lemma pow2_lt_inv a b : 0 <= a -> 0 <= b -> 2 ^ a < 2 ^ b -> a < b.
Proof. intros Ha Hb H. apply (Z.pow_lt_mono_r_iff 2); lia. Qed.

Lemma finish_ord s rnd E :
  0 <= rnd <= 2 ^ 53 -> -1074 <= E ->
  ord (finish s rnd E) = Some ((if s then -1 else 1) * mag rnd E).
Proof.
  intros Hr HE. unfold finish, mag, overflows.
  destruct (Z.eqb_spec rnd 0) as [->|H0]; cbn [negb andb].
  - cbn [ord]. f_equal. destruct s; lia.
  - destruct (Z.eqb_spec rnd (2 ^ 53)) as [->|H53].
    + destruct (Z.leb_spec (E + 1) 971), (Z.ltb_spec 971 (E + 1)); try lia;
        cbn [ord]; [|by destruct s].
      f_equal. f_equal.
      replace (E + 1 + 1074) with (1 + (E + 1074)) by lia.
      rewrite pow2_split by lia.
      change (Z.pos (Z.to_pos (2 ^ 52))) with (2 ^ 52).
      change (2 ^ 53) with (2 ^ 52 * 2 ^ 1). lia.
    + destruct (Z.leb_spec E 971), (Z.ltb_spec 971 E); try lia;
        cbn [ord]; [|by destruct s].
      rewrite Z2Pos.id by lia. reflexivity.
Qed.

Lemma mag_below_INF rnd E :
  0 <= rnd <= 2 ^ 53 -> -1074 <= E -> 0 <= mag rnd E <= INF.
Proof.
  intros Hr HE. unfold mag, overflows, INF.
  assert (HI : 0 < 2 ^ 2100) by (by apply pow2_pos).
  destruct (Z.eqb_spec rnd 0) as [->|H0]; cbn [negb andb]; [lia|].
  assert (Hb : forall E', -1074 <= E' <= 971 ->
                 0 <= rnd * 2 ^ (E' + 1074) <= 2 ^ 2100).
  { intros E' HE'. pose proof (pow2_pos (E' + 1074) ltac:(lia)).
    split; [nia|].
    apply Z.le_trans with (2 ^ 53 * 2 ^ (E' + 1074)); [nia|].
    rewrite <- pow2_split by lia. apply pow2_le. lia. }
  destruct (Z.eqb_spec rnd (2 ^ 53)) as [H53|H53].
  - destruct (Z.ltb_spec 971 (E + 1)); [lia|]. apply Hb. lia.
  - destruct (Z.ltb_spec 971 E); [lia|]. apply Hb. lia.
Qed.

(** The two ways in which rounded results are in order. *)
Lemma mag_mono rnd1 E1 rnd2 E2 :
  0 <= rnd1 <= 2 ^ 53 -> 0 <= rnd2 <= 2 ^ 53 -> -1074 <= E1 ->
  (E1 = E2 /\ rnd1 <= rnd2) \/ (E1 < E2 /\ 2 ^ 52 <= rnd2) ->
  mag rnd1 E1 <= mag rnd2 E2.
Proof.
  intros H1 H2 HE1 Hcase.
  assert (HE2 : -1074 <= E2) by lia.
  pose proof (mag_below_INF rnd1 E1 H1 HE1) as B1.
  pose proof (mag_below_INF rnd2 E2 H2 HE2) as B2.
  unfold mag in *.
  destruct (overflows rnd2 E2) eqn:O2; [by destruct (overflows rnd1 E1); lia|].
  assert (Hval : overflows rnd1 E1 = false /\
                 rnd1 * 2 ^ (E1 + 1074) <= rnd2 * 2 ^ (E2 + 1074)).
  { unfold overflows in *.
    pose proof (pow2_pos (E1 + 1074) ltac:(lia)) as P1.
    assert (H53 : 2 ^ 53 = 2 * 2 ^ 52) by reflexivity.
    assert (H52 : 0 < 2 ^ 52) by reflexivity.
    destruct Hcase as [[<- Hle]|[Hlt Hge]].
    - split; [|nia].
      destruct (Z.eqb_spec rnd1 0), (Z.eqb_spec rnd2 0),
        (Z.eqb_spec rnd1 (2 ^ 53)), (Z.eqb_spec rnd2 (2 ^ 53));
        cbn [negb andb] in *; try lia;
        repeat match goal with
        | H : context [?a <? ?b] |- _ => destruct (Z.ltb_spec a b)
        | |- context [?a <? ?b] => destruct (Z.ltb_spec a b)
        end; try discriminate; try reflexivity; lia.
    - assert (HP : 2 * 2 ^ (E1 + 1074) <= 2 ^ (E2 + 1074)).
      { replace (E2 + 1074) with (1 + (E1 + 1074) + (E2 - E1 - 1)) by lia.
        rewrite (pow2_split (1 + (E1 + 1074)) (E2 - E1 - 1)) by lia.
        rewrite (pow2_split 1 (E1 + 1074)) by lia.
        pose proof (pow2_pos (E2 - E1 - 1) ltac:(lia)).
        change (2 ^ 1) with 2. nia. }
      split; [|nia].
      destruct (Z.eqb_spec rnd1 0), (Z.eqb_spec rnd2 0),
        (Z.eqb_spec rnd1 (2 ^ 53)), (Z.eqb_spec rnd2 (2 ^ 53));
        cbn [negb andb] in *; try lia;
        repeat match goal with
        | H : context [?a <? ?b] |- _ => destruct (Z.ltb_spec a b)
        | |- context [?a <? ?b] => destruct (Z.ltb_spec a b)
        end; try discriminate; try reflexivity; lia. }
  destruct Hval as [-> Hle]. exact Hle.
Qed.

Lemma val_le_intro N1 D1 e1 N2 D2 e2 R0 :
  e1 <= R0 -> e2 <= R0 ->
  N1 * D2 * 2 ^ (R0 - e2) <= N2 * D1 * 2 ^ (R0 - e1) ->
  val_le N1 D1 e1 N2 D2 e2.
Proof.
  intros H1 H2 H R Hr1 Hr2.
  set (K := Z.max e1 e2).
  assert (HK : N1 * D2 * 2 ^ (K - e2) <= N2 * D1 * 2 ^ (K - e1)).
  { replace (R0 - e2) with ((R0 - K) + (K - e2)) in H by lia.
    replace (R0 - e1) with ((R0 - K) + (K - e1)) in H by lia.
    rewrite !pow2_split in H by lia.
    pose proof (pow2_pos (R0 - K) ltac:(lia)). nia. }
  replace (R - e2) with ((R - K) + (K - e2)) by lia.
  replace (R - e1) with ((R - K) + (K - e1)) by lia.
  rewrite !pow2_split by lia.
  pose proof (pow2_pos (R - K) ltac:(lia)). nia.
Qed.

Lemma mantissa_of_record N D m l :
  shr_record_of_loc m l = frac_record N D -> m = N / D.
Proof.
  intros H. apply (f_equal shr_m) in H. rewrite frac_record_m in H.
  destruct l as [|[]]; exact H.
Qed.

(** A positive quotient lies between the powers of two its digits give. *)
Lemma quotient_bounds N D m :
  0 <= N -> 0 < D -> m = N / D ->
  N < D * 2 ^ Zdigits2 m /\ (0 < m -> D * 2 ^ (Zdigits2 m - 1) <= N).
Proof.
  intros HN HD Hm.
  pose proof (Z.div_mod N D ltac:(lia)) as Hdm.
  pose proof (Z.mod_pos_bound N D HD) as Hr. rewrite <- Hm in Hdm.
  assert (Hm0 : 0 <= m) by (subst m; apply Z.div_pos; lia).
  destruct (Zdigits2_bounds m Hm0) as [[-> ->]|(Hp & [Hlo Hhi] & Hd)].
  - cbn. split; [lia|lia].
  - split; [nia|]. intros _. nia.
Qed.

Section RoundMono.
Variables N1 D1 m1 e1 N2 D2 m2 e2 : Z.
Variables l1 l2 : location.
Hypothesis HN1 : 0 <= N1.
Hypothesis HD1 : 0 < D1.
Hypothesis HN2 : 0 <= N2.
Hypothesis HD2 : 0 < D2.
Hypothesis Hrec1 : shr_record_of_loc m1 l1 = frac_record N1 D1.
Hypothesis Hrec2 : shr_record_of_loc m2 l2 = frac_record N2 D2.
Hypothesis Hal1 : aligned m1 e1.
Hypothesis Hal2 : aligned m2 e2.
Hypothesis Hle : val_le N1 D1 e1 N2 D2 e2.

Let E1 := fexp prec emax (Zdigits2 m1 + e1).
Let E2 := fexp prec emax (Zdigits2 m2 + e2).
Let rnd1 := rne (frac_record N1 (D1 * 2 ^ (E1 - e1))).
Let rnd2 := rne (frac_record N2 (D2 * 2 ^ (E2 - e2))).

Lemma exponents_in_order : E1 <= E2.
Proof using All.
  pose proof (mantissa_of_record _ _ _ _ Hrec1) as Hm1.
  pose proof (mantissa_of_record _ _ _ _ Hrec2) as Hm2.
  assert (Hm10 : 0 <= m1) by (subst m1; apply Z.div_pos; lia).
  assert (Hm20 : 0 <= m2) by (subst m2; apply Z.div_pos; lia).
  pose proof (fexp_spec (Zdigits2 m1 + e1)) as F1. fold E1 in F1.
  pose proof (fexp_spec (Zdigits2 m2 + e2)) as F2. fold E2 in F2.
  unfold aligned in Hal1, Hal2. fold E1 in Hal1. fold E2 in Hal2.
  destruct (Z.le_gt_cases E1 E2) as [|Hgt]; [done|exfalso].
  destruct (Zdigits2_bounds m1 Hm10) as [[_ Hd1]|(Hp1 & _ & Hd1)]; [lia|].
  destruct (quotient_bounds N1 D1 m1 HN1 HD1 Hm1) as [_ Hlo1].
  destruct (quotient_bounds N2 D2 m2 HN2 HD2 Hm2) as [Hhi2 _].
  specialize (Hlo1 Hp1).
  assert (Hd2 : 0 <= Zdigits2 m2)
    by (destruct (Zdigits2_bounds m2 Hm20) as [[_ ->]|(_ & _ & ?)]; lia).
  set (R := Z.max e1 e2).
  specialize (Hle R ltac:(lia) ltac:(lia)).
  assert (Hpow : 2 ^ (Zdigits2 m1 - 1 + (R - e2)) < 2 ^ (Zdigits2 m2 + (R - e1))).
  { rewrite !pow2_split by lia.
    pose proof (pow2_pos (R - e2) ltac:(lia)) as PB.
    pose proof (pow2_pos (R - e1) ltac:(lia)) as PD.
    pose proof (pow2_pos (Zdigits2 m1 - 1) ltac:(lia)) as PA.
    pose proof (pow2_pos (Zdigits2 m2) ltac:(lia)) as PC.
    set (A := 2 ^ (Zdigits2 m1 - 1)) in *. set (B := 2 ^ (R - e2)) in *.
    set (C := 2 ^ Zdigits2 m2) in *. set (F := 2 ^ (R - e1)) in *.
    apply Z.mul_lt_mono_pos_l with (D1 * D2); [nia|].
    assert (G1 : D1 * A * (D2 * B) <= N1 * (D2 * B))
      by (apply Z.mul_le_mono_nonneg_r; nia).
    assert (G2 : N2 * (D1 * F) < D2 * C * (D1 * F))
      by (apply Z.mul_lt_mono_pos_r; nia).
    lia. }
  apply pow2_lt_inv in Hpow; lia.
Qed.

Lemma rounded_in_order :
  (E1 = E2 /\ rnd1 <= rnd2) \/ (E1 < E2 /\ 2 ^ 52 <= rnd2).
Proof using All.
  pose proof exponents_in_order as HE.
  pose proof (mantissa_of_record _ _ _ _ Hrec2) as Hm2.
  assert (Hm20 : 0 <= m2) by (subst m2; apply Z.div_pos; lia).
  pose proof (fexp_spec (Zdigits2 m1 + e1)) as F1. fold E1 in F1.
  pose proof (fexp_spec (Zdigits2 m2 + e2)) as F2. fold E2 in F2.
  unfold aligned in Hal1, Hal2. fold E1 in Hal1. fold E2 in Hal2.
  destruct (Z.eq_dec E1 E2) as [Heq|Hne]; [left|right]; (split; [lia|]).
  - unfold rnd1, rnd2. apply rne_mono. rewrite <- Heq.
    apply frac_record_mono; try lia;
      try (apply Z.mul_pos_pos; [lia|apply pow2_pos; lia]).
    specialize (Hle E1 ltac:(lia) ltac:(lia)).
    rewrite !Z.mul_assoc. lia.
  - destruct (Zdigits2_bounds m2 Hm20) as [[_ Hd2]|(Hp2 & [Hlo2 _] & Hd2)]; [lia|].
    pose proof (rne_bounds (frac_record N2 (D2 * 2 ^ (E2 - e2)))) as Hb.
    fold rnd2 in Hb. rewrite frac_record_m in Hb.
    apply Z.le_trans with (N2 / (D2 * 2 ^ (E2 - e2))); [|lia].
    pose proof (pow2_pos (E2 - e2) ltac:(lia)) as Hp.
    rewrite <- Z.div_div by lia. rewrite <- Hm2.
    apply Z.div_le_lower_bound; [lia|].
    apply Z.le_trans with (2 ^ (Zdigits2 m2 - 1)); [|lia].
    rewrite <- pow2_split by lia. apply pow2_le. lia.
Qed.

(** Rounding keeps the order of positive values, whatever the sign they are
    rounded under. *)
Lemma binary_round_aux_mono :
  exists g1 g2,
    0 <= g1 /\ g1 <= g2 /\ g2 <= INF /\
    (forall s, ord (binary_round_aux prec emax s m1 e1 l1) =
               Some ((if s then -1 else 1) * g1)) /\
    (forall s, ord (binary_round_aux prec emax s m2 e2 l2) =
               Some ((if s then -1 else 1) * g2)).
Proof using All.
  pose proof (fexp_spec (Zdigits2 m1 + e1)) as F1. fold E1 in F1.
  pose proof (fexp_spec (Zdigits2 m2 + e2)) as F2. fold E2 in F2.
  destruct (binary_round_aux_frac false N1 D1 m1 e1 l1 HN1 HD1 Hrec1 Hal1)
    as [B1 _].
  destruct (binary_round_aux_frac false N2 D2 m2 e2 l2 HN2 HD2 Hrec2 Hal2)
    as [B2 _].
  cbn zeta in B1, B2. fold E1 rnd1 in B1. fold E2 rnd2 in B2.
  exists (mag rnd1 E1), (mag rnd2 E2).
  pose proof (mag_below_INF rnd1 E1 B1 ltac:(lia)).
  pose proof (mag_below_INF rnd2 E2 B2 ltac:(lia)).
  split; [lia|]. split; [|split; [lia|split]].
  - apply mag_mono; try lia. apply rounded_in_order.
  - intros s.
    destruct (binary_round_aux_frac s N1 D1 m1 e1 l1 HN1 HD1 Hrec1 Hal1)
      as [_ ->]. apply finish_ord; lia.
  - intros s.
    destruct (binary_round_aux_frac s N2 D2 m2 e2 l2 HN2 HD2 Hrec2 Hal2)
      as [_ ->]. apply finish_ord; lia.
Qed.
End RoundMono.

Lemma finite_scaled m e :
  bounded prec emax m e = true ->
  -1074 <= e <= 971 /\
  0 < Zpos m * 2 ^ (e + 1074) < INF /\
  Zpos m < 2 ^ 53 /\
  (-1074 < e -> 2 ^ 52 <= Zpos m).
Proof.
  intros Hb. destruct (bounded_facts m e Hb) as (He & Hm & Hn).
  assert (He' : e <= 971).
  { unfold bounded in Hb. apply andb_prop in Hb as [_ Hb].
    apply Z.leb_le in Hb. exact Hb. }
  change emin with (-1074) in *.
  pose proof (pow2_pos (e + 1074) ltac:(lia)) as Hp.
  repeat split; try lia; try nia.
  unfold INF. apply Z.lt_le_trans with (2 ^ 53 * 2 ^ (e + 1074)); [nia|].
  rewrite <- pow2_split by lia. apply pow2_le. lia.
Qed.

Lemma scaled_lt ma ea mb eb :
  -1074 <= ea < eb -> ma < 2 ^ 53 -> 2 ^ 52 <= mb ->
  ma * 2 ^ (ea + 1074) < mb * 2 ^ (eb + 1074).
Proof.
  intros He Ha Hb.
  replace (eb + 1074) with (1 + (ea + 1074) + (eb - ea - 1)) by lia.
  rewrite (pow2_split (1 + (ea + 1074))), (pow2_split 1) by lia.
  pose proof (pow2_pos (ea + 1074) ltac:(lia)) as HA.
  pose proof (pow2_pos (eb - ea - 1) ltac:(lia)) as HB.
  change (2 ^ 1) with 2. change (2 ^ 53) with (2 * 2 ^ 52) in Ha.
  set (PA := 2 ^ (ea + 1074)) in *. set (PB := 2 ^ (eb - ea - 1)) in *.
  assert (HT : 0 < 2 ^ 52) by reflexivity.
  revert Ha Hb HT. generalize (2 ^ 52). intros T Ha Hb HT.
  apply (Z.lt_le_trans _ (2 * T * PA)); [nia|].
  apply (Z.le_trans _ (2 * mb * PA)); [nia|].
  assert (2 * mb * PA * 1 <= 2 * mb * PA * PB)
    by (apply Z.mul_le_mono_nonneg_l; nia).
  lia.
Qed.

(** Valid finite numbers compare as their values do. *)
Lemma finite_compare m1 e1 m2 e2 :
  bounded prec emax m1 e1 = true -> bounded prec emax m2 e2 = true ->
  match (e1 ?= e2) with
  | Lt => Zpos m1 * 2 ^ (e1 + 1074) < Zpos m2 * 2 ^ (e2 + 1074)
  | Gt => Zpos m2 * 2 ^ (e2 + 1074) < Zpos m1 * 2 ^ (e1 + 1074)
  | Eq => e1 = e2
  end.
Proof.
  intros H1 H2.
  destruct (finite_scaled m1 e1 H1) as (He1 & _ & Hm1 & Hn1).
  destruct (finite_scaled m2 e2 H2) as (He2 & _ & Hm2 & Hn2).
  destruct (Z.compare_spec e1 e2); [done| |]; apply scaled_lt; lia.
Qed.

Lemma SFleb_iff x y :
  valid_binary x = true -> valid_binary y = true ->
  SFleb x y = true <-> ord_le x y.
Proof.
  intros Hx Hy. unfold ord_le.
  assert (HI : 0 < INF) by reflexivity.
  destruct x as [sx|sx| |sx mx ex], y as [sy|sy| |sy my ey];
    cbn [valid_binary] in Hx, Hy; cbn [ord];
    try (destruct (finite_scaled mx ex Hx) as (_ & Bx & _));
    try (destruct (finite_scaled my ey Hy) as (_ & By & _));
    unfold SFleb, SFcompare;
    try (by destruct sx; split; (done || lia));
    try (by destruct sy; split; (done || lia));
    try (by split);
    try (by destruct sx, sy; split; (done || lia)).
  pose proof (finite_compare mx ex my ey Hx Hy) as Hc.
  change (PosDef.Pos.compare_cont Eq mx my) with (mx ?= my)%positive.
  destruct sx, sy; destruct (ex ?= ey) eqn:E; try subst ey;
    try destruct (Pos.compare_spec mx my);
    cbn [CompOpp]; split; try done; try lia; try nia.
Qed.

Lemma digits2_iter_xO p d :
  Zpos (digits2_pos (PosDef.Pos.iter xO p d)) = Zpos (digits2_pos p) + Zpos d.
Proof.
  change (PosDef.Pos.iter xO p d) with (Pos.iter xO p d).
  induction d as [|d IH] using Pos.peano_ind.
  - cbn. lia.
  - rewrite Pos.iter_succ. cbn [digits2_pos]. lia.
Qed.

Lemma binary_round_pair s m e :
  binary_round prec emax s m e =
  binary_round_aux prec emax s (Zpos (fst (aligned_pair m e)))
    (snd (aligned_pair m e)) loc_Exact.
Proof.
  unfold binary_round, aligned_pair. by destruct (shl_align _ _ _).
Qed.

(** Aligning keeps the value. *)
Lemma aligned_pair_spec m e :
  -1074 <= e ->
  let mz := fst (aligned_pair m e) in
  let ez := snd (aligned_pair m e) in
  aligned (Zpos mz) ez /\ -1074 <= ez /\ ez <= e /\
  Zpos mz = Zpos m * 2 ^ (e - ez).
Proof.
  intros He. unfold aligned_pair, shl_align.
  pose proof (fexp_spec (Zpos (digits2_pos m) + e)) as HF.
  destruct (fexp prec emax (Zpos (digits2_pos m) + e) - e) as [|d|d] eqn:Hd;
    cbn [fst snd].
  - unfold aligned. cbn [Zdigits2]. rewrite Z.sub_diag. cbn. lia.
  - unfold aligned. cbn [Zdigits2]. rewrite Z.sub_diag. cbn. lia.
  - set (ez := fexp prec emax (Zpos (digits2_pos m) + e)) in *.
    assert (Hk : e - ez = Zpos d) by lia.
    rewrite Hk. split; [|split; [lia|split; [lia|apply iter_xO_value]]].
    unfold aligned. cbn [Zdigits2]. rewrite digits2_iter_xO.
    replace (Zpos (digits2_pos m) + Zpos d + ez)
      with (Zpos (digits2_pos m) + e) by lia.
    fold ez. lia.
Qed.

Lemma scaled_pair m e :
  -1074 <= e ->
  Zpos (fst (aligned_pair m e)) * 2 ^ (snd (aligned_pair m e) + 1074) =
  Zpos m * 2 ^ (e + 1074).
Proof.
  intros He. destruct (aligned_pair_spec m e He) as (_ & Hez & Hle & ->).
  rewrite <- Z.mul_assoc, <- pow2_split by lia. do 2 f_equal. lia.
Qed.

(** Rounding positive integers keeps their order. *)
Lemma binary_round_mono m1 e1 m2 e2 :
  -1074 <= e1 -> -1074 <= e2 ->
  Zpos m1 * 2 ^ (e1 + 1074) <= Zpos m2 * 2 ^ (e2 + 1074) ->
  exists g1 g2,
    0 <= g1 /\ g1 <= g2 /\ g2 <= INF /\
    (forall s, ord (binary_round prec emax s m1 e1) =
               Some ((if s then -1 else 1) * g1)) /\
    (forall s, ord (binary_round prec emax s m2 e2) =
               Some ((if s then -1 else 1) * g2)).
Proof.
  intros He1 He2 Hle.
  destruct (aligned_pair_spec m1 e1 He1) as (Hal1 & Hz1 & _ & _).
  destruct (aligned_pair_spec m2 e2 He2) as (Hal2 & Hz2 & _ & _).
  pose proof (scaled_pair m1 e1 He1) as S1.
  pose proof (scaled_pair m2 e2 He2) as S2.
  cbn zeta in *.
  set (mz1 := fst (aligned_pair m1 e1)) in *.
  set (ez1 := snd (aligned_pair m1 e1)) in *.
  set (mz2 := fst (aligned_pair m2 e2)) in *.
  set (ez2 := snd (aligned_pair m2 e2)) in *.
  destruct (binary_round_aux_mono (Zpos mz1) 1 (Zpos mz1) ez1
              (Zpos mz2) 1 (Zpos mz2) ez2 loc_Exact loc_Exact)
    as (g1 & g2 & G0 & G1 & G2 & O1 & O2); try lia;
    try (symmetry; apply frac_record_exact); try assumption.
  - apply (val_le_intro _ _ _ _ _ _ (ez1 + ez2 + 1074)); try lia.
    replace (ez1 + ez2 + 1074 - ez2) with (ez1 + 1074) by lia.
    replace (ez1 + ez2 + 1074 - ez1) with (ez2 + 1074) by lia.
    lia.
  - exists g1, g2. repeat split; try lia.
    + intros s. rewrite binary_round_pair. apply O1.
    + intros s. rewrite binary_round_pair. apply O2.
Qed.

(** Rounding signed integers keeps their order. *)
Lemma binary_normalize_mono d1 e1 d2 e2 :
  -1074 <= e1 -> -1074 <= e2 ->
  d1 * 2 ^ (e1 + 1074) <= d2 * 2 ^ (e2 + 1074) ->
  ord_le (binary_normalize prec emax d1 e1 false)
         (binary_normalize prec emax d2 e2 false).
Proof.
  intros He1 He2 Hle. unfold ord_le.
  pose proof (pow2_pos (e1 + 1074) ltac:(lia)) as P1.
  pose proof (pow2_pos (e2 + 1074) ltac:(lia)) as P2.
  assert (Hself : forall m e, -1074 <= e ->
            exists g, 0 <= g <= INF /\
              forall s, ord (binary_round prec emax s m e) =
                        Some ((if s then -1 else 1) * g)).
  { intros m e He.
    destruct (binary_round_mono m e m e He He ltac:(lia))
      as (g & g' & G0 & G1 & G2 & O & _).
    exists g. split; [lia|exact O]. }
  assert (Hpos : 0 < d1 -> 0 < d2).
  { intros H. pose proof (Z.mul_pos_pos _ _ H P1).
    destruct (Z.lt_trichotomy d2 0) as [Hn|[->|Hp]]; [|lia|done].
    pose proof (Z.mul_neg_pos _ _ Hn P2). lia. }
  assert (Hneg : d2 < 0 -> d1 < 0).
  { intros H. pose proof (Z.mul_neg_pos _ _ H P2).
    destruct (Z.lt_trichotomy d1 0) as [Hn|[->|Hp]]; [done|lia|].
    pose proof (Z.mul_pos_pos _ _ Hp P1). lia. }
  destruct d1 as [|p1|p1], d2 as [|p2|p2]; cbn [binary_normalize ord];
    try lia.
  - destruct (Hself p2 e2 He2) as (g & Hg & O). rewrite O. lia.
  - destruct (binary_round_mono p1 e1 p2 e2 He1 He2 Hle)
      as (g1 & g2 & G0 & G1 & G2 & O1 & O2). rewrite O1, O2. lia.
  - destruct (Hself p1 e1 He1) as (g & Hg & O). rewrite O. lia.
  - destruct (Hself p1 e1 He1) as (g1 & Hg1 & O1).
    destruct (Hself p2 e2 He2) as (g2 & Hg2 & O2). rewrite O1, O2. lia.
  - destruct (binary_round_mono p2 e2 p1 e1 He2 He1 ltac:(lia))
      as (g2 & g1 & G0 & G1 & G2 & O2 & O1). rewrite O1, O2. lia.
Qed.

Lemma INF_pos : 0 < INF.
Proof. reflexivity. Qed.

Lemma binary_round_range s m e :
  -1074 <= e ->
  exists g, 0 <= g <= INF /\
            ord (binary_round prec emax s m e) = Some (sgn s * g).
Proof.
  intros He.
  destruct (binary_round_mono m e m e He He ltac:(lia))
    as (g & g' & G0 & G1 & G2 & O & _).
  exists g. split; [lia|apply O].
Qed.

Lemma exact_round_mono v1 r1 v2 r2 :
  exact_round v1 r1 -> exact_round v2 r2 -> v1 <= v2 -> ord_le r1 r2.
Proof.
  intros (d1 & e1 & He1 & <- & ->) (d2 & e2 & He2 & <- & ->) Hle.
  by apply binary_normalize_mono.
Qed.

Lemma exact_round_range v r :
  exact_round v r -> exists o, ord r = Some o /\ - INF <= o <= INF.
Proof.
  intros (d & e & He & _ & ->). pose proof INF_pos.
  destruct d as [|p|p]; cbn [binary_normalize].
  - exists 0. cbn. split; [done|lia].
  - destruct (binary_round_range false p e He) as (g & Hg & ->).
    eexists. split; [done|]. unfold sgn. lia.
  - destruct (binary_round_range true p e He) as (g & Hg & ->).
    eexists. split; [done|]. unfold sgn. lia.
Qed.

Lemma SFsub_finite sx mx ex sy my ey :
  -1074 <= ex -> -1074 <= ey ->
  exact_round (sgn sx * (Zpos mx * 2 ^ (ex + 1074)) -
               sgn sy * (Zpos my * 2 ^ (ey + 1074)))
    (SFsub prec emax (S754_finite sx mx ex) (S754_finite sy my ey)).
Proof.
  intros Hx Hy. cbn [SFsub]. set (ez := Z.min ex ey).
  eexists _, ez. split; [lia|]. split; [|reflexivity].
  rewrite !shl_align_le by lia.
  assert (Ex : Zpos mx * 2 ^ (ex + 1074) =
               Zpos mx * 2 ^ (ex - ez) * 2 ^ (ez + 1074)).
  { rewrite <- Z.mul_assoc, <- pow2_split by lia. do 2 f_equal. lia. }
  assert (Ey : Zpos my * 2 ^ (ey + 1074) =
               Zpos my * 2 ^ (ey - ez) * 2 ^ (ez + 1074)).
  { rewrite <- Z.mul_assoc, <- pow2_split by lia. do 2 f_equal. lia. }
  rewrite Ex, Ey.
  generalize (Zpos mx * 2 ^ (ex - ez)) (Zpos my * 2 ^ (ey - ez))
    (2 ^ (ez + 1074)).
  intros a b p. unfold sgn.
  change (IntDef.Z.add ?u ?w) with (u + w).
  destruct sx, sy; cbn [cond_Zopp negb];
    change (IntDef.Z.opp ?u) with (- u); lia.
Qed.

Lemma scaled_range s m e :
  bounded prec emax m e = true -> - INF < scaled s m e < INF.
Proof.
  intros Hb. destruct (finite_scaled m e Hb) as (_ & B & _).
  unfold scaled, sgn. destruct s; lia.
Qed.

(** ** Subtracting a constant, and subtracting from a constant *)

Section Difference.
Variables (sc : bool) (mc : positive) (ec : Z).
Hypothesis Hc : bounded prec emax mc ec = true.
Hypothesis Hfix : forall s,
  binary_normalize prec emax (cond_Zopp s (Zpos mc)) ec false =
  S754_finite s mc ec.

Let c := S754_finite sc mc ec.
Let vc := scaled sc mc ec.

Lemma exact_round_constant s : exact_round (scaled s mc ec) (S754_finite s mc ec).
Proof using All.
  destruct (finite_scaled mc ec Hc) as (He & _).
  exists (cond_Zopp s (Zpos mc)), ec. split; [lia|]. split; [|by rewrite Hfix].
  unfold scaled, sgn. destruct s; cbn [cond_Zopp];
    change (IntDef.Z.opp ?u) with (- u); lia.
Qed.

Lemma SFsub_left x :
  valid_binary x = true ->
  match x with
  | S754_nan => True
  | S754_infinity s => SFsub prec emax x c = S754_infinity s
  | _ => exists v, ord x = Some v /\ - INF < v < INF /\
                   exact_round (v - vc) (SFsub prec emax x c)
  end.
Proof using All.
  intros Hx. pose proof INF_pos.
  destruct (finite_scaled mc ec Hc) as (He & _).
  destruct x as [s|s| |s m e]; cbn [valid_binary] in Hx; try done.
  - exists 0. split; [done|]. split; [lia|]. cbn [SFsub c].
    replace (0 - vc) with (scaled (negb sc) mc ec)
      by (unfold vc, scaled, sgn; destruct sc; cbn [negb]; lia).
    apply exact_round_constant.
  - exists (scaled s m e). split; [done|]. split; [by apply scaled_range|].
    destruct (finite_scaled m e Hx) as (Hex & _).
    apply SFsub_finite; lia.
Qed.

Lemma SFsub_right x :
  valid_binary x = true ->
  match x with
  | S754_nan => True
  | S754_infinity s => SFsub prec emax c x = S754_infinity (negb s)
  | _ => exists v, ord x = Some v /\ - INF < v < INF /\
                   exact_round (vc - v) (SFsub prec emax c x)
  end.
Proof using All.
  intros Hx. pose proof INF_pos.
  destruct (finite_scaled mc ec Hc) as (He & _).
  destruct x as [s|s| |s m e]; cbn [valid_binary] in Hx; try done.
  - exists 0. split; [done|]. split; [lia|]. cbn [SFsub c].
    rewrite Z.sub_0_r. apply exact_round_constant.
  - exists (scaled s m e). split; [done|]. split; [by apply scaled_range|].
    destruct (finite_scaled m e Hx) as (Hex & _).
    apply SFsub_finite; lia.
Qed.

Lemma SFsub_left_mono x y :
  valid_binary x = true -> valid_binary y = true ->
  ord_le x y -> ord_le (SFsub prec emax x c) (SFsub prec emax y c).
Proof using All.
  intros Hx Hy Hle. pose proof INF_pos.
  pose proof (SFsub_left x Hx) as Dx. pose proof (SFsub_left y Hy) as Dy.
  unfold ord_le in Hle.
  destruct x as [sx|sx| |sx mx ex], y as [sy|sy| |sy my ey];
    try (cbn [ord] in Hle; done);
    try (rewrite Dx);
    try (rewrite Dy);
    try (destruct Dx as (vx & Ox & Bx & Rx); rewrite Ox in Hle);
    try (destruct Dy as (vy & Oy & By & Ry); rewrite Oy in Hle);
    try (by apply (exact_round_mono _ _ _ _ Rx Ry); lia);
    try (destruct (exact_round_range _ _ Rx) as (o & Oo & Bo));
    try (destruct (exact_round_range _ _ Ry) as (o & Oo & Bo));
    unfold ord_le; try rewrite Oo; cbn [ord] in *;
    try (destruct sx); try (destruct sy); try lia.
Qed.

Lemma SFsub_right_mono x y :
  valid_binary x = true -> valid_binary y = true ->
  ord_le x y -> ord_le (SFsub prec emax c y) (SFsub prec emax c x).
Proof using All.
  intros Hx Hy Hle. pose proof INF_pos.
  pose proof (SFsub_right x Hx) as Dx. pose proof (SFsub_right y Hy) as Dy.
  unfold ord_le in Hle.
  destruct x as [sx|sx| |sx mx ex], y as [sy|sy| |sy my ey];
    try (cbn [ord] in Hle; done);
    try (rewrite Dx);
    try (rewrite Dy);
    try (destruct Dx as (vx & Ox & Bx & Rx); rewrite Ox in Hle);
    try (destruct Dy as (vy & Oy & By & Ry); rewrite Oy in Hle);
    try (by apply (exact_round_mono _ _ _ _ Ry Rx); lia);
    try (destruct (exact_round_range _ _ Rx) as (o & Oo & Bo));
    try (destruct (exact_round_range _ _ Ry) as (o & Oo & Bo));
    unfold ord_le; try rewrite Oo; cbn [ord negb] in *;
    try (destruct sx); try (destruct sy); cbn [negb]; try lia.
Qed.
End Difference.

(** ** Operations that keep the sign and the order of magnitudes *)

Section OddMono.
Variable F : spec_float -> spec_float.
Hypothesis F_zero : forall s, ord (F (S754_zero s)) = Some 0.
Hypothesis F_infinity : forall s, ord (F (S754_infinity s)) = Some (sgn s * INF).
Hypothesis F_finite : forall m1 e1 m2 e2,
  bounded prec emax m1 e1 = true -> bounded prec emax m2 e2 = true ->
  Zpos m1 * 2 ^ (e1 + 1074) <= Zpos m2 * 2 ^ (e2 + 1074) ->
  exists g1 g2, 0 <= g1 /\ g1 <= g2 /\ g2 <= INF /\
    (forall s, ord (F (S754_finite s m1 e1)) = Some (sgn s * g1)) /\
    (forall s, ord (F (S754_finite s m2 e2)) = Some (sgn s * g2)).

Lemma F_finite_range s m e :
  bounded prec emax m e = true ->
  exists g, 0 <= g <= INF /\ ord (F (S754_finite s m e)) = Some (sgn s * g).
Proof using F_finite.
  intros Hb. destruct (F_finite m e m e Hb Hb ltac:(lia))
    as (g & g' & G0 & G1 & G2 & O & _).
  exists g. split; [lia|apply O].
Qed.

Lemma odd_mono x y :
  valid_binary x = true -> valid_binary y = true ->
  ord_le x y -> ord_le (F x) (F y).
Proof using All.
  intros Hx Hy Hle. pose proof INF_pos as HI. unfold ord_le in *.
  destruct x as [sx|sx| |sx mx ex], y as [sy|sy| |sy my ey];
    cbn [valid_binary] in Hx, Hy; cbn [ord] in Hle; try done;
    rewrite ?F_zero, ?F_infinity;
    try (destruct (finite_scaled mx ex Hx) as (_ & Bx & _));
    try (destruct (finite_scaled my ey Hy) as (_ & By & _)).
  - cbv beta iota. lia.
  - unfold sgn. destruct sy; cbv beta iota; lia.
  - destruct (F_finite_range sy my ey Hy) as (g & Hg & ->).
    unfold sgn. destruct sy; lia.
  - unfold sgn. destruct sx; cbv beta iota; lia.
  - unfold sgn. destruct sx, sy; cbv beta iota; lia.
  - destruct (F_finite_range sy my ey Hy) as (g & Hg & ->).
    unfold sgn. destruct sx, sy; lia.
  - destruct (F_finite_range sx mx ex Hx) as (g & Hg & ->).
    unfold sgn. destruct sx; lia.
  - destruct (F_finite_range sx mx ex Hx) as (g & Hg & ->).
    unfold sgn. destruct sx, sy; lia.
  - destruct sx, sy.
    + destruct (F_finite my ey mx ex Hy Hx ltac:(lia))
        as (g2 & g1 & G0 & G1 & G2 & O2 & O1).
      rewrite O1, O2. unfold sgn. lia.
    + destruct (F_finite_range true mx ex Hx) as (g1 & Hg1 & ->).
      destruct (F_finite_range false my ey Hy) as (g2 & Hg2 & ->).
      unfold sgn. lia.
    + lia.
    + destruct (F_finite mx ex my ey Hx Hy ltac:(lia))
        as (g1 & g2 & G0 & G1 & G2 & O1 & O2).
      rewrite O1, O2. unfold sgn. lia.
Qed.
End OddMono.

(** ** Multiplying by a positive normal constant *)

Section Product.
Variables (mc : positive) (ec : Z).
Hypothesis Hc : bounded prec emax mc ec = true.
Hypothesis Hnormal : 2 ^ 52 <= Zpos mc.

Let c := S754_finite false mc ec.

Lemma product_aligned m e : aligned (Zpos (m * mc)) (e + ec).
Proof using Hnormal.
  unfold aligned. rewrite fexp_spec.
  assert (53 <= Zdigits2 (Zpos (m * mc))); [|lia].
  apply (Zdigits2_ge _ 52); [lia|]. rewrite Pos2Z.inj_mul. nia.
Qed.

Lemma SFmul_finite m1 e1 m2 e2 :
  bounded prec emax m1 e1 = true -> bounded prec emax m2 e2 = true ->
  Zpos m1 * 2 ^ (e1 + 1074) <= Zpos m2 * 2 ^ (e2 + 1074) ->
  exists g1 g2, 0 <= g1 /\ g1 <= g2 /\ g2 <= INF /\
    (forall s, ord (SFmul prec emax (S754_finite s m1 e1) c) = Some (sgn s * g1)) /\
    (forall s, ord (SFmul prec emax (S754_finite s m2 e2) c) = Some (sgn s * g2)).
Proof using All.
  intros H1 H2 Hle.
  destruct (finite_scaled m1 e1 H1) as (He1 & _).
  destruct (finite_scaled m2 e2 H2) as (He2 & _).
  destruct (finite_scaled mc ec Hc) as (Hec & _).
  destruct (binary_round_aux_mono
              (Zpos (m1 * mc)) 1 (Zpos (m1 * mc)) (e1 + ec)
              (Zpos (m2 * mc)) 1 (Zpos (m2 * mc)) (e2 + ec)
              loc_Exact loc_Exact)
    as (g1 & g2 & G0 & G1 & G2 & O1 & O2); try lia;
    try (symmetry; apply frac_record_exact);
    try apply product_aligned.
  - apply (val_le_intro _ _ _ _ _ _ (e1 + e2 + ec + 1074)); try lia.
    replace (e1 + e2 + ec + 1074 - (e2 + ec)) with (e1 + 1074) by lia.
    replace (e1 + e2 + ec + 1074 - (e1 + ec)) with (e2 + 1074) by lia.
    rewrite !Pos2Z.inj_mul. nia.
  - exists g1, g2. repeat split; try lia.
    + intros s. cbn [SFmul c]. rewrite O1. by destruct s.
    + intros s. cbn [SFmul c]. rewrite O2. by destruct s.
Qed.

Lemma SFmul_mono x y :
  valid_binary x = true -> valid_binary y = true ->
  ord_le x y -> ord_le (SFmul prec emax x c) (SFmul prec emax y c).
Proof using All.
  apply (odd_mono (fun x => SFmul prec emax x c)).
  - by intros [].
  - by intros [].
  - apply SFmul_finite.
Qed.
End Product.

(** ** Dividing by a positive normal constant *)

(** The location of a remainder is the record of the fraction. *)
Lemma new_location_frac N D :
  0 <= N -> 0 < D ->
  shr_record_of_loc (N / D) (new_location D (N mod D)) = frac_record N D.
Proof.
  intros HN HD. pose proof (Z.mod_pos_bound N D HD) as Hr.
  unfold frac_record, new_location, new_location_even, new_location_odd.
  set (r := N mod D) in *.
  destruct (Z.even D) eqn:Ev.
  - destruct (Z.eqb_spec r 0), (Z.leb_spec D (2 * r)), (Z.eqb_spec (2 * r) D),
      (Z.compare_spec (2 * r) D); cbn; reflexivity || lia.
  - assert (Hodd : Z.odd D = true) by (by rewrite <- Z.negb_even, Ev).
    apply Z.odd_spec in Hodd as [k Hk].
    destruct (Z.eqb_spec r 0), (Z.leb_spec D (2 * r)), (Z.eqb_spec (2 * r) D),
      (Z.compare_spec (2 * r + 1) D); cbn; reflexivity || lia.
Qed.

Lemma SFdiv_core_binary_spec m e mc ec :
  SFdiv_core_binary prec emax (Zpos m) e (Zpos mc) ec =
  (dividend m e mc ec / Zpos mc, quotient_exponent m e mc ec,
   new_location (Zpos mc) (dividend m e mc ec mod Zpos mc)).
Proof.
  unfold dividend. set (e' := quotient_exponent m e mc ec).
  change (SFdiv_core_binary prec emax (Zpos m) e (Zpos mc) ec) with
    (let s := e - ec - e' in
     let m' := match s with
               | Zpos _ => Z.shiftl (Zpos m) s
               | Z0 => Zpos m
               | Zneg _ => 0
               end in
     let '(q, r) := Z.div_eucl m' (Zpos mc) in
     (q, e', new_location (Zpos mc) r)).
  assert (Hs : 0 <= e - ec - e') by (unfold e', quotient_exponent; lia).
  cbv zeta.
  assert (Hm : match e - ec - e' with
               | Zpos _ => Z.shiftl (Zpos m) (e - ec - e')
               | Z0 => Zpos m
               | Zneg _ => 0
               end = Zpos m * 2 ^ (e - ec - e')).
  { destruct (e - ec - e') as [|p|p] eqn:E; try lia.
    rewrite Z.shiftl_mul_pow2 by lia. reflexivity. }
  rewrite Hm. unfold Z.div, Z.modulo.
  by destruct (Z.div_eucl _ _).
Qed.

Section Quotient.
Variables (mc : positive) (ec : Z).
Hypothesis Hc : bounded prec emax mc ec = true.
Hypothesis Hnormal : 2 ^ 52 <= Zpos mc.

Let c := S754_finite false mc ec.

Lemma divisor_digits : Zdigits2 (Zpos mc) = 53.
Proof using All.
  destruct (finite_scaled mc ec Hc) as (_ & _ & Hlt & _).
  pose proof (Zdigits2_le (Zpos mc) 53 ltac:(lia) ltac:(lia) Hlt).
  pose proof (Zdigits2_ge (Zpos mc) 52 ltac:(lia) Hnormal). lia.
Qed.

Lemma quotient_exponent_bounds m e :
  -1074 <= e ->
  let e' := quotient_exponent m e mc ec in
  e' <= e - ec /\ -1074 <= e' + ec + 1074 /\
  (-1074 < e' -> 106 - Zdigits2 (Zpos m) <= e - ec - e').
Proof using All.
  intros He e'. destruct (finite_scaled mc ec Hc) as (Hec & _).
  unfold e', quotient_exponent. rewrite divisor_digits, fexp_spec. lia.
Qed.

Lemma quotient_aligned m e :
  -1074 <= e ->
  aligned (dividend m e mc ec / Zpos mc) (quotient_exponent m e mc ec).
Proof using All.
  intros He. destruct (quotient_exponent_bounds m e He) as (Hs & _ & Hbig).
  unfold aligned. rewrite fexp_spec.
  destruct (Z_le_gt_dec (quotient_exponent m e mc ec) (-1074)) as [|Hgt];
    [lia|].
  assert (53 <= Zdigits2 (dividend m e mc ec / Zpos mc)); [|lia].
  apply (Zdigits2_ge _ 52); [lia|].
  destruct (finite_scaled mc ec Hc) as (_ & _ & Hlt & _).
  apply Z.div_le_lower_bound; [lia|].
  unfold dividend. set (s := e - ec - quotient_exponent m e mc ec) in *.
  specialize (Hbig ltac:(lia)).
  pose proof (digits2_pos_bounds m) as Hd. rewrite <- Zdigits2_pos in Hd.
  set (d := Zdigits2 (Zpos m)) in *.
  assert (Hd1 : 1 <= d) by (unfold d; rewrite Zdigits2_pos; lia).
  apply Z.le_trans with (2 ^ 105).
  - change (2 ^ 105) with (2 ^ 53 * 2 ^ 52). nia.
  - apply Z.le_trans with (2 ^ (d - 1) * 2 ^ s).
    + rewrite <- pow2_split by lia. apply pow2_le. lia.
    + apply Z.mul_le_mono_nonneg_r; [|lia].
      apply Z.lt_le_incl, pow2_pos. lia.
Qed.

Lemma SFdiv_finite m1 e1 m2 e2 :
  bounded prec emax m1 e1 = true -> bounded prec emax m2 e2 = true ->
  Zpos m1 * 2 ^ (e1 + 1074) <= Zpos m2 * 2 ^ (e2 + 1074) ->
  exists g1 g2, 0 <= g1 /\ g1 <= g2 /\ g2 <= INF /\
    (forall s, ord (SFdiv prec emax (S754_finite s m1 e1) c) = Some (sgn s * g1)) /\
    (forall s, ord (SFdiv prec emax (S754_finite s m2 e2) c) = Some (sgn s * g2)).
Proof using All.
  intros H1 H2 Hle.
  destruct (finite_scaled m1 e1 H1) as (He1 & _).
  destruct (finite_scaled m2 e2 H2) as (He2 & _).
  destruct (finite_scaled mc ec Hc) as (Hec & _).
  destruct (quotient_exponent_bounds m1 e1 ltac:(lia)) as (Hs1 & Hq1 & _).
  destruct (quotient_exponent_bounds m2 e2 ltac:(lia)) as (Hs2 & Hq2 & _).
  cbv zeta in *.
  set (q1 := quotient_exponent m1 e1 mc ec) in *.
  set (q2 := quotient_exponent m2 e2 mc ec) in *.
  assert (HN1 : 0 <= dividend m1 e1 mc ec).
  { unfold dividend. fold q1. pose proof (pow2_pos (e1 - ec - q1)). nia. }
  assert (HN2 : 0 <= dividend m2 e2 mc ec).
  { unfold dividend. fold q2. pose proof (pow2_pos (e2 - ec - q2)). nia. }
  destruct (binary_round_aux_mono
              (dividend m1 e1 mc ec) (Zpos mc)
              (dividend m1 e1 mc ec / Zpos mc) q1
              (dividend m2 e2 mc ec) (Zpos mc)
              (dividend m2 e2 mc ec / Zpos mc) q2
              (new_location (Zpos mc) (dividend m1 e1 mc ec mod Zpos mc))
              (new_location (Zpos mc) (dividend m2 e2 mc ec mod Zpos mc)))
    as (g1 & g2 & G0 & G1 & G2 & O1 & O2); try lia;
    try (apply new_location_frac; lia);
    try (apply quotient_aligned; lia).
  - apply (val_le_intro _ _ _ _ _ _ (q1 + q2 + ec + 2148)); try lia.
    unfold dividend. fold q1 q2.
    replace (q1 + q2 + ec + 2148 - q2) with (q1 + ec + 2148) by lia.
    replace (q1 + q2 + ec + 2148 - q1) with (q2 + ec + 2148) by lia.
    assert (E1 : Zpos m1 * 2 ^ (e1 - ec - q1) * Zpos mc * 2 ^ (q1 + ec + 2148) =
                 Zpos m1 * (2 ^ (e1 + 1074) * 2 ^ 1074) * Zpos mc).
    { rewrite <- (pow2_split (e1 + 1074) 1074) by lia.
      replace (e1 + 1074 + 1074) with ((e1 - ec - q1) + (q1 + ec + 2148))
        by lia.
      rewrite (pow2_split (e1 - ec - q1) (q1 + ec + 2148)) by lia. ring. }
    assert (E2 : Zpos m2 * 2 ^ (e2 - ec - q2) * Zpos mc * 2 ^ (q2 + ec + 2148) =
                 Zpos m2 * (2 ^ (e2 + 1074) * 2 ^ 1074) * Zpos mc).
    { rewrite <- (pow2_split (e2 + 1074) 1074) by lia.
      replace (e2 + 1074 + 1074) with ((e2 - ec - q2) + (q2 + ec + 2148))
        by lia.
      rewrite (pow2_split (e2 - ec - q2) (q2 + ec + 2148)) by lia. ring. }
    rewrite E1, E2. apply Z.mul_le_mono_nonneg_r; [lia|].
    rewrite !Z.mul_assoc. apply Z.mul_le_mono_nonneg_r; [|done].
    apply Z.lt_le_incl. by apply pow2_pos.
  - exists g1, g2. repeat split; try lia.
    + intros s. cbn [SFdiv c]. rewrite SFdiv_core_binary_spec.
      fold q1. rewrite O1. by destruct s.
    + intros s. cbn [SFdiv c]. rewrite SFdiv_core_binary_spec.
      fold q2. rewrite O2. by destruct s.
Qed.

Lemma SFdiv_mono x y :
  valid_binary x = true -> valid_binary y = true ->
  ord_le x y -> ord_le (SFdiv prec emax x c) (SFdiv prec emax y c).
Proof using All.
  apply (odd_mono (fun x => SFdiv prec emax x c)).
  - by intros [].
  - by intros [].
  - apply SFdiv_finite.
Qed.
End Quotient.

(** [<=?] on doubles is the order of their values. *)
Lemma leb_ord x y :
  (x <=? y)%float = true <-> ord_le (Prim2SF x) (Prim2SF y).
Proof.
  rewrite FloatAxioms.leb_spec. apply SFleb_iff; apply Prim2SF_valid.
Qed.

End Float64.

(** ** Constants *)

Lemma WINDOW_SIZE_exact : WINDOW_SIZE_quotient = number_of_nat WINDOW_SIZE.
Proof. reflexivity. Qed.

Lemma sampleInterval_exact : sampleInterval = 4%float.
Proof. reflexivity. Qed.

(** ** Double-precision arithmetic: exact results and finite operands *)

Module Float64More.

Import Rounding Float64.
Local Open Scope Z_scope.

(** ** Exact results *)

(** Rounding a double gives that double. *)
Lemma binary_round_exact s m e :
  bounded prec emax m e = true ->
  binary_round prec emax s m e = S754_finite s m e.
Proof.
  intros Hb. destruct (finite_scaled m e Hb) as (He & _ & Hm & _).
  assert (Hcan : fexp prec emax (Zpos (digits2_pos m) + e) = e).
  { unfold bounded, canonical_mantissa in Hb.
    apply andb_prop in Hb as [Hb _]. by apply Z.eqb_eq in Hb. }
  rewrite binary_round_pair. unfold aligned_pair. rewrite Hcan.
  assert (Hsh : shl_align m e e = (m, e)).
  { unfold shl_align.
    change (IntDef.Z.sub e e) with (e - e). by rewrite Z.sub_diag. }
  rewrite Hsh. cbn [fst snd].
  assert (Hal : aligned (Zpos m) e).
  { unfold aligned. rewrite Zdigits2_pos, Hcan. lia. }
  destruct (binary_round_aux_frac s (Zpos m) 1 (Zpos m) e loc_Exact
              ltac:(lia) ltac:(lia) (eq_sym (frac_record_exact _)) Hal)
    as [_ ->].
  rewrite Zdigits2_pos, Hcan, Z.sub_diag.
  change (1 * 2 ^ 0) with 1. rewrite frac_record_exact.
  change (rne (shr_record_of_loc (Zpos m) loc_Exact)) with (Zpos m).
  unfold finish.
  destruct (Z.eqb_spec (Zpos m) 0); [lia|].
  destruct (Z.eqb_spec (Zpos m) (2 ^ 53)); [lia|].
  destruct (Z.leb_spec e 971); [done|lia].
Qed.

Lemma binary_normalize_exact s m e :
  bounded prec emax m e = true ->
  binary_normalize prec emax (cond_Zopp s (Zpos m)) e false = S754_finite s m e.
Proof.
  intros Hb. destruct s; cbn [cond_Zopp binary_normalize];
    by apply binary_round_exact.
Qed.

(** ** Subtracting from any finite number *)

Lemma ord_SFsub_zero s x :
  ord (SFsub prec emax (S754_zero s) x) = Z.opp <$> ord x.
Proof.
  destruct x as [sx|sx| |sx mx ex]; cbn [SFsub].
  - destruct s, sx; reflexivity.
  - destruct sx; reflexivity.
  - reflexivity.
  - cbn. f_equal. destruct sx; cbn [negb]; lia.
Qed.

Lemma SFsub_from_mono c x y :
  valid_binary c = true -> is_finite_SF c = true ->
  valid_binary x = true -> valid_binary y = true ->
  ord_le x y -> ord_le (SFsub prec emax c y) (SFsub prec emax c x).
Proof.
  intros Hc Hfin Hx Hy Hle.
  destruct c as [s|s| |s m e]; try done.
  - unfold ord_le in *. rewrite !ord_SFsub_zero.
    destruct (ord x), (ord y); cbn; try done. lia.
  - apply SFsub_right_mono; try done.
    intros s'. by apply binary_normalize_exact.
Qed.

Lemma is_finite_spec (x : float) : is_finite x = is_finite_SF (Prim2SF x).
Proof.
  unfold is_finite, is_nan, is_infinity.
  rewrite !FloatAxioms.eqb_spec, FloatAxioms.abs_spec.
  change (Prim2SF infinity) with (S754_infinity false).
  destruct (Prim2SF x) as [[]|[]| |s m e]; try reflexivity.
  assert (Hrefl : SFeqb (S754_finite s m e) (S754_finite s m e) = true).
  { unfold SFeqb, SFcompare.
    change (IntDef.Z.compare e e) with (e ?= e)%Z.
    change (PosDef.Pos.compare_cont Eq m m) with (m ?= m)%positive.
    rewrite Z.compare_refl, Pos.compare_refl. by destruct s. }
  rewrite Hrefl. by destruct s.
Qed.

(** [c - x] never increases with [x], for a finite [c]. *)
Lemma sub_from_mono (c x y : float) :
  is_finite c = true ->
  (x <=? y)%float = true -> (c - y <=? c - x)%float = true.
Proof.
  intros Hc. rewrite !leb_ord, !FloatAxioms.sub_spec.
  apply SFsub_from_mono; try apply Prim2SF_valid. by rewrite <- is_finite_spec.
Qed.

(** ** Subtracting any finite number *)

Lemma ord_SFsub_by_zero s x :
  ord (SFsub prec emax x (S754_zero s)) = ord x.
Proof.
  destruct x as [sx|sx| |sx mx ex]; cbn [SFsub]; try reflexivity.
  by destruct s, sx.
Qed.

Lemma SFsub_to_mono c x y :
  valid_binary c = true -> is_finite_SF c = true ->
  valid_binary x = true -> valid_binary y = true ->
  ord_le x y -> ord_le (SFsub prec emax x c) (SFsub prec emax y c).
Proof.
  intros Hc Hfin Hx Hy Hle.
  destruct c as [s|s| |s m e]; try done.
  - unfold ord_le in *. by rewrite !ord_SFsub_by_zero.
  - apply SFsub_left_mono; try done.
    intros s'. by apply binary_normalize_exact.
Qed.

(** [x - c] never decreases with [x], for a finite [c]. *)
Lemma sub_to_mono (c x y : float) :
  is_finite c = true ->
  (x <=? y)%float = true -> (x - c <=? y - c)%float = true.
Proof.
  intros Hc. rewrite !leb_ord, !FloatAxioms.sub_spec.
  apply SFsub_to_mono; try apply Prim2SF_valid. by rewrite <- is_finite_spec.
Qed.

(** [x * c] and [x / c] never decrease with [x], for a positive normal
    constant [c]. *)
Lemma mul_mono (c x y : float) m e :
  Prim2SF c = S754_finite false m e -> 2 ^ 52 <= Zpos m ->
  (x <=? y)%float = true -> (x * c <=? y * c)%float = true.
Proof.
  intros Hc Hn. rewrite !leb_ord, !FloatAxioms.mul_spec, Hc.
  pose proof (Prim2SF_valid c) as Hv. rewrite Hc in Hv.
  apply SFmul_mono; try done; apply Prim2SF_valid.
Qed.

Lemma div_mono (c x y : float) m e :
  Prim2SF c = S754_finite false m e -> 2 ^ 52 <= Zpos m ->
  (x <=? y)%float = true -> (x / c <=? y / c)%float = true.
Proof.
  intros Hc Hn. rewrite !leb_ord, !FloatAxioms.div_spec, Hc.
  pose proof (Prim2SF_valid c) as Hv. rewrite Hc in Hv.
  apply SFdiv_mono; try done; apply Prim2SF_valid.
Qed.

(** [x - x] is [+0] for a finite [x]. *)
Lemma sub_diag (x : float) : is_finite x = true -> (x - x)%float = 0%float.
Proof.
  intros Hfin. rewrite is_finite_spec in Hfin. apply Prim2SF_inj.
  rewrite FloatAxioms.sub_spec. change (Prim2SF 0) with (S754_zero false).
  destruct (Prim2SF x) as [s|s| |s m e]; try done.
  - by destruct s.
  - unfold SF64sub. cbn [SFsub]. cbv zeta.
    change (IntDef.Z.add ?u ?v) with (u + v).
    by rewrite Z.sub_diag.
Qed.

(** When [x - (x - c)] is the finite number [c], [x] is finite too. *)
Lemma sub_sub_finite (x c : float) :
  is_finite c = true -> (x - (x - c))%float = c -> is_finite x = true.
Proof.
  intros Hc H. rewrite is_finite_spec in *. rewrite <- H in Hc.
  rewrite !FloatAxioms.sub_spec in Hc.
  destruct (Prim2SF x) as [s|s| |s m e]; try done.
  unfold SF64sub in Hc.
  destruct (Prim2SF c) as [sc|sc| |sc mc ec]; try done; cbn [SFsub] in Hc.
  - by destruct s.
  - by destruct s, sc.
  - by destruct s.
Qed.

(** ** Results that need no rounding *)

Lemma shl_align_snd m e e' : snd (shl_align m e e') = Z.min e e'.
Proof.
  unfold shl_align. change (IntDef.Z.sub e' e) with (e' - e).
  destruct (e' - e) as [|d|d] eqn:Hd; cbn [snd]; lia.
Qed.

(** A mantissa below 2^53 is rounded to itself. *)
Lemma binary_round_small s m e :
  Zpos m < 2 ^ 53 -> -1074 <= e <= 971 ->
  ord (binary_round prec emax s m e) = Some (sgn s * (Zpos m * 2 ^ (e + 1074))).
Proof.
  intros Hm He.
  destruct (aligned_pair_spec m e ltac:(lia)) as (Hal & Hz & Hze & Hmz).
  pose proof (scaled_pair m e ltac:(lia)) as Hval.
  assert (Hsnd : snd (aligned_pair m e) =
                 Z.min e (fexp prec emax (Zpos (digits2_pos m) + e)))
    by apply shl_align_snd.
  cbv zeta in *.
  set (mz := fst (aligned_pair m e)) in *.
  set (ez := snd (aligned_pair m e)) in *.
  rewrite fexp_spec in Hsnd.
  pose proof (digits2_pos_bounds m) as Hdm.
  assert (Hd53 : Zpos (digits2_pos m) <= 53).
  { destruct (Z_le_gt_dec (Zpos (digits2_pos m)) 53) as [|Hgt]; [done|].
    assert (2 ^ 53 <= 2 ^ (Zpos (digits2_pos m) - 1)) by (apply pow2_le; lia).
    lia. }
  assert (Hdz : Zdigits2 (Zpos mz) <= Zpos (digits2_pos m) + (e - ez)).
  { apply Zdigits2_le; [lia|lia|]. rewrite Hmz, pow2_split by lia.
    pose proof (pow2_pos (e - ez) ltac:(lia)). nia. }
  assert (HE : fexp prec emax (Zdigits2 (Zpos mz) + ez) = ez).
  { unfold aligned in Hal. rewrite fexp_spec in *. lia. }
  rewrite binary_round_pair. fold mz ez.
  destruct (binary_round_aux_frac s (Zpos mz) 1 (Zpos mz) ez loc_Exact
              ltac:(lia) ltac:(lia) (eq_sym (frac_record_exact _)) Hal)
    as [_ ->].
  rewrite HE, Z.sub_diag. change (1 * 2 ^ 0) with 1.
  rewrite frac_record_exact.
  change (rne (shr_record_of_loc (Zpos mz) loc_Exact)) with (Zpos mz).
  assert (Hmz53 : Zpos mz < 2 ^ 53).
  { pose proof (digits2_pos_bounds mz) as Hb. rewrite <- Zdigits2_pos in Hb.
    apply Z.lt_le_trans with (2 ^ Zdigits2 (Zpos mz)); [lia|].
    apply pow2_le. pose proof (Zdigits2_pos mz). lia. }
  rewrite finish_ord by lia. unfold mag, overflows, sgn.
  destruct (Z.eqb_spec (Zpos mz) 0); [lia|].
  destruct (Z.eqb_spec (Zpos mz) (2 ^ 53)); [lia|].
  destruct (Z.ltb_spec 971 ez); [lia|]. cbn [negb andb].
  by rewrite Hval.
Qed.

Lemma binary_normalize_small d e :
  Z.abs d < 2 ^ 53 -> -1074 <= e <= 971 ->
  ord (binary_normalize prec emax d e false) = Some (d * 2 ^ (e + 1074)).
Proof.
  intros Hd He. destruct d as [|p|p]; cbn [binary_normalize].
  - done.
  - rewrite binary_round_small by (done || lia). unfold sgn. f_equal. lia.
  - rewrite binary_round_small by (done || lia). unfold sgn. f_equal. lia.
Qed.

(** A value that a mantissa below 2^53 represents is rounded to itself,
    whatever mantissa and exponent it was computed with. *)
Lemma exact_round_small v r d e :
  exact_round v r ->
  v = d * 2 ^ (e + 1074) -> Z.abs d < 2 ^ 53 -> -1074 <= e <= 971 ->
  ord r = Some v.
Proof.
  intros Hr Hv Hd He.
  assert (Hr0 : exact_round v (binary_normalize prec emax d e false)).
  { exists d, e. repeat split; [lia|done]. }
  pose proof (exact_round_mono v r v _ Hr Hr0 ltac:(lia)) as H1.
  pose proof (exact_round_mono v _ v r Hr0 Hr ltac:(lia)) as H2.
  unfold ord_le in *. rewrite binary_normalize_small in * by done.
  destruct (ord r) as [o|]; [|done]. f_equal. lia.
Qed.

(** Valid numbers with the same nonzero value are the same number. *)
Lemma ord_inj x y v :
  valid_binary x = true -> valid_binary y = true ->
  ord x = Some v -> ord y = Some v -> v <> 0 -> x = y.
Proof.
  intros Hx Hy Ox Oy Hv. pose proof INF_pos as HI.
  destruct x as [sx|sx| |sx mx ex], y as [sy|sy| |sy my ey];
    cbn [valid_binary ord] in *; simplify_eq;
    try (destruct (finite_scaled mx ex Hx) as (_ & Bx & _));
    try (destruct (finite_scaled my ey Hy) as (_ & By & _));
    try (destruct sx; lia); try (destruct sy; lia);
    try (destruct sx, sy; (done || lia)).
  pose proof (finite_compare mx ex my ey Hx Hy) as Hc.
  assert (Hs : sx = sy) by (destruct sx, sy; (done || lia)).
  subst sy.
  assert (Heq : Zpos mx * 2 ^ (ex + 1074) = Zpos my * 2 ^ (ey + 1074))
    by (destruct sx; lia).
  destruct (Z.compare_spec ex ey); try lia. subst ey.
  destruct (finite_scaled my ex Hy) as (He & _).
  pose proof (pow2_pos (ex + 1074) ltac:(lia)).
  assert (Zpos mx = Zpos my) by nia. congruence.
Qed.

(** ** Whole numbers of milliseconds

    A whole number [d] of absolute value below 2^53 is the double of value
    [d * 2^1074] on the scale of [ord]. *)

Lemma integer_below_INF d : Z.abs d < 2 ^ 53 -> - INF < d * 2 ^ 1074 < INF.
Proof.
  intros Hd. unfold INF.
  assert (H : 2 ^ 53 * 2 ^ 1074 <= 2 ^ 2100)
    by (rewrite <- pow2_split by lia; apply pow2_le; lia).
  pose proof (pow2_pos 1074 ltac:(lia)). nia.
Qed.

Lemma SFsub_integers x y dx dy :
  valid_binary x = true -> valid_binary y = true ->
  ord x = Some (dx * 2 ^ 1074) -> ord y = Some (dy * 2 ^ 1074) ->
  Z.abs dx < 2 ^ 53 -> Z.abs dy < 2 ^ 53 -> Z.abs (dx - dy) < 2 ^ 53 ->
  ord (SFsub prec emax x y) = Some ((dx - dy) * 2 ^ 1074).
Proof.
  intros Hx Hy Ox Oy Hdx Hdy Hd.
  pose proof (integer_below_INF dx Hdx) as Bx.
  pose proof (integer_below_INF dy Hdy) as By.
  rewrite Z.mul_sub_distr_r.
  destruct x as [sx|sx| |sx mx ex], y as [sy|sy| |sy my ey];
    cbn [valid_binary ord] in Hx, Hy, Ox, Oy; simplify_eq;
    try (destruct sx; lia); try (destruct sy; lia).
  - cbn [SFsub]. replace (dx * 2 ^ 1074) with 0 by lia.
    replace (dy * 2 ^ 1074) with 0 by lia. by destruct sx, sy.
  - cbn [SFsub ord]. f_equal. destruct sy; cbn [negb]; lia.
  - cbn [SFsub ord]. f_equal. lia.
  - destruct (finite_scaled mx ex Hx) as (Hex & _).
    destruct (finite_scaled my ey Hy) as (Hey & _).
    apply (exact_round_small _ _ (dx - dy) 0); [|lia|done|lia].
    replace (dx * 2 ^ 1074 - dy * 2 ^ 1074)
      with (sgn sx * (Zpos mx * 2 ^ (ex + 1074)) -
            sgn sy * (Zpos my * 2 ^ (ey + 1074)))
      by (unfold sgn; lia).
    apply SFsub_finite; lia.
Qed.

Lemma of_uint63_value z :
  0 <= z < 2 ^ 53 ->
  ord (Prim2SF (PrimFloat.of_uint63 (Uint63.of_Z z))) = Some (z * 2 ^ 1074).
Proof.
  intros Hz. rewrite of_uint63_spec.
  assert (Hphi : Uint63Axioms.to_Z (Uint63.of_Z z) = z).
  { rewrite Uint63.of_Z_spec. apply Z.mod_small.
    change wB with (2 ^ 63). split; [lia|].
    apply Z.lt_trans with (2 ^ 53); [lia|done]. }
  rewrite Hphi. apply (binary_normalize_small z 0); lia.
Qed.

Lemma number_of_Z_value z :
  0 <= z < 2 ^ 53 -> ord (Prim2SF (number_of_Z z)) = Some (z * 2 ^ 1074).
Proof.
  intros Hz. unfold number_of_Z.
  destruct (Z.ltb_spec z 0); [lia|]. by apply of_uint63_value.
Qed.

Lemma WINDOW_DURATION_value :
  ord (Prim2SF WINDOW_DURATION) = Some (2000 * 2 ^ 1074).
Proof. vm_compute. reflexivity. Qed.

(** On a clock of whole milliseconds the width of the window is exact. *)
Lemma window_exact z :
  2000 <= z < 2 ^ 53 ->
  (number_of_Z z - (number_of_Z z - WINDOW_DURATION))%float = WINDOW_DURATION.
Proof.
  intros Hz. set (now := number_of_Z z).
  assert (Onow : ord (Prim2SF now) = Some (z * 2 ^ 1074))
    by (apply number_of_Z_value; lia).
  assert (H53 : 2000 < 2 ^ 53) by done.
  assert (Ostart : ord (Prim2SF (now - WINDOW_DURATION)) =
                   Some ((z - 2000) * 2 ^ 1074)).
  { rewrite FloatAxioms.sub_spec.
    apply SFsub_integers; try apply Prim2SF_valid;
      [done|apply WINDOW_DURATION_value|lia..]. }
  assert (Odiff : ord (Prim2SF (now - (now - WINDOW_DURATION))) =
                  Some (2000 * 2 ^ 1074)).
  { rewrite FloatAxioms.sub_spec.
    replace 2000 with (z - (z - 2000)) at 1 by lia.
    apply SFsub_integers; try apply Prim2SF_valid; [done|done|lia..]. }
  apply Prim2SF_inj.
  apply (ord_inj _ _ (2000 * 2 ^ 1074)); try apply Prim2SF_valid;
    [done|apply WINDOW_DURATION_value|].
  pose proof (pow2_pos 1074 ltac:(lia)). lia.
Qed.

(** ** Sums and products of whole numbers *)

Lemma SFadd_finite sx mx ex sy my ey :
  -1074 <= ex -> -1074 <= ey ->
  exact_round (sgn sx * (Zpos mx * 2 ^ (ex + 1074)) +
               sgn sy * (Zpos my * 2 ^ (ey + 1074)))
    (SFadd prec emax (S754_finite sx mx ex) (S754_finite sy my ey)).
Proof.
  intros Hx Hy. cbn [SFadd]. set (ez := Z.min ex ey).
  eexists _, ez. split; [lia|]. split; [|reflexivity].
  rewrite !shl_align_le by lia.
  assert (Ex : Zpos mx * 2 ^ (ex + 1074) =
               Zpos mx * 2 ^ (ex - ez) * 2 ^ (ez + 1074)).
  { rewrite <- Z.mul_assoc, <- pow2_split by lia. do 2 f_equal. lia. }
  assert (Ey : Zpos my * 2 ^ (ey + 1074) =
               Zpos my * 2 ^ (ey - ez) * 2 ^ (ez + 1074)).
  { rewrite <- Z.mul_assoc, <- pow2_split by lia. do 2 f_equal. lia. }
  rewrite Ex, Ey.
  generalize (Zpos mx * 2 ^ (ex - ez)) (Zpos my * 2 ^ (ey - ez))
    (2 ^ (ez + 1074)).
  intros a b p. unfold sgn.
  change (IntDef.Z.add ?u ?w) with (u + w).
  destruct sx, sy; cbn [cond_Zopp];
    change (IntDef.Z.opp ?u) with (- u); lia.
Qed.

Lemma SFadd_integers x y dx dy :
  valid_binary x = true -> valid_binary y = true ->
  ord x = Some (dx * 2 ^ 1074) -> ord y = Some (dy * 2 ^ 1074) ->
  Z.abs dx < 2 ^ 53 -> Z.abs dy < 2 ^ 53 -> Z.abs (dx + dy) < 2 ^ 53 ->
  ord (SFadd prec emax x y) = Some ((dx + dy) * 2 ^ 1074).
Proof.
  intros Hx Hy Ox Oy Hdx Hdy Hd.
  pose proof (integer_below_INF dx Hdx) as Bx.
  pose proof (integer_below_INF dy Hdy) as By.
  rewrite Z.mul_add_distr_r.
  destruct x as [sx|sx| |sx mx ex], y as [sy|sy| |sy my ey];
    cbn [valid_binary ord] in Hx, Hy, Ox, Oy; simplify_eq;
    try (destruct sx; lia); try (destruct sy; lia).
  - cbn [SFadd]. replace (dx * 2 ^ 1074) with 0 by lia.
    replace (dy * 2 ^ 1074) with 0 by lia. by destruct sx, sy.
  - cbn [SFadd ord]. f_equal. lia.
  - cbn [SFadd ord]. f_equal. lia.
  - destruct (finite_scaled mx ex Hx) as (Hex & _).
    destruct (finite_scaled my ey Hy) as (Hey & _).
    apply (exact_round_small _ _ (dx + dy) 0); [|lia|done|lia].
    replace (dx * 2 ^ 1074 + dy * 2 ^ 1074)
      with (sgn sx * (Zpos mx * 2 ^ (ex + 1074)) +
            sgn sy * (Zpos my * 2 ^ (ey + 1074)))
      by (unfold sgn; lia).
    apply SFadd_finite; lia.
Qed.

(** An aligned mantissa whose value a mantissa below 2^53 represents is
    rounded to that value. *)
Lemma binary_round_aux_exact s m e d :
  aligned (Zpos m) e ->
  Zpos m * 2 ^ (e + 1074) = Zpos d * 2 ^ 1074 -> -1074 <= e ->
  Zpos d < 2 ^ 53 ->
  ord (binary_round_aux prec emax s (Zpos m) e loc_Exact) =
  Some (sgn s * (Zpos d * 2 ^ 1074)).
Proof.
  intros Hal Hval He Hd.
  destruct (aligned_pair_spec d 0 ltac:(lia)) as (Hal' & Hz & _ & _).
  pose proof (scaled_pair d 0 ltac:(lia)) as Hval'.
  pose proof (binary_round_small s d 0 Hd ltac:(lia)) as Hsmall.
  rewrite binary_round_pair in Hsmall.
  cbv zeta in *.
  set (mz := fst (aligned_pair d 0)) in *.
  set (ez := snd (aligned_pair d 0)) in *.
  assert (Hle : forall N1 e1 N2 e2,
            -1074 <= e1 -> -1074 <= e2 ->
            N1 * 2 ^ (e1 + 1074) = N2 * 2 ^ (e2 + 1074) ->
            val_le N1 1 e1 N2 1 e2).
  { intros N1 e1 N2 e2 H1 H2 Heq.
    apply (val_le_intro _ _ _ _ _ _ (e1 + e2 + 1074)); try lia.
    replace (e1 + e2 + 1074 - e2) with (e1 + 1074) by lia.
    replace (e1 + e2 + 1074 - e1) with (e2 + 1074) by lia. lia. }
  destruct (binary_round_aux_mono (Zpos m) 1 (Zpos m) e (Zpos mz) 1 (Zpos mz) ez
              loc_Exact loc_Exact)
    as (g1 & g2 & _ & G12 & _ & O1 & O2); try lia;
    try (symmetry; apply frac_record_exact); try done.
  { apply Hle; lia. }
  destruct (binary_round_aux_mono (Zpos mz) 1 (Zpos mz) ez (Zpos m) 1 (Zpos m) e
              loc_Exact loc_Exact)
    as (g2' & g1' & _ & G21 & _ & O2' & O1'); try lia;
    try (symmetry; apply frac_record_exact); try done.
  { apply Hle; lia. }
  pose proof (O1 false) as A1. pose proof (O1' false) as A1'.
  pose proof (O2 false) as A2. pose proof (O2' false) as A2'.
  rewrite A1 in A1'. rewrite A2 in A2'.
  assert (g1 = g2) by (simplify_eq; lia). subst g2.
  rewrite O1, <- O2. exact Hsmall.
Qed.

(** A valid number whose value is a whole number [0 <= d < 2^53] is a zero
    or a positive finite number. *)
Lemma whole_number_cases x d :
  valid_binary x = true -> ord x = Some (d * 2 ^ 1074) -> 0 <= d < 2 ^ 53 ->
  (d = 0 /\ exists s, x = S754_zero s) \/
  (1 <= d /\ exists m e,
     x = S754_finite false m e /\ bounded prec emax m e = true /\
     Zpos m * 2 ^ (e + 1074) = d * 2 ^ 1074).
Proof.
  intros Hx Ox Hd. pose proof INF_pos as HI.
  pose proof (pow2_pos 1074 ltac:(lia)) as HP.
  pose proof (integer_below_INF d ltac:(lia)) as B.
  destruct x as [s|s| |s m e]; cbn [valid_binary ord] in *; simplify_eq.
  - left. split; [nia|by exists s].
  - destruct s; lia.
  - destruct (finite_scaled m e Hx) as (_ & Bm & _).
    destruct s; [nia|]. right. split; [nia|].
    exists m, e. repeat split; [done|lia].
Qed.

(** A whole number at least 1 has a normal mantissa. *)
Lemma whole_number_normal m e d :
  bounded prec emax m e = true ->
  Zpos m * 2 ^ (e + 1074) = d * 2 ^ 1074 -> 1 <= d ->
  -53 < e /\ 2 ^ 52 <= Zpos m.
Proof.
  intros Hb E Hd1.
  destruct (finite_scaled m e Hb) as (He & _ & Hm & Hn).
  assert (He' : -53 < e).
  { destruct (Z_lt_le_dec (-53) e) as [|Hsmall]; [done|exfalso].
    assert (2 ^ 53 * 2 ^ (e + 1074) <= 2 ^ 1074).
    { rewrite <- pow2_split by lia. apply pow2_le. lia. }
    pose proof (pow2_pos (e + 1074) ltac:(lia)).
    pose proof (pow2_pos 1074 ltac:(lia)). nia. }
  split; [done|]. apply Hn. lia.
Qed.

Lemma SFmul_integers x y dx dy :
  valid_binary x = true -> valid_binary y = true ->
  ord x = Some (dx * 2 ^ 1074) -> ord y = Some (dy * 2 ^ 1074) ->
  0 <= dx < 2 ^ 53 -> 0 <= dy < 2 ^ 53 -> dx * dy < 2 ^ 53 ->
  ord (SFmul prec emax x y) = Some (dx * dy * 2 ^ 1074).
Proof.
  intros Hx Hy Ox Oy Hdx Hdy Hd.
  destruct (whole_number_cases x dx Hx Ox Hdx)
    as [[-> [sx ->]]|(Hdx1 & mx & ex & -> & Bx & Ex)];
  destruct (whole_number_cases y dy Hy Oy Hdy)
    as [[-> [sy ->]]|(Hdy1 & my & ey & -> & By & Ey)];
    try (cbn [SFmul ord]; f_equal; lia).
  destruct (whole_number_normal mx ex dx Bx Ex Hdx1) as [Hex Hnx].
  destruct (whole_number_normal my ey dy By Ey Hdy1) as [Hey Hny].
  cbn [SFmul xorb].
  destruct (dx * dy) as [|d|d] eqn:Hprod; try nia.
  change (IntDef.Z.add ex ey) with (ex + ey).
  change (PosDef.Pos.mul mx my) with (mx * my)%positive.
  rewrite (binary_round_aux_exact false (mx * my) (ex + ey) d);
    [unfold sgn; f_equal; lia| | |lia|lia].
  - by apply product_aligned.
  - rewrite Pos2Z.inj_mul.
    assert (E : Zpos mx * Zpos my * 2 ^ (ex + ey + 1074) * 2 ^ 1074 =
                Zpos d * 2 ^ 1074 * 2 ^ 1074).
    { rewrite <- Hprod.
      replace (Zpos mx * Zpos my * 2 ^ (ex + ey + 1074) * 2 ^ 1074)
        with (Zpos mx * Zpos my * (2 ^ (ex + ey + 1074) * 2 ^ 1074)) by ring.
      rewrite <- (pow2_split (ex + ey + 1074) 1074) by lia.
      replace (ex + ey + 1074 + 1074) with ((ex + 1074) + (ey + 1074)) by lia.
      rewrite (pow2_split (ex + 1074) (ey + 1074)) by lia.
      replace (Zpos mx * Zpos my * (2 ^ (ex + 1074) * 2 ^ (ey + 1074)))
        with ((Zpos mx * 2 ^ (ex + 1074)) * (Zpos my * 2 ^ (ey + 1074)))
        by ring.
      rewrite Ex, Ey. ring. }
    pose proof (pow2_pos 1074 ltac:(lia)). nia.
Qed.

(** ** Whole numbers as doubles *)

(** A double whose value is the whole number [v >= 1] is [number_of_Z v]. *)
Lemma number_of_Z_unique (x : float) v :
  ord (Prim2SF x) = Some (v * 2 ^ 1074) -> 1 <= v < 2 ^ 53 ->
  x = number_of_Z v.
Proof.
  intros Ox Hv. apply Prim2SF_inj.
  apply (ord_inj _ _ (v * 2 ^ 1074)); try apply Prim2SF_valid; [done| |].
  - apply number_of_Z_value. lia.
  - pose proof (pow2_pos 1074 ltac:(lia)). nia.
Qed.

Lemma number_of_Z_leb a b :
  0 <= a < 2 ^ 53 -> 0 <= b < 2 ^ 53 ->
  (number_of_Z a <=? number_of_Z b)%float = (a <=? b).
Proof.
  intros Ha Hb. pose proof (pow2_pos 1074 ltac:(lia)) as HP.
  pose proof (leb_ord (number_of_Z a) (number_of_Z b)) as H.
  unfold ord_le in H. rewrite !number_of_Z_value in H by done.
  destruct (Z.leb_spec a b).
  - apply H. nia.
  - destruct (number_of_Z a <=? number_of_Z b)%float; [|done].
    exfalso. pose proof (proj1 H eq_refl). nia.
Qed.

Lemma sub_window_value z :
  2000 <= z < 2 ^ 53 ->
  ord (Prim2SF (number_of_Z z - WINDOW_DURATION)) = Some ((z - 2000) * 2 ^ 1074).
Proof.
  intros Hz. assert (H53 : 2000 < 2 ^ 53) by done.
  rewrite FloatAxioms.sub_spec.
  apply SFsub_integers; try apply Prim2SF_valid;
    [apply number_of_Z_value; lia|apply WINDOW_DURATION_value|lia..].
Qed.

(** On a clock of whole milliseconds the start of the window is the whole
    number [now - 2000]. *)
Lemma sub_window_integer z :
  2000 <= z < 2 ^ 53 ->
  (number_of_Z z - WINDOW_DURATION)%float = number_of_Z (z - 2000).
Proof.
  intros Hz. destruct (Z.eq_dec z 2000) as [->|Hne]; [reflexivity|].
  apply number_of_Z_unique; [by apply sub_window_value|lia].
Qed.

Lemma number_of_nat_value i :
  Z.of_nat i < 2 ^ 53 ->
  ord (Prim2SF (number_of_nat i)) = Some (Z.of_nat i * 2 ^ 1074).
Proof. intros Hi. apply (of_uint63_value (Z.of_nat i)). lia. Qed.

Lemma sampleInterval_value :
  ord (Prim2SF sampleInterval) = Some (4 * 2 ^ 1074).
Proof. vm_compute. reflexivity. Qed.

(** Reading [i] of a batch whose base timestamp is a whole number of
    milliseconds gets the whole number [t + 4 i]. *)
Lemma sample_timestamp_integer tz i :
  0 <= tz -> tz + 4 * Z.of_nat i < 2 ^ 53 ->
  (number_of_Z tz + number_of_nat i * sampleInterval)%float =
  number_of_Z (tz + 4 * Z.of_nat i).
Proof.
  intros Htz Hlt.
  destruct (Z.eq_dec (tz + 4 * Z.of_nat i) 0) as [H0|Hne].
  - assert (tz = 0) as -> by lia. assert (i = 0%nat) as -> by lia.
    reflexivity.
  - apply number_of_Z_unique; [|lia].
    rewrite FloatAxioms.add_spec, FloatAxioms.mul_spec.
    replace (tz + 4 * Z.of_nat i) with (tz + Z.of_nat i * 4) by lia.
    assert (Hmul : ord (SF64mul (Prim2SF (number_of_nat i))
                          (Prim2SF sampleInterval)) =
                   Some (Z.of_nat i * 4 * 2 ^ 1074)).
    { apply SFmul_integers; try apply Prim2SF_valid; try lia.
      - apply number_of_nat_value. lia.
      - apply sampleInterval_value. }
    apply SFadd_integers; try lia.
    + apply Prim2SF_valid.
    + rewrite <- FloatAxioms.mul_spec. apply Prim2SF_valid.
    + apply number_of_Z_value. lia.
    + exact Hmul.
Qed.

End Float64More.

(** ** Ring buffer: lemmas *)

Section RingBufferFacts.

Lemma pushes_snoc ps s rb : pushes (ps ++ [s]) rb = push s (pushes ps rb).
Proof. unfold pushes. by rewrite foldl_snoc. Qed.

Lemma pushes_cons s ps rb : pushes (s :: ps) rb = pushes ps (push s rb).
Proof. done. Qed.

Lemma pushes_capacity ps rb : capacity (pushes ps rb) = capacity rb.
Proof.
  revert rb. induction ps as [|s ps IH]; intros rb; [done|].
  by rewrite pushes_cons, IH.
Qed.

Lemma new_wf c : 0 < c -> wf (RingBuffer_new c).
Proof.
  intros Hc. split.
  - cbn. unfold JsArray.fill, JsArray.new.
    by rewrite length_fmap, length_replicate.
  - exists 0. by split.
Qed.

Lemma push_in_range s rb p :
  wf rb -> pointer rb = At p ->
  p < capacity rb /\
  buffer (push s rb) = <[p := Some s]> (buffer rb) /\
  pointer (push s rb) = At ((p + 1) mod capacity rb).
Proof.
  intros [Hlen (q & Hq & Hlt)] Hp.
  assert (q = p) as -> by congruence.
  split; [done|]. unfold push; cbn. rewrite Hp. cbn. split.
  - rewrite decide_True by lia. done.
  - destruct (capacity rb) eqn:E; [lia|]. done.
Qed.

Lemma push_wf s rb : wf rb -> wf (push s rb).
Proof.
  intros Hwf. destruct (wf_pointer _ Hwf) as (p & Hp & Hlt).
  destruct (push_in_range s rb p Hwf Hp) as (_ & Hb & Hn).
  split.
  - rewrite Hb, length_insert. apply Hwf.
  - exists ((p + 1) mod capacity rb). split; [done|].
    cbn. apply Nat.mod_upper_bound. lia.
Qed.

Lemma pushes_wf ps rb : wf rb -> wf (pushes ps rb).
Proof.
  revert rb. induction ps as [|s ps IH]; intros rb Hwf; [done|].
  rewrite pushes_cons. apply IH. by apply push_wf.
Qed.

(** One push rotates the view returned by [getArray]: the oldest sample
    leaves at the front and the new one enters at the back. *)
Lemma getArray_push s rb :
  wf rb -> getArray (push s rb) = drop 1 (getArray rb) ++ [Some s].
Proof.
  intros Hwf. destruct (wf_pointer _ Hwf) as (p & Hp & Hlt).
  destruct (push_in_range s rb p Hwf Hp) as (_ & Hb & Hn).
  pose proof (wf_length _ Hwf) as Hlen.
  unfold getArray, JsArray.slice_from, JsArray.slice_to.
  rewrite Hb, Hn, Hp. cbn [JsArray.to_integer].
  set (b := buffer rb) in *. set (c := capacity rb) in *.
  assert (Hdrop : drop 1 (drop p b ++ take p b) = drop (S p) b ++ take p b).
  { rewrite drop_app_le by (rewrite length_drop; lia).
    by rewrite drop_drop, Nat.add_1_r. }
  rewrite Hdrop.
  destruct (decide (p + 1 = c)) as [Heq|Hne].
  - rewrite Heq, Nat.Div0.mod_same. cbn [drop take].
    rewrite app_nil_r, (drop_ge b (S p)) by lia. cbn [app].
    rewrite insert_take_drop by lia.
    by rewrite (drop_ge b (S p)) by lia.
  - rewrite Nat.mod_small by lia. rewrite Nat.add_1_r.
    rewrite drop_insert_lt by lia. rewrite <- app_assoc. f_equal.
    rewrite (take_S_r _ _ (Some s)).
    + by rewrite take_insert_ge by lia.
    + apply list_lookup_insert_eq. lia.
Qed.

(** After [n] pushes into a fresh buffer of capacity [c > 0], [getArray] is
    the last [c] entries of the initial zero samples followed by the pushed
    samples. *)
Lemma getArray_pushes c ps :
  0 < c ->
  getArray (pushes ps (RingBuffer_new c)) =
  Some <$> drop (length ps) (replicate c zero_sample ++ ps).
Proof.
  intros Hc. induction ps as [|s ps IH] using rev_ind.
  - cbn. unfold getArray, JsArray.slice_from, JsArray.slice_to; cbn.
    unfold JsArray.fill, JsArray.new.
    rewrite !app_nil_r, fmap_replicate.
    clear. induction c; cbn; by f_equal.
  - rewrite pushes_snoc, getArray_push by (apply pushes_wf, new_wf; done).
    rewrite IH, length_app. cbn [length].
    rewrite app_assoc.
    rewrite (drop_app_le _ [s] (length ps + 1))
      by (rewrite length_app, length_replicate; lia).
    rewrite fmap_app. cbn [fmap list_fmap]. f_equal.
    by rewrite <- (fmap_drop _ 1), drop_drop.
Qed.

(** Once [c] samples have been pushed, none of the initial zero samples is
    left. *)
Lemma getArray_full c ps :
  0 < c -> c <= length ps ->
  getArray (pushes ps (RingBuffer_new c)) = Some <$> drop (length ps - c) ps.
Proof.
  intros Hc Hn. rewrite getArray_pushes by done.
  rewrite drop_app_ge by (rewrite length_replicate; lia).
  by rewrite length_replicate.
Qed.

(** The slot under the pointer is the front of [getArray]. *)
Lemma head_getArray rb p :
  wf rb -> pointer rb = At p -> head (getArray rb) = buffer rb !! p.
Proof.
  intros Hwf Hp. destruct (wf_pointer _ Hwf) as (q & Hq & Hlt).
  assert (q = p) as -> by congruence.
  pose proof (wf_length _ Hwf) as Hlen.
  unfold getArray, JsArray.slice_from, JsArray.slice_to. rewrite Hp.
  cbn [JsArray.to_integer].
  assert (buffer rb !! p = drop p (buffer rb) !! 0) as ->
    by (rewrite lookup_drop; f_equal; lia).
  destruct (drop p (buffer rb)) eqn:E; [|done].
  apply (f_equal length) in E. rewrite length_drop in E. cbn in E. lia.
Qed.

End RingBufferFacts.

(** ** Ring buffer: the specification's claims *)

(** C10: for a ring buffer constructed with capacity [c > 0] the pointer is a
    number with [0 <= pointer < c] at construction, every [push] preserves
    that, and so after any run of pushes the pointer is below the length of
    the underlying array: [push] writes inside it and leaves its length
    alone. *)
Theorem pointer_invariant (c : nat) :
  0 < c ->
  pointer_in_range (RingBuffer_new c) /\
  (forall rb s,
     capacity rb = c -> pointer_in_range rb -> pointer_in_range (push s rb)) /\
  (forall ps s,
     let rb := pushes ps (RingBuffer_new c) in
     exists p,
       pointer rb = At p /\ p < c /\ p < length (buffer rb) /\
       length (buffer (push s rb)) = length (buffer rb)).
Proof.
  intros Hc. split; [apply new_wf, Hc|]. split.
  - intros rb s Hcap (p & Hp & Hlt). unfold pointer_in_range, push; cbn.
    rewrite Hp. destruct (capacity rb) as [|k] eqn:E; [lia|].
    exists ((p + 1) mod S k). split; [done|].
    apply Nat.mod_upper_bound. lia.
  - intros ps s rb.
    assert (Hwf : wf rb) by (apply pushes_wf, new_wf, Hc).
    destruct (wf_pointer _ Hwf) as (p & Hp & Hlt).
    pose proof (wf_length _ Hwf) as Hlen.
    assert (Hcap : capacity rb = c) by apply pushes_capacity.
    exists p. repeat split; [done|lia|lia|].
    destruct (push_in_range s rb p Hwf Hp) as (_ & Hb & _).
    by rewrite Hb, length_insert.
Qed.

Lemma pointer_invariant_witness :
  0 < 2 /\
  exists p,
    pointer (pushes [sample1; sample2; sample3] (RingBuffer_new 2)) = At p /\ p < 2.
Proof.
  split; [lia|].
  destruct (pointer_invariant 2 ltac:(lia)) as (_ & _ & H).
  destruct (H [sample1; sample2; sample3] sample1) as (p & Hp & Hlt & _).
  exists p. split; assumption.
Defined.

(** C3, amended to positive capacities: after any run of pushes on a ring
    buffer constructed with capacity [c > 0], the underlying array still has
    length [c] and [getArray] returns [c] entries. *)
Theorem buffer_length_constant (c : nat) (ps : list Sample) :
  0 < c ->
  length (buffer (pushes ps (RingBuffer_new c))) = c /\
  length (getArray (pushes ps (RingBuffer_new c))) = c.
Proof.
  intros Hc.
  assert (Hwf : wf (pushes ps (RingBuffer_new c))) by (apply pushes_wf, new_wf, Hc).
  pose proof (wf_length _ Hwf) as Hlen. rewrite pushes_capacity in Hlen.
  split; [exact Hlen|].
  rewrite getArray_pushes by done.
  rewrite length_fmap, length_drop, length_app, length_replicate. lia.
Qed.

Lemma buffer_length_constant_witness :
  0 < 2 /\
  length (buffer (pushes [sample1; sample2; sample3] (RingBuffer_new 2))) = 2 /\
  length (getArray (pushes [sample1; sample2; sample3] (RingBuffer_new 2))) = 2.
Proof.
  split; [lia|]. apply (buffer_length_constant 2 [sample1; sample2; sample3]). lia.
Defined.

(** C3 as stated fails at capacity 0: the first push writes index 0 of an
    empty array, which grows to length 1, and [getArray] returns 1 entry. *)
Lemma buffer_length_zero_capacity :
  length (buffer (pushes [sample1] (RingBuffer_new 0))) = 1 /\
  length (getArray (pushes [sample1] (RingBuffer_new 0))) = 1 /\
  ~ (forall c ps,
       length (buffer (pushes ps (RingBuffer_new c))) = c /\
       length (getArray (pushes ps (RingBuffer_new c))) = c).
Proof.
  split; [reflexivity|]. split; [reflexivity|].
  intros H. destruct (H 0 [sample1]) as [H0 _]. cbn in H0. discriminate.
Qed.

(** C8, amended to positive capacities: after [n >= c] pushes on a ring buffer
    constructed with capacity [c > 0], [getArray] (the slice from the pointer
    on, followed by the slice before it) is exactly the last [c] pushed
    samples in push order, oldest first and newest last. *)
Theorem getArray_last_pushes (c : nat) (ps : list Sample) :
  0 < c -> c <= length ps ->
  let rb := pushes ps (RingBuffer_new c) in
  getArray rb = Some <$> drop (length ps - c) ps /\
  length (drop (length ps - c) ps) = c /\
  getArray rb =
    JsArray.slice_from (buffer rb) (pointer rb) ++
    JsArray.slice_to (buffer rb) (pointer rb).
Proof.
  intros Hc Hn rb. split; [|split; [|reflexivity]].
  - by apply getArray_full.
  - rewrite length_drop. lia.
Qed.

Lemma getArray_last_pushes_witness :
  0 < 2 /\ 2 <= length [sample1; sample2; sample3] /\
  getArray (pushes [sample1; sample2; sample3] (RingBuffer_new 2)) = [Some sample2; Some sample3].
Proof.
  split; [lia|]. split; [cbn; lia|].
  apply (getArray_last_pushes 2 [sample1; sample2; sample3]); cbn; lia.
Defined.

(** C8 as stated fails at capacity 0: after one push [getArray] returns that
    sample, not the last 0 pushed samples.  (The pointer is NaN by then:
    [slice(NaN)] is the whole array.) *)
Lemma getArray_zero_capacity :
  0 <= length [sample1] /\
  pointer (pushes [sample1] (RingBuffer_new 0)) = NotANumber /\
  getArray (pushes [sample1] (RingBuffer_new 0)) = [Some sample1] /\
  Some <$> drop (length [sample1] - 0) [sample1] = @nil (option Sample) /\
  ~ (forall c ps,
       c <= length ps ->
       getArray (pushes ps (RingBuffer_new c)) = Some <$> drop (length ps - c) ps).
Proof.
  split; [cbn; lia|]. do 3 (split; [reflexivity|]).
  intros H. specialize (H 0 [sample1] ltac:(cbn; lia)). cbn in H. discriminate.
Qed.

(** C1: on a ring buffer of capacity [c > 0] that has received [n >= c]
    pushes, the slot under the pointer holds the oldest retained sample, the
    one pushed exactly [c] pushes ago (it is also the first entry of
    [getArray]); the next push stores its sample in that slot and leaves every
    other slot as it was. *)
Theorem push_overwrites_oldest (c : nat) (ps : list Sample) (s : Sample) :
  0 < c -> c <= length ps ->
  let rb := pushes ps (RingBuffer_new c) in
  exists p old,
    pointer rb = At p /\ p < c /\
    ps !! (length ps - c) = Some old /\
    buffer rb !! p = Some (Some old) /\
    head (getArray rb) = Some (Some old) /\
    buffer (push s rb) !! p = Some (Some s) /\
    (forall i, i <> p -> buffer (push s rb) !! i = buffer rb !! i).
Proof.
  intros Hc Hn rb.
  assert (Hwf : wf rb) by (apply pushes_wf, new_wf, Hc).
  destruct (wf_pointer _ Hwf) as (p & Hp & Hlt).
  pose proof (wf_length _ Hwf) as Hlen.
  assert (Hcap : capacity rb = c) by apply pushes_capacity.
  destruct (lookup_lt_is_Some_2 ps (length ps - c)) as [old Hold]; [lia|].
  pose proof (getArray_full c ps Hc Hn) as Hget. fold rb in Hget.
  assert (Hhead : head (getArray rb) = Some (Some old)).
  { rewrite Hget. rewrite (drop_S _ old) by done. done. }
  destruct (push_in_range s rb p Hwf Hp) as (_ & Hb & _).
  exists p, old. repeat split; try done.
  - lia.
  - by rewrite <- (head_getArray rb p).
  - rewrite Hb. apply list_lookup_insert_eq. lia.
  - intros i Hi. rewrite Hb. by apply list_lookup_insert_ne.
Qed.

Lemma push_overwrites_oldest_witness :
  0 < 2 /\ 2 <= length [sample1; sample2; sample3] /\
  exists p old,
    pointer (pushes [sample1; sample2; sample3] (RingBuffer_new 2)) = At p /\ p < 2 /\
    [sample1; sample2; sample3] !! (length [sample1; sample2; sample3] - 2) = Some old /\
    buffer (pushes [sample1; sample2; sample3] (RingBuffer_new 2)) !! p = Some (Some old) /\
    head (getArray (pushes [sample1; sample2; sample3] (RingBuffer_new 2))) = Some (Some old) /\
    buffer (push sample1 (pushes [sample1; sample2; sample3] (RingBuffer_new 2))) !! p = Some (Some sample1) /\
    (forall i, i <> p ->
       buffer (push sample1 (pushes [sample1; sample2; sample3] (RingBuffer_new 2))) !! i =
       buffer (pushes [sample1; sample2; sample3] (RingBuffer_new 2)) !! i).
Proof.
  split; [lia|]. split; [cbn; lia|].
  apply (push_overwrites_oldest 2 [sample1; sample2; sample3] sample1); cbn; lia.
Defined.

(** ** The message handler: lemmas *)

Section HandlerFacts.

Lemma with_dataRef_same st : with_dataRef (dataRef st) st = st.
Proof. by destruct st. Qed.

(** The inner loop on a channel that has a buffer pushes every reading. *)
Lemma inner_loop_pushes t k channel : forall start st rb,
  dataRef st !! k = Some rb ->
  forEach_from (fun value i => dataRef_push k (make_sample t value i))
    start channel st =
  (Normal tt,
   with_dataRef
     (<[k := pushes (imap (fun i v => make_sample t v (start + i)) channel) rb]>
        (dataRef st)) st).
Proof.
  induction channel as [|v channel IH]; intros start st rb Hk.
  - cbn. by rewrite list_insert_id, with_dataRef_same.
  - cbn [forEach_from]. unfold bind at 1. unfold dataRef_push at 1.
    rewrite Hk.
    assert (Hlt : k < length (dataRef st)) by (by eapply lookup_lt_Some).
    erewrite IH by (cbn; by apply list_lookup_insert_eq).
    unfold with_dataRef; cbn. rewrite list_insert_insert_eq.
    rewrite Nat.add_0_r. unfold pushes. do 4 f_equal.
    apply imap_ext. intros i x _. cbn. f_equal. lia.
Qed.

(** On a channel without a buffer the first reading throws. *)
Lemma inner_loop_throws t k channel start st :
  dataRef st !! k = None ->
  forEach_from (fun value i => dataRef_push k (make_sample t value i))
    start channel st =
  (match channel with [] => Normal tt | _ :: _ => Throw TypeError end, st).
Proof.
  intros Hk. destruct channel as [|v channel]; [done|].
  cbn [forEach_from]. unfold bind, dataRef_push. by rewrite Hk.
Qed.

(** One round of the outer loop. *)
Lemma outer_step_pushes t ch chs k0 st rb0 :
  dataRef st !! k0 = Some rb0 ->
  forEach_from (store_channel t) k0 (ch :: chs) st =
  forEach_from (store_channel t) (S k0) chs
    (with_dataRef (<[k0 := pushes (channel_samples t ch) rb0]> (dataRef st)) st).
Proof.
  intros Hk0. cbn [forEach_from]. unfold bind at 1.
  unfold store_channel at 1. unfold forEach at 1.
  by rewrite (inner_loop_pushes t k0 ch 0 st rb0 Hk0).
Qed.

Lemma outer_step_throws t ch chs k0 st :
  dataRef st !! k0 = None ->
  forEach_from (store_channel t) k0 (ch :: chs) st =
  match ch with
  | [] => forEach_from (store_channel t) (S k0) chs st
  | _ :: _ => (Throw TypeError, st)
  end.
Proof.
  intros Hk0. cbn [forEach_from]. unfold bind at 1.
  unfold store_channel at 1. unfold forEach at 1.
  rewrite (inner_loop_throws t k0 ch 0 st Hk0). by destruct ch.
Qed.

(** The outer loop from channel index [k0] on: a buffer at index [k >= k0]
    receives the readings of its channel array, the others are untouched;
    the other refs are untouched too. *)
Lemma outer_loop t chs : forall k0 st,
  let st' := snd (forEach_from (store_channel t) k0 chs st) in
  length (dataRef st') = length (dataRef st) /\
  lastTimestampRef st' = lastTimestampRef st /\
  console st' = console st /\
  forall k rb,
    dataRef st !! k = Some rb ->
    dataRef st' !! k =
    Some (if decide (k0 <= k)
          then pushes (channel_samples t (default [] (chs !! (k - k0)))) rb
          else rb).
Proof.
  induction chs as [|ch chs IH]; intros k0 st; cbn zeta.
  - cbn. repeat split. intros k rb Hk. rewrite Hk. by case_decide.
  - destruct (dataRef st !! k0) as [rb0|] eqn:Hk0.
    + rewrite (outer_step_pushes t ch chs k0 st rb0 Hk0).
      set (st1 := with_dataRef _ st).
      destruct (IH (S k0) st1) as (Hlen & Hts & Hcon & Hget).
      cbn zeta in *. rewrite Hlen, Hts, Hcon. repeat split.
      * unfold st1; cbn. by rewrite length_insert.
      * intros k rb Hk.
        assert (Hlt : k0 < length (dataRef st)) by (by eapply lookup_lt_Some).
        destruct (decide (k = k0)) as [->|Hne].
        -- assert (rb = rb0) as -> by congruence.
           rewrite (Hget k0 _ (list_lookup_insert_eq _ _ _ Hlt)).
           rewrite decide_False, decide_True by lia.
           by rewrite Nat.sub_diag.
        -- assert (Hk1 : dataRef st1 !! k = Some rb)
             by (unfold st1; cbn; by rewrite list_lookup_insert_ne).
           rewrite (Hget k rb Hk1).
           destruct (decide (k0 <= k)).
           ++ rewrite decide_True by lia.
              replace (k - k0) with (S (k - S k0)) by lia. done.
           ++ by rewrite decide_False by lia.
    + rewrite (outer_step_throws t ch chs k0 st Hk0).
      assert (Hge : forall k rb, dataRef st !! k = Some rb -> k < k0).
      { intros k rb Hk. apply lookup_lt_Some in Hk.
        apply lookup_ge_None in Hk0. lia. }
      destruct ch as [|v ch].
      * destruct (IH (S k0) st) as (Hlen & Hts & Hcon & Hget).
        cbn zeta in *. repeat split; try done.
        intros k rb Hk. rewrite (Hget k rb Hk).
        pose proof (Hge k rb Hk). by rewrite !decide_False by lia.
      * cbn. repeat split. intros k rb Hk. rewrite Hk.
        pose proof (Hge k rb Hk). by rewrite decide_False by lia.
Qed.


(** Logging a caught error leaves the buffers alone. *)
Lemma try_catch_dataRef (body : M unit) st :
  dataRef (snd (try_catch body console_error st)) = dataRef (snd (body st)).
Proof. unfold try_catch. by destruct (body st) as [[[]|e] st']. Qed.

(** On arrays only, the loop over the entries is the loop over the channel
    arrays. *)
Lemma forEach_arrays t chs : forall k0 st,
  forEach_from (store_entry t) k0 (Some <$> chs) st =
  forEach_from (store_channel t) k0 chs st.
Proof.
  induction chs as [|ch chs IH]; intros k0 st; [done|].
  cbn [fmap list_fmap forEach_from store_entry]. unfold bind.
  destruct (store_channel t ch k0 st) as [[[]|e] st1]; [|done].
  apply IH.
Qed.

Lemma handleMessage_try_batch now data st :
  handleMessage_try now (Batch data) st =
  forEach_from (store_channel (batch_timestamp data)) 0 (channels data)
    {| dataRef := dataRef st; lastTimestampRef := now; console := console st |}.
Proof.
  unfold handleMessage_try, bind, JSON_parse, ret, set_lastTimestamp.
  cbn [parsed_channels parsed_timestamp]. apply forEach_arrays.
Qed.

(** The loop over entries of any kind leaves the state that the loop over
    the leading arrays leaves: it stops at the first entry that is not an
    array, if it gets there. *)
Lemma forEach_entries t entries : forall k0 st,
  snd (forEach_from (store_entry t) k0 entries st) =
  snd (forEach_from (store_channel t) k0 (leading_arrays entries) st).
Proof.
  induction entries as [|[ch|] entries IH]; intros k0 st; [done| |done].
  cbn [leading_arrays forEach_from store_entry]. unfold bind.
  destruct (store_channel t ch k0 st) as [[[]|e] st1]; [|done].
  apply IH.
Qed.

(** A value of the declared type is handled the same whichever way it is
    written. *)
Lemma handleMessage_arrays now data st :
  handleMessage now
    (Misshapen (Some (Some <$> channels data)) (batch_timestamp data)) st =
  handleMessage now (Batch data) st.
Proof. reflexivity. Qed.

(** A payload without a [channels] array: the TypeError is caught before
    anything is pushed. *)
Lemma handleMessage_no_channels now timestamp st :
  handleMessage now (Misshapen None timestamp) st =
  (Normal tt,
   {| dataRef := dataRef st; lastTimestampRef := now;
      console := TypeError :: console st |}).
Proof. reflexivity. Qed.

(** A payload with a [channels] array is stored as the batch of its leading
    arrays is. *)
Lemma handleMessage_entries now entries timestamp st :
  dataRef (snd (handleMessage now (Misshapen (Some entries) timestamp) st)) =
  dataRef (snd (handleMessage now
                  (Batch {| channels := leading_arrays entries;
                            batch_timestamp := timestamp |}) st)).
Proof.
  unfold handleMessage. rewrite !try_catch_dataRef, handleMessage_try_batch.
  cbn [channels batch_timestamp].
  unfold handleMessage_try, bind, JSON_parse, ret, set_lastTimestamp.
  cbn [parsed_channels parsed_timestamp]. unfold forEach.
  by rewrite forEach_entries.
Qed.

(** What [handleMessage] does to the buffers on a batch. *)
Lemma handleMessage_batch now data st :
  let st' := snd (handleMessage now (Batch data) st) in
  length (dataRef st') = length (dataRef st) /\
  forall k rb,
    dataRef st !! k = Some rb ->
    dataRef st' !! k =
    Some (pushes (channel_samples (batch_timestamp data)
                    (default [] (channels data !! k))) rb).
Proof.
  cbn zeta. unfold handleMessage.
  rewrite try_catch_dataRef, handleMessage_try_batch.
  set (st0 := {| dataRef := dataRef st; lastTimestampRef := now;
                 console := console st |}).
  destruct (outer_loop (batch_timestamp data) (channels data) 0 st0)
    as (Hlen & _ & _ & Hget).
  cbn zeta in *. split; [exact Hlen|].
  intros k rb Hk. rewrite (Hget k rb Hk).
  rewrite decide_True by lia. by rewrite Nat.sub_0_r.
Qed.

Lemma channel_samples_lookup t channel i v :
  channel !! i = Some v ->
  channel_samples t channel !! i = Some (make_sample t v i).
Proof.
  intros Hi. unfold channel_samples. by rewrite list_lookup_imap, Hi.
Qed.

End HandlerFacts.

(** ** The throttle: lemmas *)

Section ThrottleFacts.



(** The first message after mounting is handled on arrival. *)
Lemma first_message_handled t0 time ev :
  refs (step (mount t0) (Message time ev)) =
  snd (handleMessage (number_of_Z time) ev (initial_state (number_of_Z t0))).
Proof. reflexivity. Qed.



End ThrottleFacts.

(** ** The message handler: the specification's claims *)



Lemma last_getArray_push s rb :
  wf rb -> last (getArray (push s rb)) = Some (Some s).
Proof. intros Hwf. rewrite getArray_push by done. apply last_snoc. Qed.

(** C4, amended: when [handleMessage] processes a batch with base timestamp
    [t], a channel array that has a ring buffer (index [k] below the number
    of buffers, which is four) has its readings stored in that buffer, in
    order: the sample pushed for reading [i] has the raw reading as its value
    and [t + i * (1000 / 250)] as its timestamp, the sample interval
    [1000 / 250] being 4 ms, and right after that push it is the newest entry
    of the buffer.  There are as many buffers afterwards as before, so that a
    channel array at a further index has no buffer to be stored in. *)
Theorem stored_sample_shape (now : number) (data : EegBatchData) (st : state)
    (k i : nat) (rb : RingBuffer) (channel : list number) (v : number) :
  dataRef st !! k = Some rb ->
  channels data !! k = Some channel ->
  channel !! i = Some v ->
  let t := batch_timestamp data in
  let sample :=
    {| timestamp := (t + number_of_nat i * (1000 / 250))%float; value := v |} in
  let samples := channel_samples t channel in
  let st' := snd (handleMessage now (Batch data) st) in
  dataRef st' !! k = Some (pushes samples rb) /\
  samples !! i = Some sample /\
  (wf rb -> last (getArray (pushes (take (S i) samples) rb)) = Some (Some sample)) /\
  sampleInterval = 4%float /\
  length (dataRef st') = length (dataRef st) /\
  (forall k', length (dataRef st) <= k' -> dataRef st' !! k' = None) /\
  (forall now0, length (dataRef (initial_state now0)) = CHANNEL_COUNT).
Proof.
  intros Hk Hch Hi t sample samples st'.
  destruct (handleMessage_batch now data st) as (Hlen & Hget).
  cbn zeta in Hget, Hlen. fold st' in Hget, Hlen.
  rewrite (Hget k rb Hk), Hch. cbn [default].
  assert (Hs : samples !! i = Some sample)
    by (by apply channel_samples_lookup).
  split; [done|]. split; [done|]. split; [|split; [done|split; [done|split]]].
  - intros Hwf. rewrite (take_S_r _ _ _ Hs), pushes_snoc.
    apply last_getArray_push. by apply pushes_wf.
  - intros k' Hk'. apply lookup_ge_None. lia.
  - reflexivity.
Qed.

Lemma stored_sample_shape_witness :
  dataRef (snd (handleMessage 1000%float (Batch batch_example)
                  (initial_state 0%float))) !! 1 =
    Some (pushes (channel_samples 1000%float [1; -1]%float)
            (RingBuffer_new WINDOW_SIZE)) /\
  channel_samples 1000%float [1; -1]%float !! 1 =
    Some {| timestamp := (1000 + number_of_nat 1 * (1000 / 250))%float;
            value := (-1)%float |}.
Proof.
  pose proof (stored_sample_shape 1000%float batch_example
                (initial_state 0%float) 1 1 (RingBuffer_new WINDOW_SIZE)
                [1; -1]%float (-1)%float
                eq_refl eq_refl eq_refl) as (H1 & H2 & _).
  split; [exact H1 | exact H2].
Defined.


Lemma not_elem_of_by_test {A} (test : A -> bool) (x : A) (l : list A) :
  test x = true -> forallb (fun y => negb (test y)) l = true -> x ∉ l.
Proof.
  intros Hx Hl Hin. apply list_elem_of_In in Hin.
  rewrite forallb_forall in Hl. specialize (Hl x Hin).
  rewrite Hx in Hl. discriminate.
Qed.


(** C4 as stated fails for a channel array that has no ring buffer.  The
    batch [five_channels] has the reading 7 at position 0 of its channel
    array 4, after four channel arrays that are stored; the handler processes
    it, and then there is no buffer 4, and the sample of that reading (nor any
    sample of value 7) is in none of the four buffers. *)
Lemma fifth_channel_not_stored :
  let st' :=
    snd (handleMessage 1000%float (Batch five_channels) (initial_state 0%float)) in
  channels five_channels !! 4 = Some [7%float] /\
  dataRef st' !! 3 =
    Some (pushes [make_sample 1000 1 0] (RingBuffer_new WINDOW_SIZE)) /\
  dataRef st' !! 4 = None /\
  (forall rb, rb ∈ dataRef st' ->
     Some (make_sample 1000 7 0) ∉ getArray rb).
Proof.
  cbn zeta. split; [reflexivity|]. split; [vm_compute; reflexivity|].
  split; [vm_compute; reflexivity|].
  assert (H : forallb (fun rb =>
               forallb (fun y => negb (has_value 7 y)) (getArray rb))
             (dataRef (snd (handleMessage 1000%float (Batch five_channels)
                              (initial_state 0%float)))) = true)
    by (vm_compute; reflexivity).
  rewrite forallb_forall in H. intros rb Hrb.
  apply (not_elem_of_by_test (has_value 7)); [reflexivity|].
  apply H. by apply list_elem_of_In.
Qed.

(** ** Redraw: lemmas *)

Section DrawFacts.

Lemma new_dense c : dense (RingBuffer_new c).
Proof.
  split; cbn.
  - unfold JsArray.fill, JsArray.new. apply Forall_fmap, Forall_forall.
    intros x _. by eexists.
  - unfold JsArray.fill, JsArray.new. rewrite length_fmap. lia.
Qed.

Lemma push_dense s rb : dense rb -> dense (push s rb).
Proof.
  intros [Hsome Hptr]. unfold dense, push; cbn.
  destruct (pointer rb) as [p|]; cbn; [|done].
  assert (Hmod : forall k, (p + 1) mod S k <= p + 1)
    by (intros k; apply Nat.Div0.mod_le).
  destruct (decide (p < length (buffer rb))) as [Hlt|Hge].
  - split.
    + apply Forall_insert; [done|by eexists].
    + destruct (capacity rb) as [|k]; [done|].
      rewrite length_insert. specialize (Hmod k). lia.
  - assert (p = length (buffer rb)) as Hp by lia.
    rewrite Hp, Nat.sub_diag. cbn [replicate app]. split.
    + apply Forall_app. split; [done|]. constructor; [by eexists|constructor].
    + destruct (capacity rb) as [|k]; [done|].
      rewrite length_app. cbn [length]. rewrite <- Hp.
      specialize (Hmod k). lia.
Qed.

Lemma pushes_dense ps : forall rb, dense rb -> dense (pushes ps rb).
Proof.
  induction ps as [|s ps IH]; intros rb Hd; [done|].
  rewrite pushes_cons. by apply IH, push_dense.
Qed.

Lemma all_Some_fmap {A} (l : list (option A)) :
  Forall is_Some l -> exists l', l = Some <$> l'.
Proof.
  induction 1 as [|o l [x ->] _ [l' ->]]; [by exists []|].
  by exists (x :: l').
Qed.

(** [getArray] of a dense buffer has no [undefined] entry. *)
Lemma dense_getArray rb : dense rb -> exists l, getArray rb = Some <$> l.
Proof.
  intros [Hsome _]. apply all_Some_fmap.
  unfold getArray, JsArray.slice_from, JsArray.slice_to.
  apply Forall_app. split; [by apply Forall_drop|by apply Forall_take].
Qed.

Lemma filter_window_dense startTime now l :
  filter_window startTime now (Some <$> l) =
  Normal (List.filter (in_window startTime now) l).
Proof.
  induction l as [|s l IH]; [done|].
  cbn [fmap list_fmap filter_window List.filter].
  change (list_fmap _ _ Some l) with (Some <$> l). by rewrite IH.
Qed.

Lemma insert_sorted_perm {A} (cmp : A -> A -> number) x l :
  Permutation (insert_sorted cmp x l) (x :: l).
Proof.
  induction l as [|y l IH]; [done|]. cbn [insert_sorted].
  destruct (0 <? cmp x y)%float; [|done].
  rewrite IH. apply perm_swap.
Qed.

Lemma sort_perm {A} (cmp : A -> A -> number) l : Permutation (sort cmp l) l.
Proof.
  induction l as [|x l IH]; [done|]. cbn [sort foldr].
  rewrite insert_sorted_perm. by constructor.
Qed.

Lemma in_window_bounds startTime now s :
  in_window startTime now s = true <->
  (startTime <=? timestamp s)%float = true /\
  (timestamp s <=? now)%float = true.
Proof. unfold in_window. apply andb_true_iff. Qed.

(** On timestamps that passed the filter (none is NaN) the comparator is
    consistent with the order, so inserting keeps the list sorted. *)
Lemma insert_sorted_Sorted lo x l :
  (lo <=? timestamp x)%float = true ->
  Forall (fun s => (lo <=? timestamp s)%float = true) l ->
  Sorted timestamp_le l ->
  Sorted timestamp_le (insert_sorted by_timestamp x l).
Proof.
  intros Hx Hl Hs. induction l as [|y l IH]; cbn [insert_sorted].
  - by repeat constructor.
  - apply Forall_cons in Hl as [Hy Hl]. apply Sorted_inv in Hs as [Hs Hhd].
    unfold by_timestamp at 1. rewrite Float64.sub_positive.
    destruct (timestamp y <? timestamp x)%float eqn:Hlt.
    + constructor; [by apply IH|].
      apply Float64.leb_of_ltb in Hlt.
      destruct l as [|z l]; cbn [insert_sorted].
      * by constructor.
      * destruct (0 <? by_timestamp x z)%float; constructor; [|done].
        by apply HdRel_inv in Hhd.
    + constructor; [by constructor|]. constructor.
      by apply (Float64.leb_of_not_ltb lo lo).
Qed.

Lemma sort_Sorted lo l :
  Forall (fun s => (lo <=? timestamp s)%float = true) l ->
  Sorted timestamp_le (sort by_timestamp l).
Proof.
  induction 1 as [|x l Hx Hl IH]; cbn [sort foldr]; [constructor|].
  apply (insert_sorted_Sorted lo); [done| |done].
  eapply Permutation_Forall; [symmetry; apply sort_perm|done].
Qed.

#[local] Instance timestamp_le_trans : Transitive timestamp_le.
Proof. intros a b c. apply Float64.leb_trans. Qed.

(** What [select_samples] returns on a dense buffer. *)
Lemma select_samples_dense now rb l :
  getArray rb = Some <$> l ->
  select_samples now rb =
  Normal (sort by_timestamp
            (List.filter (in_window (now - WINDOW_DURATION) now) l)).
Proof.
  intros Hl. unfold select_samples. by rewrite Hl, filter_window_dense.
Qed.

Lemma vertices_plot now samples :
  vertices (plot now samples) = vertex now <$> samples.
Proof.
  unfold plot, vertices.
  assert (H : forall (f : nat -> Sample -> command),
             (forall i s, vertex_of (f i s) = Some (vertex now s)) ->
             omap vertex_of (imap f samples) = vertex now <$> samples).
  { induction samples as [|s l IH]; intros f Hf; [done|].
    cbn [imap omap list_omap]. rewrite Hf. cbn [fmap list_fmap]. f_equal.
    apply IH. intros i s'. apply Hf. }
  apply H. intros [|i] s; reflexivity.
Qed.

(** The vertices a channel's redraw plots: one per selected sample, in
    order, when there are at least two. *)
Lemma draw_channel_vertices now rb k samples :
  select_samples now rb = Normal samples ->
  exists cmds,
    draw_channel now rb k = Normal cmds /\
    vertices cmds =
      if decide (2 <= length samples) then vertex now <$> samples else [].
Proof.
  intros Hsel. unfold draw_channel. rewrite Hsel. eexists. split; [done|].
  destruct (decide (2 <= length samples)); [|done].
  unfold vertices. cbn [omap list_omap app vertex_of]. rewrite omap_app.
  fold (vertices (plot now samples)). rewrite vertices_plot. cbn.
  by rewrite app_nil_r.
Qed.

Lemma List_filter_perm {A} (f : A -> bool) l1 l2 :
  Permutation l1 l2 -> Permutation (List.filter f l1) (List.filter f l2).
Proof.
  induction 1 as [|x l1 l2 _ IH|x y l|l1 l2 l3 _ IH1 _ IH2];
    cbn [List.filter].
  - done.
  - destruct (f x); [by constructor|done].
  - destruct (f x), (f y); try done. apply perm_swap.
  - by etrans.
Qed.

(** The samples a dense buffer stores, and the view [getArray] gives of
    them: the same samples, from the pointer on. *)
Lemma dense_stored rb :
  dense rb ->
  exists stored view,
    buffer rb = Some <$> stored /\ getArray rb = Some <$> view /\
    Permutation view stored.
Proof.
  intros [Hsome _]. destruct (all_Some_fmap _ Hsome) as [stored Hst].
  set (p := JsArray.to_integer (pointer rb)).
  exists stored, (drop p stored ++ take p stored).
  split; [done|]. split.
  - unfold getArray, JsArray.slice_from, JsArray.slice_to. fold p.
    by rewrite Hst, fmap_app, fmap_drop, fmap_take.
  - by rewrite Permutation_app_comm, take_drop.
Qed.

(** What a redraw selects from a buffer that was constructed and pushed to:
    the stored samples that are in the window, sorted. *)
Lemma selected_of_stored (c : nat) (ps : list Sample) (now : number) :
  let rb := pushes ps (RingBuffer_new c) in
  exists stored view,
    buffer rb = Some <$> stored /\
    (0 < c ->
     Permutation stored (drop (length ps) (replicate c zero_sample ++ ps))) /\
    Permutation view stored /\
    select_samples now rb =
      Normal (sort by_timestamp
                (List.filter (in_window (now - WINDOW_DURATION) now) view)).
Proof.
  intros rb.
  destruct (dense_stored rb) as (stored & view & Hst & Hget & Hperm).
  { apply pushes_dense, new_dense. }
  exists stored, view. split; [done|]. split; [|split; [done|]].
  - intros Hc. rewrite <- Hperm.
    pose proof (getArray_pushes c ps Hc) as H. fold rb in H.
    rewrite Hget in H. by apply (inj (fmap Some)) in H as ->.
  - by apply select_samples_dense.
Qed.

End DrawFacts.

(** ** The horizontal scale: lemmas *)

Section ScaleMore.

(** [xScale] never decreases with the timestamp: each of its four roundings
    keeps or reverses the order. *)
Lemma xScale_mono now s1 s2 :
  is_finite now = true ->
  (timestamp s1 <=? timestamp s2)%float = true ->
  (xScale now s1 <=? xScale now s2)%float = true.
Proof.
  intros Hnow Hle. unfold xScale.
  apply Float64More.sub_from_mono; [reflexivity|].
  apply (Float64More.div_mono _ _ _ 8796093022208000 (-42));
    [reflexivity|done|].
  apply (Float64More.mul_mono _ _ _ 7036874417766400 (-44));
    [reflexivity|done|].
  by apply Float64More.sub_from_mono.
Qed.

Lemma xScale_now now s :
  is_finite now = true -> timestamp s = now -> xScale now s = GRAPH_WIDTH.
Proof.
  intros Hnow Hs. unfold xScale. by rewrite Hs, Float64More.sub_diag.
Qed.

Lemma xScale_start now s :
  (now - (now - WINDOW_DURATION))%float = WINDOW_DURATION ->
  timestamp s = (now - WINDOW_DURATION)%float -> xScale now s = 0%float.
Proof. intros Hex Hs. unfold xScale. by rewrite Hs, Hex. Qed.

Lemma xScale_bounds now s :
  (now - (now - WINDOW_DURATION))%float = WINDOW_DURATION ->
  in_window (now - WINDOW_DURATION) now s = true ->
  (0 <=? xScale now s)%float = true /\
  (xScale now s <=? GRAPH_WIDTH)%float = true.
Proof.
  intros Hex Hin. apply in_window_bounds in Hin as [Hlo Hhi].
  assert (Hnow : is_finite now = true)
    by (by apply (Float64More.sub_sub_finite now WINDOW_DURATION)).
  split.
  - rewrite <- (xScale_start now (mkSample (now - WINDOW_DURATION) 0) Hex eq_refl).
    by apply xScale_mono.
  - rewrite <- (xScale_now now (mkSample now 0) Hnow eq_refl).
    by apply xScale_mono.
Qed.

(** A later clock reading never moves a sample to the right. *)
Lemma xScale_scroll now1 now2 s :
  is_finite (timestamp s) = true ->
  (now1 <=? now2)%float = true ->
  (xScale now2 s <=? xScale now1 s)%float = true.
Proof.
  intros Hs Hle. unfold xScale.
  apply Float64More.sub_from_mono; [reflexivity|].
  apply (Float64More.div_mono _ _ _ 8796093022208000 (-42));
    [reflexivity|done|].
  apply (Float64More.mul_mono _ _ _ 7036874417766400 (-44));
    [reflexivity|done|].
  by apply Float64More.sub_to_mono.
Qed.

(** The two ends of the window on a clock of whole milliseconds. *)
Lemma xScale_whole_ms z v :
  (2000 <= z < 2 ^ 53)%Z ->
  xScale (number_of_Z z) (mkSample (number_of_Z z) v) = GRAPH_WIDTH /\
  xScale (number_of_Z z) (mkSample (number_of_Z (z - 2000)) v) = 0%float.
Proof.
  intros Hz. pose proof (Float64More.window_exact z Hz) as Hex. split.
  - apply xScale_now; [|done].
    by apply (Float64More.sub_sub_finite _ WINDOW_DURATION).
  - apply xScale_start; [done|]. cbn [timestamp].
    by rewrite Float64More.sub_window_integer.
Qed.

End ScaleMore.

(** ** Redraw: the specification's claims *)

(** What a redraw selects from a buffer that was constructed and pushed to. *)
Lemma select_samples_pushes (c : nat) (ps : list Sample) (now : number) :
  exists buffered,
    getArray (pushes ps (RingBuffer_new c)) = Some <$> buffered /\
    select_samples now (pushes ps (RingBuffer_new c)) =
      Normal (sort by_timestamp
                (List.filter (in_window (now - WINDOW_DURATION) now) buffered)).
Proof.
  destruct (dense_getArray (pushes ps (RingBuffer_new c))) as [l Hl].
  { apply pushes_dense, new_dense. }
  exists l. split; [done|]. by apply select_samples_dense.
Qed.

(** C6, amended: on a redraw at time [now], of a channel whose canvas has a
    context, the samples selected from the channel's buffer are exactly the
    samples the buffer stores with [now - 2000 <= timestamp <= now] (each as
    often as it is stored; the buffer stores the last [c] of the placeholders
    and the samples pushed); when at least two are selected, and only then,
    every selected sample is plotted, at
    [x = GRAPH_WIDTH - ((now - timestamp) * GRAPH_WIDTH / 2000)].  A sample of
    age 0 gets [x = GRAPH_WIDTH] and a sample of age 2000 ms gets [x = 0], on
    a clock of whole milliseconds in particular, and a later [now] never
    moves a sample to the right. *)
Theorem redraw_window (c : nat) (ps : list Sample) (now : number) (k : nat) :
  let rb := pushes ps (RingBuffer_new c) in
  let startTime := (now - 2000)%float in
  exists stored samples cmds,
    buffer rb = Some <$> stored /\
    (0 < c ->
     Permutation stored (drop (length ps) (replicate c zero_sample ++ ps))) /\
    select_samples now rb = Normal samples /\
    Permutation samples (List.filter (in_window startTime now) stored) /\
    (forall s,
       s ∈ samples <->
       s ∈ stored /\
       (startTime <=? timestamp s)%float = true /\
       (timestamp s <=? now)%float = true) /\
    draw_channel now rb k = Normal cmds /\
    vertices cmds =
      (if decide (2 <= length samples)
       then (fun s =>
               ((GRAPH_WIDTH - ((now - timestamp s) * GRAPH_WIDTH / 2000))%float,
                yScale (value s))) <$> samples
       else []) /\
    (forall now' s,
       (now' - timestamp s)%float = 0%float -> xScale now' s = GRAPH_WIDTH) /\
    (forall now' s,
       (now' - timestamp s)%float = 2000%float -> xScale now' s = 0%float) /\
    (forall now' s,
       is_finite now' = true -> timestamp s = now' -> xScale now' s = GRAPH_WIDTH) /\
    (forall z v,
       (2000 <= z < 2 ^ 53)%Z ->
       xScale (number_of_Z z) (mkSample (number_of_Z z) v) = GRAPH_WIDTH /\
       xScale (number_of_Z z) (mkSample (number_of_Z (z - 2000)) v) = 0%float) /\
    (forall now1 now2 s,
       is_finite (timestamp s) = true ->
       (now1 <=? now2)%float = true ->
       (xScale now2 s <=? xScale now1 s)%float = true).
Proof.
  intros rb startTime.
  destruct (selected_of_stored c ps now)
    as (stored & view & Hst & Hps & Hview & Hsel).
  fold rb in Hst, Hsel.
  destruct (draw_channel_vertices now rb k _ Hsel) as (cmds & Hdraw & Hv).
  set (samples := sort by_timestamp _) in *.
  assert (Hperm : Permutation samples
                    (List.filter (in_window startTime now) stored)).
  { unfold samples. rewrite sort_perm. by apply List_filter_perm. }
  exists stored, samples, cmds.
  split; [exact Hst|]. split; [exact Hps|]. split; [exact Hsel|].
  split; [exact Hperm|].
  split; [|split; [exact Hdraw|split; [exact Hv|]]].
  - intros s. rewrite Hperm, !list_elem_of_In, filter_In, in_window_bounds.
    tauto.
  - split; [|split; [|split; [|split]]].
    + intros now' s Hage. unfold xScale. by rewrite Hage.
    + intros now' s Hage. unfold xScale. by rewrite Hage.
    + intros now' s. apply xScale_now.
    + apply xScale_whole_ms.
    + apply xScale_scroll.
Qed.

(** C6 as stated fails for a lone sample.  With the placeholders older than
    the window, one sample of the buffer has its timestamp in
    [now - 2000, now]: the redraw selects it, and then draws the background
    and nothing else, so the sample gets no x coordinate: [draw] plots
    nothing unless it has selected two samples. *)
Lemma lone_sample_not_drawn :
  let rb := pushes [sample1; sample2; sample3] (RingBuffer_new 3) in
  getArray rb = [Some sample1; Some sample2; Some sample3] /\
  in_window (2010 - 2000) 2010 sample3 = true /\
  select_samples 2010 rb = Normal [sample3] /\
  draw_channel 2010 rb 0 = Normal [drawImage_background] /\
  vertices [drawImage_background] = [].
Proof. cbn zeta. repeat split. Qed.

Lemma StronglySorted_lookup {A} (R : A -> A -> Prop) (l : list A) :
  StronglySorted R l ->
  forall i j a b, i < j -> l !! i = Some a -> l !! j = Some b -> R a b.
Proof.
  induction 1 as [|x l Hl IH Hx]; intros i j a b Hij Ha Hb; [done|].
  destruct j as [|j]; [lia|]. cbn in Hb. destruct i as [|i]; cbn in Ha.
  - injection Ha as <-. rewrite Forall_forall in Hx.
    apply Hx. by eapply list_elem_of_lookup_2.
  - apply (IH i j); [lia|done|done].
Qed.

(** C7: on a redraw the samples the buffer stores that are in the window
    (all of them, each as often as it is stored) are put in nondecreasing
    order of timestamp (each at most its successor, and so at most every later
    one), and the polyline's vertices are those of the selected samples in
    that order. *)
Theorem polyline_sorted (c : nat) (ps : list Sample) (now : number) (k : nat) :
  let rb := pushes ps (RingBuffer_new c) in
  exists stored samples cmds,
    buffer rb = Some <$> stored /\
    (0 < c ->
     Permutation stored (drop (length ps) (replicate c zero_sample ++ ps))) /\
    select_samples now rb = Normal samples /\
    Permutation samples
      (List.filter (in_window (now - WINDOW_DURATION) now) stored) /\
    Sorted timestamp_le samples /\
    (forall i j a b,
       i < j -> samples !! i = Some a -> samples !! j = Some b ->
       (timestamp a <=? timestamp b)%float = true) /\
    draw_channel now rb k = Normal cmds /\
    vertices cmds =
      if decide (2 <= length samples) then vertex now <$> samples else [].
Proof.
  intros rb.
  destruct (selected_of_stored c ps now)
    as (stored & view & Hst & Hps & Hview & Hsel).
  fold rb in Hst, Hsel.
  destruct (draw_channel_vertices now rb k _ Hsel) as (cmds & Hdraw & Hv).
  set (samples := sort by_timestamp _) in *.
  assert (Hperm : Permutation samples
                    (List.filter (in_window (now - WINDOW_DURATION) now) stored)).
  { unfold samples. rewrite sort_perm. by apply List_filter_perm. }
  assert (Hsorted : Sorted timestamp_le samples).
  { apply (sort_Sorted (now - WINDOW_DURATION)%float).
    apply Forall_forall. intros s Hs.
    apply list_elem_of_In, filter_In in Hs as [_ Hs].
    by apply in_window_bounds in Hs as [Hs _]. }
  exists stored, samples, cmds. repeat split; try done.
  apply (StronglySorted_lookup timestamp_le).
  apply Sorted_StronglySorted; [apply timestamp_le_trans|done].
Qed.

(** ** The vertical scale: the specification's claims *)

Section ScaleFacts.

Lemma yScale_exact_affine (v : Q) : (yScale_exact v == 50 - (100 # 3) * v)%Q.
Proof. unfold yScale_exact. cbv zeta. field. Qed.

Lemma yScale_exact_decreasing (v1 v2 : Q) :
  (v1 < v2 -> yScale_exact v2 < yScale_exact v1)%Q.
Proof. intros H. rewrite !yScale_exact_affine. lra. Qed.

(** [yScale] on the bit-level specification: the constants are -1.5, 3 and
    100. *)
Lemma yScale_spec v :
  Prim2SF (yScale v) =
  SFsub prec emax (S754_finite false 7036874417766400 (-46))
    (SFmul prec emax
       (SFdiv prec emax
          (SFsub prec emax (Prim2SF v)
             (S754_finite true 6755399441055744 (-52)))
          (S754_finite false 6755399441055744 (-51)))
       (S754_finite false 7036874417766400 (-46))).
Proof.
  unfold yScale.
  rewrite FloatAxioms.sub_spec, FloatAxioms.mul_spec, FloatAxioms.div_spec,
    FloatAxioms.sub_spec.
  reflexivity.
Qed.

(** Each of the four roundings keeps the order, so [yScale] never increases. *)
Lemma yScale_decreasing v1 v2 :
  (v1 <=? v2)%float = true -> (yScale v2 <=? yScale v1)%float = true.
Proof.
  rewrite !Float64.leb_ord, !yScale_spec. intros Hle.
  assert (V1 : forall v, valid_binary
             (SFsub prec emax (Prim2SF v)
                (S754_finite true 6755399441055744 (-52))) = true).
  { intros v.
    change (S754_finite true 6755399441055744 (-52)) with (Prim2SF (-1.5)).
    rewrite <- FloatAxioms.sub_spec. apply Prim2SF_valid. }
  assert (V2 : forall v, valid_binary
             (SFdiv prec emax
                (SFsub prec emax (Prim2SF v)
                   (S754_finite true 6755399441055744 (-52)))
                (S754_finite false 6755399441055744 (-51))) = true).
  { intros v.
    change (S754_finite true 6755399441055744 (-52)) with (Prim2SF (-1.5)).
    change (S754_finite false 6755399441055744 (-51)) with (Prim2SF 3).
    rewrite <- FloatAxioms.sub_spec, <- FloatAxioms.div_spec.
    apply Prim2SF_valid. }
  assert (V3 : forall v, valid_binary
             (SFmul prec emax
                (SFdiv prec emax
                   (SFsub prec emax (Prim2SF v)
                      (S754_finite true 6755399441055744 (-52)))
                   (S754_finite false 6755399441055744 (-51)))
                (S754_finite false 7036874417766400 (-46))) = true).
  { intros v.
    change (S754_finite true 6755399441055744 (-52)) with (Prim2SF (-1.5)).
    change (S754_finite false 6755399441055744 (-51)) with (Prim2SF 3).
    change (S754_finite false 7036874417766400 (-46)) with (Prim2SF 100).
    rewrite <- FloatAxioms.sub_spec, <- FloatAxioms.div_spec,
      <- FloatAxioms.mul_spec.
    apply Prim2SF_valid. }
  apply Float64.SFsub_right_mono; try done.
  { by intros []. }
  apply Float64.SFmul_mono; try done.
  apply Float64.SFdiv_mono; try done.
  apply Float64.SFsub_left_mono; try done; try apply Prim2SF_valid.
  by intros [].
Qed.

End ScaleFacts.

(** C9, amended.  In double precision [yScale] sends -1.5 to [GRAPH_HEIGHT],
    1.5 to 0 and 0 to [GRAPH_HEIGHT / 2], the voltage ticks to 100, 75, 50, 25
    and 0, and does not clamp: 3 goes to -50 and -3 to 150, every value from
    3 up goes to -50 or below and every value from -3 down to 150 or above.
    On doubles it never increases: [v1 <= v2] gives
    [yScale v2 <= yScale v1].  Its formula, read in exact arithmetic, is the
    affine map [v |-> 50 - (100/3) v]: there it is strictly decreasing, with
    the same three values, and sends every value outside [-1.5, 1.5] outside
    [0, GRAPH_HEIGHT]. *)
Theorem yScale_affine_decreasing :
  yScale (-1.5) = GRAPH_HEIGHT /\
  yScale 1.5 = 0%float /\
  yScale 0 = (GRAPH_HEIGHT / 2)%float /\
  yScale <$> VOLTAGE_TICKS = [100; 75; 50; 25; 0]%float /\
  yScale 3 = (-50)%float /\
  yScale (-3) = 150%float /\
  (forall v1 v2 : number,
     (v1 <=? v2)%float = true -> (yScale v2 <=? yScale v1)%float = true) /\
  (forall v : number,
     (3 <=? v)%float = true -> (yScale v <=? -50)%float = true) /\
  (forall v : number,
     (v <=? -3)%float = true -> (150 <=? yScale v)%float = true) /\
  (forall v, yScale_exact v == 50 - (100 # 3) * v)%Q /\
  (forall v1 v2, v1 < v2 -> yScale_exact v2 < yScale_exact v1)%Q /\
  (yScale_exact (- (3 # 2)) == 100)%Q /\
  (yScale_exact (3 # 2) == 0)%Q /\
  (yScale_exact 0 == 100 / 2)%Q /\
  (forall v, 3 # 2 < v -> yScale_exact v < 0)%Q /\
  (forall v, v < - (3 # 2) -> 100 < yScale_exact v)%Q.
Proof.
  repeat (split; [reflexivity|]).
  split; [exact yScale_decreasing|].
  split; [intros v H; exact (yScale_decreasing 3 v H)|].
  split; [intros v H; exact (yScale_decreasing v (-3) H)|].
  split; [exact yScale_exact_affine|].
  split; [exact yScale_exact_decreasing|].
  repeat (split; [reflexivity|]). split.
  - intros v H. rewrite yScale_exact_affine. lra.
  - intros v H. rewrite yScale_exact_affine. lra.
Qed.

(** C9 as stated fails on doubles: 0 and 2^-60 are distinct values with the
    same [yScale], because [2^-60 + 1.5] rounds to 1.5; and the double just
    above 1.5 is sent to 0, inside [0, GRAPH_HEIGHT]. *)
Lemma yScale_not_strict :
  (0 <? 0x1p-60)%float = true /\
  yScale 0 = yScale 0x1p-60 /\
  (yScale 0x1p-60 <? yScale 0)%float = false /\
  (1.5 <? 0x1.8000000000001p+0)%float = true /\
  yScale 0x1.8000000000001p+0 = 0%float /\
  ~ (forall v1 v2 : number,
       (v1 <? v2)%float = true -> (yScale v2 <? yScale v1)%float = true).
Proof.
  repeat (split; [reflexivity|]).
  intros H. specialize (H 0%float 0x1p-60%float eq_refl). discriminate H.
Qed.

(** * Further properties of the code

    Properties of the ring buffer, the message handler, the throttled
    listener and the redraw beyond those the specification states. *)

(** ** Ring buffer: further lemmas *)

Section RingBufferMore.

Lemma getArray_length rb : length (getArray rb) = length (buffer rb).
Proof.
  unfold getArray, JsArray.slice_from, JsArray.slice_to.
  rewrite length_app, length_drop, length_take. lia.
Qed.

(** Pushing slides the view of [getArray] along the samples pushed. *)
Lemma getArray_pushes_wf ps rb :
  wf rb ->
  getArray (pushes ps rb) = drop (length ps) (getArray rb ++ (Some <$> ps)).
Proof.
  intros Hwf. induction ps as [|s ps IH] using rev_ind.
  - cbn. by rewrite app_nil_r.
  - rewrite pushes_snoc, getArray_push by (by apply pushes_wf).
    rewrite IH, drop_drop, length_app, fmap_app, app_assoc. cbn [length fmap list_fmap].
    destruct (wf_pointer _ Hwf) as (p & _ & Hp).
    pose proof (wf_length _ Hwf) as Hlen.
    rewrite (drop_app_le _ [Some s]); [done|].
    rewrite length_app, length_fmap, getArray_length. lia.
Qed.

Lemma pushes_pointer c ps :
  0 < c -> pointer (pushes ps (RingBuffer_new c)) = At (length ps mod c).
Proof.
  intros Hc. induction ps as [|s ps IH] using rev_ind.
  - cbn. by rewrite Nat.Div0.mod_0_l.
  - rewrite pushes_snoc. unfold push; cbn [pointer].
    rewrite IH, pushes_capacity. cbn [capacity RingBuffer_new].
    unfold succ_mod. destruct c as [|c']; [lia|].
    rewrite length_app. cbn [length].
    by rewrite Nat.Div0.add_mod_idemp_l.
Qed.

Lemma mod_apart i n c : i < n -> n < i + c -> i mod c <> n mod c.
Proof.
  intros Hi Hn Heq.
  pose proof (Nat.div_mod_eq i c) as Ei. pose proof (Nat.div_mod_eq n c) as En.
  assert (Hc : 0 < c) by lia.
  pose proof (Nat.mod_upper_bound i c ltac:(lia)).
  assert (Hd : n - i = c * (n / c - i / c)) by nia.
  destruct (n / c - i / c) as [|d]; nia.
Qed.

Lemma pushes_buffer_length c ps :
  0 < c -> length (buffer (pushes ps (RingBuffer_new c))) = c.
Proof.
  intros Hc.
  pose proof (wf_length _ (pushes_wf ps _ (new_wf c Hc))) as H.
  by rewrite pushes_capacity in H.
Qed.

Lemma pushes_slot c ps : forall i s,
  0 < c -> ps !! i = Some s -> length ps <= i + c ->
  buffer (pushes ps (RingBuffer_new c)) !! (i mod c) = Some (Some s).
Proof.
  induction ps as [|s' ps IH] using rev_ind; intros i s Hc Hi Hn; [done|].
  rewrite length_app in Hn. cbn [length] in Hn.
  rewrite pushes_snoc. unfold push; cbn [buffer].
  rewrite pushes_pointer by done. unfold JsArray.set.
  pose proof (pushes_buffer_length c ps Hc) as Hlen.
  pose proof (Nat.mod_upper_bound (length ps) c ltac:(lia)) as Hp.
  rewrite decide_True by lia.
  destruct (decide (i = length ps)) as [->|Hne].
  - rewrite lookup_app_r, Nat.sub_diag in Hi by lia. cbn in Hi.
    injection Hi as ->. apply list_lookup_insert_eq. lia.
  - assert (Hlt : i < length ps).
    { apply lookup_lt_Some in Hi. rewrite length_app in Hi. cbn in Hi. lia. }
    rewrite lookup_app_l in Hi by done.
    rewrite list_lookup_insert_ne by (apply not_eq_sym, mod_apart; lia).
    apply IH; [done|done|lia].
Qed.

Lemma pushes_zero_capacity s ps :
  pushes (s :: ps) (RingBuffer_new 0) =
  {| buffer := [Some s]; pointer := NotANumber; capacity := 0 |}.
Proof.
  rewrite pushes_cons.
  change (push s (RingBuffer_new 0))
    with {| buffer := [Some s]; pointer := NotANumber; capacity := 0 |}.
  induction ps as [|s' ps IH] using rev_ind; [done|].
  by rewrite pushes_snoc, IH.
Qed.

End RingBufferMore.

(** ** Ring buffer: further properties *)

(** X1: on a ring buffer that was constructed with capacity [c > 0] and has
    received any pushes, a further run of pushes slides [getArray] along:
    the new view is the old view followed by the samples pushed, without its
    first [length ps] entries. *)
Theorem getArray_sliding_window (c : nat) (qs ps : list Sample) :
  0 < c ->
  let rb := pushes qs (RingBuffer_new c) in
  getArray (pushes ps rb) = drop (length ps) (getArray rb ++ (Some <$> ps)).
Proof.
  intros Hc rb. apply getArray_pushes_wf, pushes_wf, new_wf, Hc.
Qed.

Lemma getArray_sliding_window_witness :
  0 < 2 /\
  getArray (pushes [sample2; sample3] (pushes [sample1] (RingBuffer_new 2))) =
  [Some sample2; Some sample3].
Proof.
  split; [lia|].
  exact (getArray_sliding_window 2 [sample1] [sample2; sample3] ltac:(lia)).
Defined.

(** X2: until a ring buffer of capacity [c > 0] is full, [getArray] returns
    the [c - n] placeholder samples [{timestamp: 0, value: 0}] that are left,
    followed by the [n] samples pushed, in insertion order. *)
Theorem getArray_partial_fill (c : nat) (ps : list Sample) :
  0 < c -> length ps <= c ->
  getArray (pushes ps (RingBuffer_new c)) =
  Some <$> (replicate (c - length ps) zero_sample ++ ps).
Proof.
  intros Hc Hn. rewrite getArray_pushes by done. f_equal.
  rewrite drop_app_le by (rewrite length_replicate; lia).
  f_equal. rewrite drop_replicate. done.
Qed.

Lemma getArray_partial_fill_witness :
  0 < 3 /\ length [sample1; sample2] <= 3 /\
  getArray (pushes [sample1; sample2] (RingBuffer_new 3)) =
  [Some zero_sample; Some sample1; Some sample2].
Proof.
  split; [lia|]. split; [cbn; lia|].
  exact (getArray_partial_fill 3 [sample1; sample2] ltac:(lia) ltac:(cbn; lia)).
Defined.

(** X3: after [n] pushes on a ring buffer of capacity [c > 0] the pointer is
    [n mod c], and push number [i] (from 0) sits in slot [i mod c] for as long
    as fewer than [c] pushes have followed it. *)
Theorem push_slot_round_robin (c : nat) (ps : list Sample) :
  0 < c ->
  pointer (pushes ps (RingBuffer_new c)) = At (length ps mod c) /\
  forall i s,
    ps !! i = Some s -> length ps <= i + c ->
    buffer (pushes ps (RingBuffer_new c)) !! (i mod c) = Some (Some s).
Proof.
  intros Hc. split; [by apply pushes_pointer|].
  intros i s. by apply pushes_slot.
Qed.

Lemma push_slot_round_robin_witness :
  0 < 2 /\
  pointer (pushes [sample1; sample2; sample3] (RingBuffer_new 2)) = At 1 /\
  buffer (pushes [sample1; sample2; sample3] (RingBuffer_new 2)) !! 0 =
    Some (Some sample3).
Proof.
  split; [lia|].
  destruct (push_slot_round_robin 2 [sample1; sample2; sample3] ltac:(lia))
    as [Hp Hs].
  split; [exact Hp|].
  exact (Hs 2 sample3 eq_refl ltac:(cbn; lia)).
Defined.

(** X4: a ring buffer of capacity 0 keeps the first sample pushed and nothing
    else: that push grows the empty array to one slot and turns the pointer
    into NaN, after which every push is lost and [getArray] keeps returning
    that one sample. *)
Theorem zero_capacity_keeps_first (s : Sample) (ps : list Sample) :
  let rb := pushes (s :: ps) (RingBuffer_new 0) in
  buffer rb = [Some s] /\ pointer rb = NotANumber /\ getArray rb = [Some s].
Proof.
  cbn zeta. by rewrite pushes_zero_capacity.
Qed.

(** ** The message handler: further lemmas *)

Section HandlerMore.

Lemma outer_loop_completion t chs : forall k0 st,
  fst (forEach_from (store_channel t) k0 chs st) =
  if existsb (fun channel => negb (length channel =? 0))
       (drop (length (dataRef st) - k0) chs)
  then Throw TypeError else Normal tt.
Proof.
  induction chs as [|ch chs IH]; intros k0 st.
  - by rewrite drop_nil.
  - destruct (dataRef st !! k0) as [rb0|] eqn:Hk0.
    + rewrite (outer_step_pushes t ch chs k0 st rb0 Hk0), IH.
      apply lookup_lt_Some in Hk0.
      unfold with_dataRef; cbn [dataRef]. rewrite length_insert.
      replace (length (dataRef st) - k0) with (S (length (dataRef st) - S k0))
        by lia.
      done.
    + rewrite (outer_step_throws t ch chs k0 st Hk0).
      apply lookup_ge_None in Hk0.
      replace (length (dataRef st) - k0) with 0 by lia.
      cbn [drop existsb]. destruct ch as [|v ch]; cbn [length Nat.eqb negb orb].
      * rewrite IH. by replace (length (dataRef st) - S k0) with 0 by lia.
      * done.
Qed.

Lemma try_catch_console (body : M unit) st :
  console (snd (try_catch body console_error st)) =
  match fst (body st) with
  | Normal _ => console (snd (body st))
  | Throw e => e :: console (snd (body st))
  end.
Proof. unfold try_catch. by destruct (body st) as [[[]|e] st']. Qed.

Lemma try_catch_lastTimestamp (body : M unit) st :
  lastTimestampRef (snd (try_catch body console_error st)) =
  lastTimestampRef (snd (body st)).
Proof. unfold try_catch. by destruct (body st) as [[[]|e] st']. Qed.

Lemma pushes_app ps qs rb : pushes (ps ++ qs) rb = pushes qs (pushes ps rb).
Proof. unfold pushes. apply foldl_app. Qed.

End HandlerMore.

(** ** The message handler: further properties *)

(** X5: a batch that parses refreshes [lastTimestampRef] with the clock
    reading of the handler, also when storing its readings throws later
    on. *)
Theorem batch_refreshes_lastTimestamp (now : number) (data : EegBatchData)
    (st : state) :
  lastTimestampRef (snd (handleMessage now (Batch data) st)) = now.
Proof.
  unfold handleMessage.
  rewrite try_catch_lastTimestamp, handleMessage_try_batch.
  by destruct (outer_loop (batch_timestamp data) (channels data) 0
                 {| dataRef := dataRef st; lastTimestampRef := now;
                    console := console st |}) as (_ & -> & _).
Qed.

(** X6: handling a batch logs an error exactly when the batch has a
    non-empty channel array beyond the last ring buffer, and then it logs
    one TypeError; a batch whose readings all have a buffer logs nothing. *)
Theorem batch_error_logged (now : number) (data : EegBatchData) (st : state) :
  console (snd (handleMessage now (Batch data) st)) =
  if unbuffered_readings (length (dataRef st)) data
  then TypeError :: console st else console st.
Proof.
  unfold handleMessage.
  rewrite try_catch_console, handleMessage_try_batch.
  set (st0 := {| dataRef := dataRef st; lastTimestampRef := now;
                 console := console st |}).
  destruct (outer_loop (batch_timestamp data) (channels data) 0 st0)
    as (_ & _ & -> & _).
  rewrite outer_loop_completion. unfold unbuffered_readings.
  rewrite Nat.sub_0_r. cbn [dataRef st0].
  by destruct (existsb _ _).
Qed.

(** X7: when a batch is handled, the view [getArray] gives of channel [k]'s
    buffer slides along the samples of [channels[k]]; a channel array with
    at least as many readings as the buffer has slots replaces the whole
    content, and only its last [c] readings stay. *)
Theorem handled_batch_window (now : number) (data : EegBatchData) (st : state)
    (k c : nat) (qs : list Sample) :
  0 < c ->
  dataRef st !! k = Some (pushes qs (RingBuffer_new c)) ->
  let arrived :=
    channel_samples (batch_timestamp data) (default [] (channels data !! k)) in
  exists rb,
    dataRef (snd (handleMessage now (Batch data) st)) !! k = Some rb /\
    getArray rb =
      drop (length arrived)
        (getArray (pushes qs (RingBuffer_new c)) ++ (Some <$> arrived)) /\
    (c <= length arrived ->
     getArray rb = Some <$> drop (length arrived - c) arrived).
Proof.
  intros Hc Hk arrived.
  destruct (handleMessage_batch now data st) as (_ & Hget).
  cbn zeta in Hget. rewrite (Hget _ _ Hk). fold arrived.
  eexists. split; [reflexivity|]. split.
  - apply getArray_pushes_wf, pushes_wf, new_wf, Hc.
  - intros Hn. rewrite <- pushes_app, getArray_full by (rewrite ?length_app; lia).
    rewrite length_app. f_equal.
    rewrite drop_app_ge by lia. f_equal. lia.
Qed.

Lemma handled_batch_window_witness :
  0 < WINDOW_SIZE /\
  exists rb,
    dataRef (snd (handleMessage 1000%float (Batch batch_example)
                    (initial_state 0%float))) !! 1 = Some rb /\
    getArray rb =
      drop 2 (getArray (RingBuffer_new WINDOW_SIZE) ++
              (Some <$> channel_samples 1000%float [1; -1]%float)).
Proof.
  split; [unfold WINDOW_SIZE; lia|].
  destruct (handled_batch_window 1000%float batch_example
              (initial_state 0%float) 1 WINDOW_SIZE []
              ltac:(unfold WINDOW_SIZE; lia) eq_refl) as (rb & H1 & H2 & _).
  exists rb. split; [exact H1 | exact H2].
Defined.

(** ** The listener: further lemmas *)

Section ListenerMore.

Lemma shouldInvoke_due {A} wait (th : Throttle.t A) time :
  (Throttle.lastInvokeTime th + wait <= time)%Z ->
  Throttle.shouldInvoke wait th time = true.
Proof.
  intros H. unfold Throttle.shouldInvoke.
  destruct (Throttle.lastCallTime th) as [called|]; [|done].
  apply orb_true_iff. right. apply Z.leb_le. lia.
Qed.

Lemma debounced_inv {A} wait (th : Throttle.t A) time args :
  throttle_inv th -> throttle_inv (fst (Throttle.debounced wait th time args)).
Proof.
  intros (Hp & Hd). unfold Throttle.debounced.
  destruct (Throttle.shouldInvoke wait th time),
    (Throttle.timerId th) as [due|] eqn:E; unfold throttle_inv; cbn;
    (split; [done|]); intros due' [= <-];
    try (apply elem_of_app; right; by apply list_elem_of_singleton).
  by apply Hd.
Qed.

(** The callback of a timeout sets things right whatever it finds. *)
Lemma timerExpired_inv {A} wait (th : Throttle.t A) time :
  throttle_inv (fst (Throttle.timerExpired wait th time)).
Proof.
  unfold Throttle.timerExpired.
  destruct (Throttle.shouldInvoke wait th time).
  - unfold Throttle.trailingEdge.
    by destruct (Throttle.lastArgs th); unfold throttle_inv; cbn.
  - unfold throttle_inv; cbn. split; [done|]. intros due' [= <-].
    apply elem_of_app; right. by apply list_elem_of_singleton.
Qed.

Lemma step_inv c e :
  throttle_inv (throttled c) -> throttle_inv (throttled (step c e)).
Proof.
  intros Hinv. destruct e as [time ev|time]; cbn [step].
  - pose proof (debounced_inv THROTTLE_WAIT (throttled c) time ev Hinv) as H.
    by destruct (Throttle.debounced THROTTLE_WAIT (throttled c) time ev).
  - destruct (Throttle.earliest (Throttle.timers (throttled c))) as [due|];
      [|done].
    destruct (due <=? time)%Z; [|done].
    pose proof (timerExpired_inv THROTTLE_WAIT
                  (Throttle.fired due (throttled c)) time) as H.
    by destruct (Throttle.timerExpired THROTTLE_WAIT _ time).
Qed.

Lemma run_inv events : forall c,
  throttle_inv (throttled c) -> throttle_inv (throttled (run events c)).
Proof.
  induction events as [|e events IH]; intros c Hinv; [done|].
  apply (IH (step c e)). by apply step_inv.
Qed.

Lemma mount_inv t0 : throttle_inv (throttled (mount t0)).
Proof. split; [done|]. by intros due. Qed.

(** Among pending timeouts there is one that fires next. *)
Lemma earliest_is_Some due pending :
  due ∈ pending -> is_Some (Throttle.earliest pending).
Proof.
  destruct pending as [|due' rest]; [by intros ?%elem_of_nil|]. intros _.
  cbn [Throttle.earliest]. by destruct (Throttle.earliest rest).
Qed.

Lemma handleMessage_batch_pushed now data st :
  pushed_buffers st -> pushed_buffers (snd (handleMessage now (Batch data) st)).
Proof.
  intros [Hlen Hall].
  destruct (handleMessage_batch now data st) as (Hlen' & Hget).
  cbn zeta in *. split; [congruence|].
  apply Forall_lookup. intros k rb' Hk'.
  assert (Hlt : k < length (dataRef st)).
  { apply lookup_lt_Some in Hk'. lia. }
  destruct (lookup_lt_is_Some_2 _ _ Hlt) as [rb Hk].
  rewrite (Hget k rb Hk) in Hk'. injection Hk' as <-.
  destruct (proj1 (Forall_lookup _ _) Hall k rb Hk) as [ps ->].
  eexists. by rewrite <- pushes_app.
Qed.

Lemma handleMessage_pushed now ev st :
  pushed_buffers st -> pushed_buffers (snd (handleMessage now ev st)).
Proof.
  intros H. destruct ev as [|data|[entries|] timestamp]; [done| | |done].
  - by apply handleMessage_batch_pushed.
  - unfold pushed_buffers. rewrite handleMessage_entries.
    by apply handleMessage_batch_pushed.
Qed.

Lemma invoke_pushed time args st :
  pushed_buffers st -> pushed_buffers (invoke time args st).
Proof. destruct args; [apply handleMessage_pushed|done]. Qed.

Lemma step_pushed c e :
  pushed_buffers (refs c) -> pushed_buffers (refs (step c e)).
Proof.
  intros H. destruct e as [time ev|time]; cbn [step].
  - destruct (Throttle.debounced _ _ _ _) as [th args]. by apply invoke_pushed.
  - destruct (Throttle.earliest (Throttle.timers (throttled c))); [|done].
    destruct (_ <=? _)%Z; [|done].
    destruct (Throttle.timerExpired _ _ _) as [th args]. by apply invoke_pushed.
Qed.

Lemma run_pushed events : forall c,
  pushed_buffers (refs c) -> pushed_buffers (refs (run events c)).
Proof.
  induction events as [|e events IH]; intros c H; [done|].
  apply (IH (step c e)), step_pushed, H.
Qed.

Lemma mount_pushed t0 : pushed_buffers (refs (mount t0)).
Proof.
  split; [done|]. apply Forall_replicate. by exists [].
Qed.

End ListenerMore.

(** ** The listener: further properties *)

(** X8: a message that arrives at least 32 ms after the time the throttle
    recorded for its last invocation (0 when there was none) is handled on
    arrival, and nothing is left pending. *)
Theorem prompt_message_handled (c : component) (time : Z) (ev : MessageEvent) :
  (Throttle.lastInvokeTime (throttled c) + THROTTLE_WAIT <= time)%Z ->
  refs (step c (Message time ev)) =
    snd (handleMessage (number_of_Z time) ev (refs c)) /\
  Throttle.lastArgs (throttled (step c (Message time ev))) = None.
Proof.
  intros H. cbn [step]. unfold Throttle.debounced.
  rewrite shouldInvoke_due by done.
  by destruct (Throttle.timerId (throttled c)).
Qed.

Lemma prompt_message_handled_witness :
  (Throttle.lastInvokeTime (throttled (mount 0)) + THROTTLE_WAIT <= 1000)%Z /\
  refs (step (mount 0) (Message 1000 Malformed)) =
    snd (handleMessage (number_of_Z 1000) Malformed (refs (mount 0))).
Proof.
  split; [vm_compute; discriminate|].
  exact (proj1 (prompt_message_handled (mount 0) 1000 Malformed
                  ltac:(vm_compute; discriminate))).
Defined.

(** X9: a message the throttle holds back is never stranded: whatever
    callbacks ran since mounting, a timeout is pending while a message is
    held, and the callback of a timeout, once the clock reads at least 32 ms
    more than the time recorded for the last invocation, hands the message to
    [handleMessage], and nothing is left pending.  (A timeout that fires
    earlier than that hands nothing over and sets another one.) *)
Theorem pending_message_delivered (t0 : Z) (events : list event)
    (ev : MessageEvent) :
  let c := run events (mount t0) in
  Throttle.lastArgs (throttled c) = Some ev ->
  exists due,
    Throttle.earliest (Throttle.timers (throttled c)) = Some due /\
    forall time,
      (due <= time)%Z ->
      (Throttle.lastInvokeTime (throttled c) + THROTTLE_WAIT <= time)%Z ->
      refs (step c (TimerFired time)) =
        snd (handleMessage (number_of_Z time) ev (refs c)) /\
      Throttle.lastArgs (throttled (step c (TimerFired time))) = None.
Proof.
  intros c Hpending.
  destruct (run_inv events (mount t0) (mount_inv t0)) as (Hp & Hd).
  fold c in Hp, Hd.
  destruct (Throttle.timerId (throttled c)) as [id|] eqn:E.
  2: { exfalso. apply Hp; [by rewrite Hpending|done]. }
  destruct (earliest_is_Some id _ (Hd id eq_refl)) as [due Hdue].
  exists due. split; [done|]. intros time Hfire Hwait.
  cbn [step]. rewrite Hdue.
  destruct (Z.leb_spec due time); [|lia].
  unfold Throttle.timerExpired.
  rewrite shouldInvoke_due by done.
  unfold Throttle.trailingEdge. cbn [Throttle.fired Throttle.lastArgs].
  by rewrite Hpending.
Qed.

Lemma pending_message_delivered_witness :
  Throttle.lastArgs
    (throttled (run [Message 1000 Malformed; Message 1010 (Batch batch_example)]
                  (mount 0))) = Some (Batch batch_example) /\
  exists due,
    Throttle.earliest
      (Throttle.timers
         (throttled (run [Message 1000 Malformed; Message 1010 (Batch batch_example)]
                       (mount 0)))) = Some due.
Proof.
  split; [reflexivity|].
  destruct (pending_message_delivered 0
              [Message 1000 Malformed; Message 1010 (Batch batch_example)]
              (Batch batch_example) eq_refl)
    as (due & H & _).
  by exists due.
Defined.

(** X10: the first batch after mounting is stored on arrival: channel [k]'s
    buffer then holds the placeholder samples that are left, followed by
    one sample per reading of [channels[k]], in order. *)
Theorem first_batch_buffered (t0 time : Z) (data : EegBatchData) (k : nat)
    (channel : list number) :
  k < CHANNEL_COUNT -> channels data !! k = Some channel ->
  length channel <= WINDOW_SIZE ->
  exists rb,
    dataRef (refs (step (mount t0) (Message time (Batch data)))) !! k = Some rb /\
    getArray rb =
      Some <$> (replicate (WINDOW_SIZE - length channel) zero_sample ++
                channel_samples (batch_timestamp data) channel).
Proof.
  intros Hk Hch Hn. rewrite first_message_handled.
  destruct (handleMessage_batch (number_of_Z time) data
              (initial_state (number_of_Z t0))) as (_ & Hget).
  cbn zeta in Hget.
  rewrite (Hget k (RingBuffer_new WINDOW_SIZE))
    by (by apply lookup_replicate_2).
  rewrite Hch. change (default [] (Some channel)) with channel.
  eexists. split; [done|].
  assert (Hlen : length (channel_samples (batch_timestamp data) channel) =
                 length channel) by apply length_imap.
  rewrite getArray_pushes by (unfold WINDOW_SIZE; lia).
  rewrite Hlen. f_equal.
  rewrite drop_app_le by (rewrite length_replicate; lia).
  by rewrite drop_replicate.
Qed.

Lemma first_batch_buffered_witness :
  1 < CHANNEL_COUNT /\ length [1; -1]%float <= WINDOW_SIZE /\
  exists rb,
    dataRef (refs (step (mount 0) (Message 1000 (Batch batch_example)))) !! 1 =
      Some rb /\
    getArray rb =
      Some <$> (replicate (WINDOW_SIZE - 2) zero_sample ++
                channel_samples 1000%float [1; -1]%float).
Proof.
  split; [unfold CHANNEL_COUNT; lia|]. split; [unfold WINDOW_SIZE; cbn; lia|].
  exact (first_batch_buffered 0 1000 batch_example 1 [1; -1]%float
           ltac:(unfold CHANNEL_COUNT; lia) eq_refl
           ltac:(unfold WINDOW_SIZE; cbn; lia)).
Defined.

(** X11: whatever callbacks run after mounting (well-formed, malformed or
    oversized batches, timers), the component keeps exactly four ring
    buffers, and each is a fresh buffer of [WINDOW_SIZE] slots that was pushed
    to: its length is [WINDOW_SIZE] and its pointer is in range. *)
Theorem buffers_after_callbacks (t0 : Z) (events : list event) :
  let st := refs (run events (mount t0)) in
  length (dataRef st) = CHANNEL_COUNT /\
  forall k rb,
    dataRef st !! k = Some rb ->
    (exists ps, rb = pushes ps (RingBuffer_new WINDOW_SIZE)) /\
    capacity rb = WINDOW_SIZE /\
    length (buffer rb) = WINDOW_SIZE /\
    length (getArray rb) = WINDOW_SIZE /\
    pointer_in_range rb.
Proof.
  cbn zeta.
  destruct (run_pushed events (mount t0) (mount_pushed t0)) as [Hlen Hall].
  split; [done|]. intros k rb Hk.
  destruct (proj1 (Forall_lookup _ _) Hall k rb Hk) as [ps ->].
  assert (Hc : 0 < WINDOW_SIZE) by (unfold WINDOW_SIZE; lia).
  assert (Hwf : wf (pushes ps (RingBuffer_new WINDOW_SIZE)))
    by apply pushes_wf, new_wf, Hc.
  split; [by exists ps|]. split; [apply pushes_capacity|].
  split; [by apply pushes_buffer_length|].
  split; [by rewrite getArray_length, pushes_buffer_length|].
  apply (wf_pointer _ Hwf).
Qed.

(** ** Redraw: further lemmas *)

Section DrawMore.

Lemma pushed_dense st : pushed_buffers st -> Forall dense (dataRef st).
Proof.
  intros [_ Hall]. eapply Forall_impl; [exact Hall|].
  intros rb [ps ->]. apply pushes_dense, new_dense.
Qed.

Lemma draw_channel_dense now rb k :
  dense rb -> exists rest, draw_channel now rb k = Normal (drawImage_background :: rest).
Proof.
  intros Hd. destruct (dense_getArray rb Hd) as [l Hl].
  unfold draw_channel. rewrite (select_samples_dense now rb l Hl). by eexists.
Qed.

Lemma draw_from_dense now has_ctx buffers : forall k0,
  Forall dense buffers ->
  exists cmds,
    draw_from now has_ctx k0 buffers = Normal cmds /\
    length cmds = length buffers /\
    forall j buffer,
      buffers !! j = Some buffer ->
      exists l,
        cmds !! j = Some l /\
        if has_ctx (k0 + j) then draw_channel now buffer (k0 + j) = Normal l
        else l = [].
Proof.
  induction buffers as [|buffer rest IH]; intros k0 Hall.
  - exists []. by repeat split.
  - apply Forall_cons in Hall as [Hd Hall].
    destruct (IH (S k0) Hall) as (cmds & Hdraw & Hlen & Hget).
    destruct (draw_channel_dense now buffer k0 Hd) as [ch Hch].
    cbn [draw_from]. rewrite Hdraw.
    exists ((if has_ctx k0 then drawImage_background :: ch else []) :: cmds).
    split; [by destruct (has_ctx k0); rewrite ?Hch|].
    split; [cbn; by rewrite Hlen|].
    intros [|j] b Hj.
    + injection Hj as <-. rewrite Nat.add_0_r. eexists. split; [done|].
      by destruct (has_ctx k0).
    + rewrite Nat.add_succ_r. apply (Hget j b Hj).
Qed.

Lemma positive_not_below_zero (x : number) :
  (0 <? x)%float = true -> (x <=? 0)%float = false.
Proof.
  rewrite FloatAxioms.ltb_spec, FloatAxioms.leb_spec.
  change (Prim2SF 0) with (S754_zero false).
  by destruct (Prim2SF x) as [[]|[]| |[] m e].
Qed.

(** A placeholder sample is older than the window as soon as the clock is
    past 2000 ms. *)
Lemma placeholder_out_of_window now :
  (WINDOW_DURATION <? now)%float = true ->
  in_window (now - WINDOW_DURATION) now zero_sample = false.
Proof.
  intros H. unfold in_window. cbn [timestamp zero_sample].
  rewrite <- Float64.sub_positive in H.
  by rewrite (positive_not_below_zero _ H).
Qed.

Lemma filter_placeholders now n :
  (WINDOW_DURATION <? now)%float = true ->
  List.filter (in_window (now - WINDOW_DURATION) now) (replicate n zero_sample) = [].
Proof.
  intros H. induction n as [|n IH]; [done|].
  cbn [replicate List.filter]. by rewrite placeholder_out_of_window.
Qed.

Lemma select_samples_past_placeholders c ps now :
  0 < c -> (WINDOW_DURATION <? now)%float = true ->
  select_samples now (pushes ps (RingBuffer_new c)) =
  Normal (sort by_timestamp
            (List.filter (in_window (now - WINDOW_DURATION) now)
               (drop (length ps - c) ps))).
Proof.
  intros Hc Hnow.
  rewrite (select_samples_dense now _ _ (getArray_pushes c ps Hc)).
  do 2 f_equal.
  destruct (decide (length ps <= c)) as [Hle|Hgt].
  - rewrite drop_app_le by (rewrite length_replicate; lia).
    rewrite List.filter_app, drop_replicate, filter_placeholders by done.
    by replace (length ps - c) with 0 by lia.
  - rewrite drop_app_ge by (rewrite length_replicate; lia).
    by rewrite length_replicate.
Qed.

Lemma plot_polyline now samples : plot now samples = polyline now samples.
Proof.
  unfold plot. destruct samples as [|s rest]; [done|].
  cbn [imap polyline]. f_equal.
  induction rest as [|s' rest IH]; [done|].
  cbn [imap fmap list_fmap]. f_equal. exact IH.
Qed.

End DrawMore.

(** ** Redraw: further properties *)


(** X13: once the clock is past 2000 ms the placeholder samples of a ring
    buffer (timestamp 0) are older than the window, so a redraw selects
    among the samples pushed only (the last [c] of them), also while the
    buffer is not full yet. *)
Theorem placeholders_not_selected (c : nat) (ps : list Sample) (now : number) :
  0 < c -> (WINDOW_DURATION <? now)%float = true ->
  select_samples now (pushes ps (RingBuffer_new c)) =
  Normal (sort by_timestamp
            (List.filter (in_window (now - WINDOW_DURATION) now)
               (drop (length ps - c) ps))).
Proof. apply select_samples_past_placeholders. Qed.

Lemma placeholders_not_selected_witness :
  0 < 3 /\ (WINDOW_DURATION <? 2010)%float = true /\
  select_samples 2010%float (pushes [sample1; sample2; sample3] (RingBuffer_new 3)) =
  Normal [sample3].
Proof.
  split; [lia|]. split; [reflexivity|].
  exact (placeholders_not_selected 3 [sample1; sample2; sample3] 2010%float
           ltac:(lia) eq_refl).
Defined.

(** X14: before any message is handled, a redraw with the clock past
    2000 ms draws no trace: each channel that has a 2d context gets the
    background and nothing else. *)
Theorem fresh_component_draws_background (t0 : Z) (now : number)
    (has_ctx : nat -> bool) :
  (WINDOW_DURATION <? now)%float = true ->
  draw now has_ctx (refs (mount t0)) =
  Normal ((fun k => if has_ctx k then [drawImage_background] else [])
            <$> seq 0 CHANNEL_COUNT).
Proof.
  intros Hnow.
  assert (Hch : forall k,
            draw_channel now (RingBuffer_new WINDOW_SIZE) k =
            Normal [drawImage_background]).
  { intros k. unfold draw_channel.
    pose proof (select_samples_past_placeholders WINDOW_SIZE [] now
                  ltac:(unfold WINDOW_SIZE; lia) Hnow) as Hsel.
    change (pushes [] ?rb) with rb in Hsel. by rewrite Hsel. }
  unfold draw. cbn [refs mount dataRef initial_state].
  cbn [CHANNEL_COUNT replicate draw_from seq fmap list_fmap].
  rewrite !Hch. by destruct (has_ctx 0), (has_ctx 1), (has_ctx 2), (has_ctx 3).
Qed.

Lemma fresh_component_draws_background_witness :
  (WINDOW_DURATION <? 5000)%float = true /\
  draw 5000%float (fun k => negb (k =? 2)) (refs (mount 0)) =
  Normal [[drawImage_background]; [drawImage_background]; [];
          [drawImage_background]].
Proof.
  split; [reflexivity|].
  exact (fresh_component_draws_background 0 5000%float
           (fun k => negb (k =? 2)) eq_refl).
Defined.

(** X15: with fewer than two samples in the window a channel's redraw only
    copies the background (a lone sample is not drawn); with two or more it
    strokes one connected line of width 2 in the channel's colour: a single
    [moveTo], at the first selected sample, then a [lineTo] for each later
    one. *)
Theorem channel_path_shape (now : number) (rb : RingBuffer) (k : nat)
    (samples : list Sample) :
  select_samples now rb = Normal samples ->
  draw_channel now rb k =
  Normal
    (drawImage_background ::
     if decide (2 <= length samples) then
       [beginPath; set_strokeStyle (CHANNEL_COLORS !! k); set_lineWidth 2%float]
       ++ polyline now samples ++ [stroke]
     else []).
Proof.
  intros Hsel. unfold draw_channel. by rewrite Hsel, plot_polyline.
Qed.

Lemma channel_path_shape_witness :
  select_samples 2010%float (pushes [sample1; sample2; sample3] (RingBuffer_new 3)) =
    Normal [sample3] /\
  draw_channel 2010%float (pushes [sample1; sample2; sample3] (RingBuffer_new 3)) 0 =
    Normal [drawImage_background].
Proof.
  split; [reflexivity|].
  exact (channel_path_shape 2010%float
           (pushes [sample1; sample2; sample3] (RingBuffer_new 3)) 0 [sample3]
           eq_refl).
Defined.

(** ** The scales: further properties *)

(** X16: a reading within [-1.5, 1.5] is plotted within the height of the
    canvas: [0 <= yScale v <= GRAPH_HEIGHT]. *)
Theorem yScale_in_canvas (v : number) :
  (-1.5 <=? v)%float = true -> (v <=? 1.5)%float = true ->
  (0 <=? yScale v)%float = true /\ (yScale v <=? GRAPH_HEIGHT)%float = true.
Proof.
  intros Hlo Hhi. split.
  - exact (yScale_decreasing v 1.5 Hhi).
  - exact (yScale_decreasing (-1.5) v Hlo).
Qed.

Lemma yScale_in_canvas_witness :
  (-1.5 <=? 0.25)%float = true /\ (0.25 <=? 1.5)%float = true /\
  (0 <=? yScale 0.25)%float = true /\ (yScale 0.25 <=? GRAPH_HEIGHT)%float = true.
Proof.
  split; [reflexivity|]. split; [reflexivity|].
  exact (yScale_in_canvas 0.25%float eq_refl eq_refl).
Defined.

(** X17: at a finite clock reading, a sample with a later timestamp is never
    plotted further left: [xScale] never decreases with the timestamp, in
    double precision. *)
Theorem xScale_increasing (now : number) (s1 s2 : Sample) :
  is_finite now = true ->
  (timestamp s1 <=? timestamp s2)%float = true ->
  (xScale now s1 <=? xScale now s2)%float = true.
Proof. apply xScale_mono. Qed.

Lemma xScale_increasing_witness :
  is_finite 2010%float = true /\
  (timestamp sample1 <=? timestamp sample2)%float = true /\
  (xScale 2010%float sample1 <=? xScale 2010%float sample2)%float = true.
Proof.
  split; [reflexivity|]. split; [reflexivity|].
  exact (xScale_increasing 2010%float sample1 sample2 eq_refl eq_refl).
Defined.

(** X18: when the clock reading is such that [now - (now - 2000)] is
    exactly 2000 in double precision, every sample the redraw selects is
    plotted within the width of the canvas: [0 <= x <= GRAPH_WIDTH], with
    [x = GRAPH_WIDTH] at timestamp [now] and [x = 0] at timestamp
    [now - 2000]. *)
Theorem xScale_in_canvas (now : number) (s : Sample) :
  (now - (now - WINDOW_DURATION))%float = WINDOW_DURATION ->
  in_window (now - WINDOW_DURATION) now s = true ->
  (0 <=? xScale now s)%float = true /\
  (xScale now s <=? GRAPH_WIDTH)%float = true /\
  xScale now (mkSample now (value s)) = GRAPH_WIDTH /\
  xScale now (mkSample (now - WINDOW_DURATION) (value s)) = 0%float.
Proof.
  intros Hex Hin. destruct (xScale_bounds now s Hex Hin) as [Hlo Hhi].
  split; [done|]. split; [done|]. split.
  - apply xScale_now; [|done].
    by apply (Float64More.sub_sub_finite now WINDOW_DURATION).
  - by apply xScale_start.
Qed.

Lemma xScale_in_canvas_witness :
  (1700000000000 - (1700000000000 - WINDOW_DURATION))%float = WINDOW_DURATION /\
  in_window (1700000000000 - WINDOW_DURATION) 1700000000000
    (mkSample 1699999999000 0.5) = true /\
  (0 <=? xScale 1700000000000 (mkSample 1699999999000 0.5))%float = true /\
  (xScale 1700000000000 (mkSample 1699999999000 0.5) <=? GRAPH_WIDTH)%float = true.
Proof.
  split; [reflexivity|]. split; [reflexivity|].
  destruct (xScale_in_canvas 1700000000000%float
              (mkSample 1699999999000 0.5) eq_refl eq_refl) as (H1 & H2 & _).
  split; [exact H1 | exact H2].
Defined.

(** X19: at a finite clock reading the line a redraw strokes for a channel
    runs from left to right: the x coordinates of its vertices never
    decrease along the path. *)
Theorem polyline_left_to_right (c : nat) (ps : list Sample) (now : number)
    (k : nat) :
  is_finite now = true ->
  exists cmds,
    draw_channel now (pushes ps (RingBuffer_new c)) k = Normal cmds /\
    forall i j p q,
      i < j -> vertices cmds !! i = Some p -> vertices cmds !! j = Some q ->
      (fst p <=? fst q)%float = true.
Proof.
  intros Hnow.
  destruct (select_samples_pushes c ps now) as (buffered & _ & Hsel).
  destruct (draw_channel_vertices now _ k _ Hsel) as (cmds & Hdraw & Hv).
  exists cmds. split; [done|]. intros i j p q Hij Hp Hq.
  rewrite Hv in Hp, Hq.
  destruct (decide (2 <= length _)); [|done].
  rewrite list_lookup_fmap in Hp, Hq.
  destruct (sort by_timestamp _ !! i) as [a|] eqn:Ha; [|done].
  destruct (sort by_timestamp _ !! j) as [b|] eqn:Hb; [|done].
  injection Hp as <-. injection Hq as <-. cbn [vertex fst].
  apply xScale_mono; [done|].
  apply (StronglySorted_lookup timestamp_le _) with (i := i) (j := j) (3 := Ha)
    (4 := Hb); [|done].
  apply Sorted_StronglySorted; [apply timestamp_le_trans|].
  apply (sort_Sorted (now - WINDOW_DURATION)%float).
  apply Forall_forall. intros s Hs.
  apply list_elem_of_In, filter_In in Hs as [_ Hs].
  by apply in_window_bounds in Hs as [Hs _].
Qed.

Lemma polyline_left_to_right_witness :
  is_finite 2010%float = true /\
  exists cmds,
    draw_channel 2010%float (pushes [sample3; sample2] (RingBuffer_new 2)) 0 =
      Normal cmds.
Proof.
  split; [reflexivity|].
  destruct (polyline_left_to_right 2 [sample3; sample2] 2010%float 0 eq_refl)
    as (cmds & H & _).
  by exists cmds.
Defined.

(** X20: on a clock of whole milliseconds, [2000 <= now < 2^53] as
    [Date.now()] gives, the width of the window is exact in double precision
    ([now - (now - 2000)] is 2000), and so every sample a redraw selects is
    plotted within the width of the canvas. *)
Theorem integer_clock_in_canvas (z : Z) (s : Sample) :
  (2000 <= z < 2 ^ 53)%Z ->
  let now := number_of_Z z in
  (now - (now - WINDOW_DURATION))%float = WINDOW_DURATION /\
  (in_window (now - WINDOW_DURATION) now s = true ->
   (0 <=? xScale now s)%float = true /\
   (xScale now s <=? GRAPH_WIDTH)%float = true).
Proof.
  intros Hz now.
  pose proof (Float64More.window_exact z Hz) as Hex. fold now in Hex.
  split; [done|]. by apply xScale_bounds.
Qed.

Lemma integer_clock_in_canvas_witness :
  (2000 <= 1700000000000 < 2 ^ 53)%Z /\
  (number_of_Z 1700000000000 -
   (number_of_Z 1700000000000 - WINDOW_DURATION))%float = WINDOW_DURATION.
Proof.
  assert (Hz : (2000 <= 1700000000000 < 2 ^ 53)%Z)
    by (split; [lia|reflexivity]).
  split; [exact Hz|].
  exact (proj1 (integer_clock_in_canvas 1700000000000
                  (mkSample 1699999999000 0.5) Hz)).
Defined.

(** ** The time axis *)

Section TimeAxis.

Lemma nth_render_succ n ticks :
  nth_render (S (S n)) ticks = nth_render (S n) (reverse ticks).
Proof. reflexivity. Qed.

Lemma nth_render_parity n : forall ticks,
  nth_render (S n) ticks =
  if Nat.even n then (reverse ticks, reverse ticks) else (ticks, ticks).
Proof.
  induction n as [|n IH]; intros ticks; [done|].
  rewrite nth_render_succ, IH, Nat.even_succ, <- Nat.negb_even.
  destruct (Nat.even n); cbn [negb]; by rewrite ?reverse_involutive.
Qed.

End TimeAxis.

(** X21: every render reverses the shared [TIME_TICKS] array in place, so the
    time labels alternate: odd renders (the first, the third, ...) show
    2, 1.5, 1, 0.5, 0 from left to right, in step with the grid lines at
    x = 0, 100, 200, 300, 400, and even renders show them mirrored,
    0 on the left, where the grid and the trace have the oldest samples. *)
Theorem time_labels_alternate (n : nat) :
  (forall ticks,
     fst (nth_render (S (S n)) ticks) = reverse (fst (nth_render (S n) ticks)) /\
     snd (nth_render (S (S n)) ticks) = reverse (snd (nth_render (S n) ticks))) /\
  fst (nth_render (S n) TIME_TICKS) =
    (if Nat.even n then [2; 1.5; 1; 0.5; 0] else [0; 0.5; 1; 1.5; 2])%float /\
  tick_x <$> fst (nth_render (S n) TIME_TICKS) =
    (if Nat.even n then [0; 100; 200; 300; 400]
     else [400; 300; 200; 100; 0])%float.
Proof.
  split; [|split].
  - intros ticks. rewrite !nth_render_parity, Nat.even_succ, <- Nat.negb_even.
    destruct (Nat.even n); cbn [negb fst snd]; by rewrite ?reverse_involutive.
  - rewrite nth_render_parity. by destruct (Nat.even n).
  - rewrite nth_render_parity. by destruct (Nat.even n).
Qed.

(** ** From the socket to the canvas *)

Section OrderMore.

Lemma step_handed c e :
  refs (step c e) = invoke (event_time e) (handed c e) (refs c).
Proof.
  destruct e as [time ev|time]; cbn [step handed event_time].
  - by destruct (Throttle.debounced _ _ _ _).
  - destruct (Throttle.earliest (Throttle.timers (throttled c))); [|done].
    destruct (_ <=? _)%Z; [|done].
    by destruct (Throttle.timerExpired _ _ _).
Qed.

Lemma run_handled events : forall c,
  refs (run events c) = handle_all (handled events c) (refs c).
Proof.
  induction events as [|e events IH]; intros c; [done|].
  cbn [run foldl handled]. fold (run events (step c e)).
  rewrite IH, step_handed.
  by destruct (handed c e).
Qed.

(** What a callback does with the arriving and the pending message. *)
Lemma handed_message c time ev :
  let c' := step c (Message time ev) in
  (handed c (Message time ev) = Some ev /\
   Throttle.lastArgs (throttled c') = None) \/
  (handed c (Message time ev) = None /\
   Throttle.lastArgs (throttled c') = Some ev).
Proof.
  cbn [step handed]. unfold Throttle.debounced.
  destruct (Throttle.shouldInvoke _ _ _), (Throttle.timerId (throttled c));
    cbn; auto.
Qed.

Lemma handed_timer c time :
  let c' := step c (TimerFired time) in
  (handed c (TimerFired time) = None /\
   Throttle.lastArgs (throttled c') = Throttle.lastArgs (throttled c)) \/
  (exists ev,
     Throttle.lastArgs (throttled c) = Some ev /\
     handed c (TimerFired time) = Some ev /\
     Throttle.lastArgs (throttled c') = None).
Proof.
  cbn [step handed].
  destruct (Throttle.earliest (Throttle.timers (throttled c))) as [due|];
    [|auto].
  destruct (due <=? time)%Z; [|auto].
  unfold Throttle.timerExpired.
  destruct (Throttle.shouldInvoke _ _ _); [|cbn; auto].
  unfold Throttle.trailingEdge. cbn [Throttle.fired Throttle.lastArgs].
  destruct (Throttle.lastArgs (throttled c)) as [ev|] eqn:E; cbn; [|auto].
  right. by exists ev.
Qed.

Lemma handled_sublist events : forall c,
  sublist (snd <$> handled events c)
    (option_list (Throttle.lastArgs (throttled c)) ++ received events).
Proof.
  induction events as [|e events IH]; intros c.
  - apply sublist_nil_l.
  - specialize (IH (step c e)). cbn [handled].
    destruct e as [time ev|time].
    + change (received (Message time ev :: events))
        with (ev :: received events).
      apply sublist_inserts_l.
      destruct (handed_message c time ev) as [[-> Hp]|[-> Hp]];
        cbn zeta in Hp; rewrite Hp in IH; cbn [option_list app] in IH.
      * cbn [fmap list_fmap snd]. by apply sublist_skip.
      * exact IH.
    + change (received (TimerFired time :: events)) with (received events).
      destruct (handed_timer c time) as [[-> Hp]|(ev & Hpend & -> & Hp)];
        cbn zeta in Hp; rewrite Hp in IH.
      * exact IH.
      * rewrite Hpend. cbn [option_list app fmap list_fmap snd] in *.
        by apply sublist_skip.
Qed.

End OrderMore.

(** X22: the throttled listener never duplicates, reorders or invents a
    message: the messages it hands to [handleMessage] are, in order, a
    subsequence of the messages received, and the refs after the callbacks
    are the result of handling exactly those. *)
Theorem messages_handled_in_order (t0 : Z) (events : list event) :
  sublist (snd <$> handled events (mount t0)) (received events) /\
  refs (run events (mount t0)) =
    handle_all (handled events (mount t0)) (refs (mount t0)).
Proof.
  split; [apply (handled_sublist events (mount t0))|apply run_handled].
Qed.

Section EndToEnd.

Lemma filter_all {A} (f : A -> bool) l :
  Forall (fun x => f x = true) l -> List.filter f l = l.
Proof.
  induction 1 as [|x l Hx _ IH]; [done|]. cbn. by rewrite Hx, IH.
Qed.

End EndToEnd.

(** X23: from the socket to the canvas.  When the first batch after
    mounting brings between 2 and 500 readings for channel [k], and a redraw
    follows with the clock past 2000 ms and the samples of those readings
    all inside the window, the line stroked for channel [k] has exactly the
    vertices of those samples, each once. *)
Theorem first_batch_drawn (t0 time : Z) (data : EegBatchData) (k : nat)
    (channel : list number) (now : number) (has_ctx : nat -> bool) :
  k < CHANNEL_COUNT -> has_ctx k = true ->
  channels data !! k = Some channel ->
  2 <= length channel <= WINDOW_SIZE ->
  (WINDOW_DURATION <? now)%float = true ->
  let samples := channel_samples (batch_timestamp data) channel in
  Forall (fun s => in_window (now - WINDOW_DURATION) now s = true) samples ->
  exists cmds l,
    draw now has_ctx (refs (step (mount t0) (Message time (Batch data)))) =
      Normal cmds /\
    cmds !! k = Some l /\
    Permutation (vertices l) (vertex now <$> samples).
Proof.
  intros Hk Hctx Hch Hn Hnow samples Hin.
  set (c := step (mount t0) (Message time (Batch data))).
  assert (Hp : pushed_buffers (refs c)) by apply step_pushed, mount_pushed.
  destruct (draw_from_dense now has_ctx _ 0 (pushed_dense _ Hp))
    as (cmds & Hdraw & _ & Hget).
  assert (Hrb : dataRef (refs c) !! k =
                Some (pushes samples (RingBuffer_new WINDOW_SIZE))).
  { unfold c. rewrite first_message_handled.
    destruct (handleMessage_batch (number_of_Z time) data
                (initial_state (number_of_Z t0))) as (_ & Hb).
    cbn zeta in Hb.
    rewrite (Hb k (RingBuffer_new WINDOW_SIZE))
      by (by apply lookup_replicate_2).
    by rewrite Hch. }
  destruct (Hget k _ Hrb) as (l & Hl & Hshape).
  cbn [Nat.add] in Hshape. rewrite Hctx in Hshape.
  exists cmds, l. split; [exact Hdraw|]. split; [exact Hl|].
  assert (Hlen : length samples = length channel) by apply length_imap.
  assert (Hsel : select_samples now (pushes samples (RingBuffer_new WINDOW_SIZE)) =
                 Normal (sort by_timestamp samples)).
  { rewrite select_samples_past_placeholders
      by (done || unfold WINDOW_SIZE; lia).
    replace (length samples - WINDOW_SIZE) with 0 by lia.
    cbn [drop]. by rewrite filter_all. }
  destruct (draw_channel_vertices now _ k _ Hsel) as (l' & Hl' & Hv).
  rewrite Hshape in Hl'. injection Hl' as <-.
  rewrite Hv.
  assert (Hperm : Permutation (sort by_timestamp samples) samples)
    by apply sort_perm.
  rewrite decide_True by (rewrite (Permutation_length Hperm); lia).
  by apply fmap_Permutation.
Qed.

Lemma first_batch_drawn_witness :
  1 < CHANNEL_COUNT /\
  exists cmds l,
    draw 2010%float (fun _ => true)
      (refs (step (mount 0) (Message 1000 (Batch batch_example)))) =
      Normal cmds /\
    cmds !! 1 = Some l /\
    Permutation (vertices l)
      (vertex 2010%float <$> channel_samples 1000%float [1; -1]%float).
Proof.
  split; [unfold CHANNEL_COUNT; lia|].
  apply (first_batch_drawn 0 1000 batch_example 1 [1; -1]%float 2010%float
           (fun _ => true)).
  - unfold CHANNEL_COUNT; lia.
  - reflexivity.
  - reflexivity.
  - unfold WINDOW_SIZE; cbn; lia.
  - reflexivity.
  - repeat constructor.
Defined.

(** ** Whole milliseconds *)

(** X24: timestamps do not drift.  When the base timestamp of a batch is a
    whole number [t >= 0] of milliseconds, reading [i] of a channel gets the
    timestamp [t + 4 i] exactly, in double precision, as long as that is
    below 2^53. *)
Theorem batch_timestamps_exact (tz : Z) (channel : list number) (i : nat)
    (v : number) :
  (0 <= tz)%Z -> (tz + 4 * Z.of_nat i < 2 ^ 53)%Z ->
  channel !! i = Some v ->
  channel_samples (number_of_Z tz) channel !! i =
    Some {| timestamp := number_of_Z (tz + 4 * Z.of_nat i); value := v |}.
Proof.
  intros Htz Hlt Hi.
  rewrite (channel_samples_lookup _ _ _ _ Hi). unfold make_sample.
  by rewrite Float64More.sample_timestamp_integer.
Qed.

Lemma batch_timestamps_exact_witness :
  (0 <= 1000)%Z /\ (1000 + 4 * Z.of_nat 1 < 2 ^ 53)%Z /\
  channel_samples (number_of_Z 1000) [1; -1]%float !! 1 =
    Some {| timestamp := number_of_Z 1004; value := (-1)%float |}.
Proof.
  split; [lia|]. split; [reflexivity|].
  exact (batch_timestamps_exact 1000 [1; -1]%float 1 (-1)%float
           ltac:(lia) eq_refl eq_refl).
Defined.

(** X25: on a clock and a base timestamp of whole milliseconds the window
    test of a redraw is exact: the sample of reading [i] is selected exactly
    when [now - 2000 <= t + 4 i <= now], no rounding taking a sample in or
    out. *)
Theorem window_test_exact (z tz : Z) (i : nat) (v : number) :
  (2000 <= z < 2 ^ 53)%Z -> (0 <= tz)%Z -> (tz + 4 * Z.of_nat i < 2 ^ 53)%Z ->
  let now := number_of_Z z in
  in_window (now - WINDOW_DURATION) now (make_sample (number_of_Z tz) v i) =
  ((z - 2000 <=? tz + 4 * Z.of_nat i) && (tz + 4 * Z.of_nat i <=? z))%Z.
Proof.
  intros Hz Htz Hlt now. unfold in_window, make_sample, now. cbn [timestamp].
  rewrite Float64More.sample_timestamp_integer by done.
  rewrite Float64More.sub_window_integer by done.
  by rewrite !Float64More.number_of_Z_leb by lia.
Qed.

Lemma window_test_exact_witness :
  (2000 <= 3000 < 2 ^ 53)%Z /\ (0 <= 1000)%Z /\
  (1000 + 4 * Z.of_nat 1 < 2 ^ 53)%Z /\
  in_window (number_of_Z 3000 - WINDOW_DURATION) (number_of_Z 3000)
    (make_sample (number_of_Z 1000) 0.5%float 1) = true.
Proof.
  assert (Hz : (2000 <= 3000 < 2 ^ 53)%Z) by (split; [lia|reflexivity]).
  split; [exact Hz|]. split; [lia|]. split; [reflexivity|].
  exact (window_test_exact 3000 1000 1 0.5%float Hz ltac:(lia) eq_refl).
Defined.
